(** * Batch file-operation engine of mcp-batch-server (src/index.ts)

    A shallow embedding of the batch execution engine: the request schemas,
    the grouping policy, the retrying executor, the coordinator that
    drives the operations through a concurrency limiter and builds the
    summary, and the code-analysis handler.

    Conventions of the model.
    - The numbers of a call are JavaScript numbers as [JSON.parse] gives
      them ([Number]): integers, the numbers between two integers, and
      the two infinities.  The schemas have no [.int()]; their upper
      bounds leave finite numbers ([Num]) for [maxConcurrent] and
      [retryAttempts].  The engine's own counters (attempts, lengths)
      are integers ([Z]).
    - The file system, the clock, the timer and the serialisers are an
      interface ([Fs], [Host]); every general statement holds for all
      implementations.  [Mem] and [Flaky] are two small implementations to
      run the model on.
    - Asynchronous interleaving is explicit.  The coordinator is a state
      machine and a schedule (a list of [Choice]s) says what happens next:
      the limiter starts the function at the head of its queue, a running
      function makes one pass through the executor's retry loop, or the
      coordinator resumes from its [await].  The file-system calls of one
      pass act on the world together, when the pass is scheduled.
    - The limiter is [p-limit]: its constructor throws unless the
      concurrency is an integer from 1 up or [Infinity]; it keeps a
      first-in-first-out queue from which a function starts whenever
      fewer than the concurrency are running; a function that settles
      frees its slot whether or not anybody still awaits it.
    - The arguments of a call are any value ([args: any]): the batch
      handler validates them, the analysis handler does not.  What the
      source leaves to the JavaScript engine and to Node (the texts of
      their errors) is an interface as well ([Engine]).
    - Between the rejection of [Promise.all] and the [catch] block of the
      coordinator other functions may make progress: the model lets any
      number of steps happen there, which covers what the event loop
      allows. *)

From Stdlib Require Import List ZArith String Ascii Bool Lia Permutation Arith.
From Stdlib Require Import DecimalString.
Import ListNotations.
Local Open Scope string_scope.
Local Open Scope Z_scope.
Local Open Scope list_scope.

Set Implicit Arguments.
Set Warnings "-register-all".

(* ================================================================== *)
(** ** Data model (the zod schemas, lines 26-49) *)

Inductive OpType := create | read | update | delete | copy | move.

Inductive Encoding := utf8 | base64.

(** A finite JavaScript number: an integer, or a number that lies
    strictly between [below] and [below + 1].  [part] tells the
    numbers between two integers apart; it spells the binary digits after
    the point: [xH] is .1 (a half), [xO p] a 0 and [xI p] a 1 followed by
    the digits of [p].  The schemas have no [.int()], so the options may
    be such numbers.  The engine does no arithmetic on them: it compares
    them with integers and hands one to the limiter. *)
Inductive Num :=
| Int (n : Z)
| Frac (below : Z) (part : positive).

Coercion Int : Z >-> Num.

Definition floor (x : Num) : Z :=
  match x with
  | Int n => n
  | Frac below _ => below
  end.

Definition ceil (x : Num) : Z :=
  match x with
  | Int n => n
  | Frac below _ => below + 1
  end.

(** [Number.isInteger(x)] *)
Definition isInteger (x : Num) : bool :=
  match x with
  | Int _ => true
  | Frac _ _ => false
  end.

(** A number as a call carries it.  [JSON.parse] reads a number too large
    for a double, such as [1e999], as [Infinity]; it never gives [NaN].
    The upper bounds of the schemas refuse [Infinity], but [timeoutMs]
    has none. *)
Inductive Number :=
| Finite (x : Num)
| Infinity (negative : bool).

Coercion Finite : Num >-> Number.

(** [x < bound] *)
Definition lessThan (x : Number) (bound : Z) : bool :=
  match x with
  | Finite n => floor n <? bound
  | Infinity negative => negative
  end.

Record FileOperation := mkOp {
  type : OpType;
  path : string;
  content : option string;
  destination : option string;
  encoding : Encoding
}.

Record BatchOptions := mkOptions {
  maxConcurrent : Num;
  timeoutMs : Number;
  stopOnError : bool;
  retryAttempts : Num;
  groupByType : bool
}.

Record BatchRequest := mkRequest {
  operations : list FileOperation;
  options : option BatchOptions
}.

Definition OpType_eqb (a b : OpType) : bool :=
  match a, b with
  | create, create | read, read | update, update
  | delete, delete | copy, copy | move, move => true
  | _, _ => false
  end.

Definition OpType_name (t : OpType) : string :=
  match t with
  | create => "create" | read => "read" | update => "update"
  | delete => "delete" | copy => "copy" | move => "move"
  end.

Definition Encoding_name (e : Encoding) : string :=
  match e with utf8 => "utf8" | base64 => "base64" end.

(* ================================================================== *)
(** ** The insertion-ordered [Map] used by the grouping policy *)

Module JsMap.
Section Ordered.
Variable V : Type.

(** A [Map<string, V>] keyed by operation type: entries in insertion
    order, keys pairwise distinct. *)
Definition t := list (OpType * V).

Fixpoint has (k : OpType) (m : t) : bool :=
  match m with
  | [] => false
  | (k', _) :: m' => if OpType_eqb k k' then true else has k m'
  end.

Fixpoint get (k : OpType) (m : t) : option V :=
  match m with
  | [] => None
  | (k', v) :: m' => if OpType_eqb k k' then Some v else get k m'
  end.

(** [set] keeps the position of an existing key and appends a new one. *)
Fixpoint set (k : OpType) (v : V) (m : t) : t :=
  match m with
  | [] => [(k, v)]
  | (k', v') :: m' =>
      if OpType_eqb k k' then (k', v) :: m' else (k', v') :: set k v m'
  end.

Definition keys (m : t) : list OpType := map fst m.
Definition values (m : t) : list V := map snd m.
End Ordered.
End JsMap.

(* ================================================================== *)
(** ** Grouping policy (lines 266-277 and 205-207) *)

(** Body of the [for (const op of operations)] loop.  [push] mutates the
    array stored under the key, which is a [set] at an existing key. *)
Definition groupStep (groups : JsMap.t (list FileOperation)) (op : FileOperation)
  : JsMap.t (list FileOperation) :=
  let groups1 :=
    if negb (JsMap.has (type op) groups)
    then JsMap.set (type op) [] groups
    else groups in
  match JsMap.get (type op) groups1 with
  | Some arr => JsMap.set (type op) (arr ++ [op]) groups1
  | None => groups1
  end.

Definition groupOperationsByType (ops : list FileOperation)
  : list (list FileOperation) :=
  JsMap.values (fold_left groupStep ops []).

(** [const grouped = opts.groupByType ? groupOperationsByType(operations)
    : [operations]] *)
Definition grouped (opts : BatchOptions) (ops : list FileOperation)
  : list (list FileOperation) :=
  if groupByType opts then groupOperationsByType ops else [ops].

(** Reference notions for the grouping claims. *)

Definition hasType (t : OpType) (op : FileOperation) : bool :=
  OpType_eqb (type op) t.

(** The distinct elements of a list, ordered by first occurrence. *)
Fixpoint firstSeen (l : list OpType) : list OpType :=
  match l with
  | [] => []
  | t :: l' => t :: filter (fun u => negb (OpType_eqb u t)) (firstSeen l')
  end.

Definition memType (t : OpType) (l : list OpType) : bool :=
  existsb (OpType_eqb t) l.

(** The groups as the claim describes them: one group per distinct type,
    in first-occurrence order, each the sub-sequence of that type. *)
Definition groupsByFirstSeen (ops : list FileOperation)
  : JsMap.t (list FileOperation) :=
  map (fun t => (t, filter (hasType t) ops)) (firstSeen (map type ops)).

(* ================================================================== *)
(** ** JavaScript values crossing the tool boundary *)

(** Values as [JSON.stringify] sees them.  An object is its list of own
    enumerable properties in insertion order; a property whose value is
    [undefined] is simply not listed. *)
Inductive Json :=
| JNull
| JBool (b : bool)
| JNum (n : Number)
| JStr (s : string)
| JArr (items : list Json)
| JObj (fields : list (string * Json)).

(** [o[k]]: [None] stands for [undefined]. *)
Fixpoint prop (k : string) (o : list (string * Json)) : option Json :=
  match o with
  | [] => None
  | (k', v) :: o' => if String.eqb k k' then Some v else prop k o'
  end.

Definition jsonProp (k : string) (j : Json) : option Json :=
  match j with JObj o => prop k o | _ => None end.

(** A thrown JavaScript value: an [Error] with its [message], or anything
    else ([throw lastError] when [lastError] is still [null]). *)
Inductive JsThrown :=
| JsError (message : string)
| JsNonError.

(** [error instanceof Error ? error.message : 'Unknown error'] *)
Definition errorText (e : JsThrown) : string :=
  match e with
  | JsError m => m
  | JsNonError => "Unknown error"
  end.

(* ================================================================== *)
(** ** Request validator: the zod schemas read as parsers *)

Inductive PathElem := Key (k : string) | Index (i : nat).

Record ZodIssue := mkIssue {
  issue_code : string;
  issue_path : list PathElem
}.

Inductive Parsed (A : Type) :=
| Valid (a : A)
| Invalid (issues : list ZodIssue).
Arguments Valid {A} a.
Arguments Invalid {A} issues.

Definition issuesOf {A} (p : Parsed A) : list ZodIssue :=
  match p with Valid _ => [] | Invalid i => i end.

(** zod reports the issues of all members of an object or array. *)
Definition pmap {A B} (f : A -> B) (p : Parsed A) : Parsed B :=
  match p with Valid a => Valid (f a) | Invalid i => Invalid i end.

Definition pap {A B} (pf : Parsed (A -> B)) (pa : Parsed A) : Parsed B :=
  match pf, pa with
  | Valid f, Valid a => Valid (f a)
  | _, _ => Invalid (issuesOf pf ++ issuesOf pa)
  end.

Definition under {A} (e : PathElem) (p : Parsed A) : Parsed A :=
  match p with
  | Valid a => Valid a
  | Invalid i =>
      Invalid (map (fun x => mkIssue (issue_code x) (e :: issue_path x)) i)
  end.

(** A schema parses the value found under a key; [None] is [undefined]. *)
Definition Schema (A : Type) := option Json -> Parsed A.

Definition invalid {A} (code : string) : Parsed A :=
  Invalid [mkIssue code []].

Definition zString : Schema string := fun v =>
  match v with
  | Some (JStr s) => Valid s
  | _ => invalid "invalid_type"
  end.

Definition zBoolean : Schema bool := fun v =>
  match v with
  | Some (JBool b) => Valid b
  | _ => invalid "invalid_type"
  end.

(** [z.number().min(lo).max(hi)]: any number within the bounds, whole or
    not; the bounds leave no infinite one.  Against an integer bound,
    [n < lo] is [floor n < lo] and [hi < n] is [hi < ceil n]. *)
Definition zNumber (lo hi : Z) : Schema Num := fun v =>
  match v with
  | Some (JNum (Finite n)) =>
      if floor n <? lo then invalid "too_small"
      else if hi <? ceil n then invalid "too_big" else Valid n
  | Some (JNum (Infinity negative)) =>
      if negative then invalid "too_small" else invalid "too_big"
  | _ => invalid "invalid_type"
  end.

(** [z.number().min(lo)]: [Infinity] passes. *)
Definition zNumberMin (lo : Z) : Schema Number := fun v =>
  match v with
  | Some (JNum n) => if lessThan n lo then invalid "too_small" else Valid n
  | _ => invalid "invalid_type"
  end.

Definition zEnum {A} (decode : string -> option A) : Schema A := fun v =>
  match v with
  | Some (JStr s) =>
      match decode s with
      | Some a => Valid a
      | None => invalid "invalid_enum_value"
      end
  | _ => invalid "invalid_type"
  end.

Definition zOptional {A} (s : Schema A) : Schema (option A) := fun v =>
  match v with
  | None => Valid None
  | Some _ => pmap Some (s v)
  end.

(** [.optional().default(d)] *)
Definition zDefault {A} (s : Schema A) (d : A) : Schema A := fun v =>
  match v with
  | None => Valid d
  | Some _ => s v
  end.

Definition zArray {A} (s : Schema A) : Schema (list A) := fun v =>
  match v with
  | Some (JArr items) =>
      (fix go (i : nat) (l : list Json) : Parsed (list A) :=
         match l with
         | [] => Valid []
         | x :: l' => pap (pmap cons (under (Index i) (s (Some x)))) (go (S i) l')
         end) 0%nat items
  | _ => invalid "invalid_type"
  end.

(** Member [k] of an object schema. *)
Definition member {A} (k : string) (s : Schema A) (o : list (string * Json))
  : Parsed A :=
  under (Key k) (s (prop k o)).

Definition OpType_decode (s : string) : option OpType :=
  if String.eqb s "create" then Some create
  else if String.eqb s "read" then Some read
  else if String.eqb s "update" then Some update
  else if String.eqb s "delete" then Some delete
  else if String.eqb s "copy" then Some copy
  else if String.eqb s "move" then Some move
  else None.

Definition Encoding_decode (s : string) : option Encoding :=
  if String.eqb s "utf8" then Some utf8
  else if String.eqb s "base64" then Some base64
  else None.

Definition FileOperationSchema : Schema FileOperation := fun v =>
  match v with
  | Some (JObj o) =>
      pap (pap (pap (pap (pmap mkOp
        (member "type" (zEnum OpType_decode) o))
        (member "path" zString o))
        (member "content" (zOptional zString) o))
        (member "destination" (zOptional zString) o))
        (member "encoding" (zDefault (zEnum Encoding_decode) utf8) o)
  | _ => invalid "invalid_type"
  end.

Definition BatchOptionsSchema : Schema BatchOptions := fun v =>
  match v with
  | Some (JObj o) =>
      pap (pap (pap (pap (pmap mkOptions
        (member "maxConcurrent" (zDefault (zNumber 1 100) 10) o))
        (member "timeoutMs" (zDefault (zNumberMin 1000) 30000) o))
        (member "stopOnError" (zDefault zBoolean false) o))
        (member "retryAttempts" (zDefault (zNumber 0 3) 1) o))
        (member "groupByType" (zDefault zBoolean true) o)
  | _ => invalid "invalid_type"
  end.

Definition BatchRequestSchema : Schema BatchRequest := fun v =>
  match v with
  | Some (JObj o) =>
      pap (pmap mkRequest
        (member "operations" (zArray FileOperationSchema) o))
        (member "options" (zOptional BatchOptionsSchema) o)
  | _ => invalid "invalid_type"
  end.

(** [BatchOptionsSchema.parse({})]: every member takes its default. *)
Definition defaultOptions : BatchOptions := mkOptions 10 30000 false 1 true.

(** [{ ...BatchOptionsSchema.parse({}), ...options }]: a parsed [options]
    object owns all five members, so each of them overrides the default;
    a missing [options] is replaced by [{}] and overrides nothing. *)
Definition resolveOptions (request : BatchRequest) : BatchOptions :=
  match options request with
  | Some o =>
      mkOptions (maxConcurrent o) (timeoutMs o) (stopOnError o)
                (retryAttempts o) (groupByType o)
  | None => defaultOptions
  end.

(** The ranges the schema enforces. *)
Definition validOptions (o : BatchOptions) : Prop :=
  1 <= floor (maxConcurrent o) /\ ceil (maxConcurrent o) <= 100
  /\ lessThan (timeoutMs o) 1000 = false
  /\ 0 <= floor (retryAttempts o) /\ ceil (retryAttempts o) <= 3.

(* ================================================================== *)
(** ** The environment of the engine *)

(** The [fs/promises] and [path] calls of the executor, the clock and the
    timer, as transitions of an abstract world.  A call either fulfils
    ([inl]) or rejects ([inr]). *)
Class Fs (World : Type) := {
  mkdir : string -> World -> World * (unit + JsThrown);
  writeFile : string -> string -> Encoding -> World -> World * (unit + JsThrown);
  readFile : string -> Encoding -> World -> World * (string + JsThrown);
  appendFile : string -> string -> Encoding -> World -> World * (unit + JsThrown);
  unlink : string -> World -> World * (unit + JsThrown);
  copyFile : string -> string -> World -> World * (unit + JsThrown);
  rename : string -> string -> World -> World * (unit + JsThrown);
  dirname : string -> string;
  isoNow : World -> string;
  sleep : Z -> World -> World
}.

(** [{ content: [{ type: 'text', text }] }] *)
Inductive ToolResult := TextContent (text : string).

(** What the batch engine leaves to its libraries and to the two
    handlers that are not part of it: [JSON.stringify(_, null, 2)], the
    message of a [ZodError], and the code-analysis and transform
    handlers as the dispatch of tool calls sees them. *)
Class Host := {
  stringify : Json -> string;
  zodMessage : list ZodIssue -> string;
  otherTool : string -> option Json -> ToolResult + JsThrown
}.

(** Computations of one attempt: they thread the world and may throw. *)
Definition Io (World A : Type) : Type := World -> World * (A + JsThrown).

Definition ret {World A} (a : A) : Io World A := fun w => (w, inl a).

Definition throw {World A} (e : JsThrown) : Io World A := fun w => (w, inr e).

Definition bind {World A B} (m : Io World A) (k : A -> Io World B)
  : Io World B :=
  fun w =>
    match m w with
    | (w1, inl a) => k a w1
    | (w1, inr e) => (w1, inr e)
    end.

Notation "x <- m ;; k" := (bind m (fun x => k))
  (at level 61, m at next level, right associativity).
Notation "m ;;; k" := (bind m (fun _ => k))
  (at level 61, right associativity).

(* ================================================================== *)
(** ** Operation executor (lines 279-335) *)

(** What [executeFileOperation] returns: the completion record, or for
    [read] the operation augmented with the content read. *)
Inductive ExecResult :=
| Completed (ty : OpType) (p : string) (timestamp : string) (attempt : Z)
| ReadResult (operation : FileOperation) (c : string).

(** Observable events of a run. *)
Inductive Event :=
| EvStart (operation : FileOperation)
| EvAttempt (operation : FileOperation) (attempt : Z)
| EvWait (ms : Z).

(** [operation.content || ''] *)
Definition orEmpty (c : option string) : string :=
  match c with
  | Some s => s
  | None => EmptyString
  end.

(** Truthiness of [operation.destination]: absent and empty are falsy. *)
Definition truthy (d : option string) : option string :=
  match d with
  | Some EmptyString => None
  | Some s => Some s
  | None => None
  end.

(** The error of a [copy] or [move] without a usable destination. *)
Definition needsDestination (operation : FileOperation) : bool :=
  match type operation with
  | copy | move => true
  | _ => false
  end.

Definition destinationRequired (ty : OpType) : string :=
  ("Destination required for " ++ OpType_name ty)%string.

Section Executor.
Context {World : Type} {fs : Fs World}.

Definition completion (operation : FileOperation) (attempt : Z)
  : Io World ExecResult :=
  fun w =>
    (w, inl (Completed (type operation) (path operation) (isoNow w)
                       (attempt + 1))).

(** The [try] block: the [switch] and the [return] after it. *)
Definition tryBody (operation : FileOperation) (attempt : Z)
  : Io World ExecResult :=
  match type operation with
  | create =>
      mkdir (dirname (path operation)) ;;;
      writeFile (path operation) (orEmpty (content operation))
                (encoding operation) ;;;
      completion operation attempt
  | read =>
      c <- readFile (path operation) (encoding operation) ;;
      ret (ReadResult operation c)
  | update =>
      appendFile (path operation) (orEmpty (content operation))
                 (encoding operation) ;;;
      completion operation attempt
  | delete =>
      unlink (path operation) ;;;
      completion operation attempt
  | copy =>
      match truthy (destination operation) with
      | None => throw (JsError "Destination required for copy")
      | Some dest =>
          mkdir (dirname dest) ;;;
          copyFile (path operation) dest ;;;
          completion operation attempt
      end
  | move =>
      match truthy (destination operation) with
      | None => throw (JsError "Destination required for move")
      | Some dest =>
          mkdir (dirname dest) ;;;
          rename (path operation) dest ;;;
          completion operation attempt
      end
  end.

(** Where a task stands after one pass through the loop. *)
Inductive TaskNext :=
| Continue (attempt : Z) (lastError : option JsThrown)
| Settled (outcome : ExecResult + JsThrown).

(** [throw lastError] *)
Definition thrownOf (lastError : option JsThrown) : JsThrown :=
  match lastError with
  | Some e => e
  | None => JsNonError
  end.

(** One pass from the head of [for (attempt = 0; attempt <= maxRetries;
    attempt++)]: the exit test, the [try] block, the [catch] block with
    its backoff wait, and the increment.  [attempt] is an integer, so
    [attempt <= maxRetries] is [attempt <= floor maxRetries] and
    [attempt < maxRetries] is [attempt < ceil maxRetries]. *)
Definition loopIter (operation : FileOperation) (maxRetries : Num)
    (attempt : Z) (lastError : option JsThrown) (w : World)
  : World * list Event * TaskNext :=
  if attempt <=? floor maxRetries then
    match tryBody operation attempt w with
    | (w1, inl r) => (w1, [EvAttempt operation attempt], Settled (inl r))
    | (w1, inr e) =>
        if attempt <? ceil maxRetries
        then (sleep (1000 * (attempt + 1)) w1,
              [EvAttempt operation attempt; EvWait (1000 * (attempt + 1))],
              Continue (attempt + 1) (Some e))
        else (w1, [EvAttempt operation attempt],
              Continue (attempt + 1) (Some e))
    end
  else (w, [], Settled (inr (thrownOf lastError))).

(** The loop, run to its end when nothing else is interleaved. *)
Fixpoint retryLoop (fuel : nat) (operation : FileOperation)
    (maxRetries : Num) (attempt : Z) (lastError : option JsThrown) (w : World)
    (trace : list Event)
  : option (World * list Event * (ExecResult + JsThrown)) :=
  match fuel with
  | O => None
  | S fuel' =>
      match loopIter operation maxRetries attempt lastError w with
      | (w1, evs, Settled outcome) => Some (w1, trace ++ evs, outcome)
      | (w1, evs, Continue attempt1 lastError1) =>
          retryLoop fuel' operation maxRetries attempt1 lastError1 w1
                    (trace ++ evs)
      end
  end.

(** Passes needed by the loop: one per attempt and the failing exit
    test. *)
Definition loopFuel (maxRetries : Num) : nat :=
  Z.to_nat (floor maxRetries + 1) + 1.

Definition executeFileOperation (operation : FileOperation)
    (opts : BatchOptions) (w : World)
  : option (World * list Event * (ExecResult + JsThrown)) :=
  retryLoop (loopFuel (retryAttempts opts)) operation (retryAttempts opts)
            0 None w [].

(** What the claims call failing [k] times: the attempts [attempt], ...,
    [attempt + k - 1] of the [try] block all throw, each followed by the
    wait of line 329 where line 328 grants one.  The result is the world
    in which the next attempt would be made and the error of the last
    attempt. *)
Fixpoint failing (k : nat) (operation : FileOperation) (maxRetries : Num)
    (attempt : Z) (lastError : option JsThrown) (w : World)
  : option (World * option JsThrown) :=
  match k with
  | O => Some (w, lastError)
  | S k' =>
      match tryBody operation attempt w with
      | (w1, inr e) =>
          failing k' operation maxRetries (attempt + 1) (Some e)
                  (if attempt <? ceil maxRetries
                   then sleep (1000 * (attempt + 1)) w1 else w1)
      | (_, inl _) => None
      end
  end.

(** Number of passes through the [try] block in a trace. *)
Definition attemptsIn (trace : list Event) : nat :=
  List.length (filter (fun e => match e with EvAttempt _ _ => true | _ => false end)
                 trace).

(** The [attempt] member of a returned value, when it has one. *)
Definition attemptOf (r : ExecResult) : option Z :=
  match r with
  | Completed _ _ _ a => Some a
  | ReadResult _ _ => None
  end.
End Executor.

(* ================================================================== *)
(** ** Outcome records and the summary (lines 210-252) *)

(** [{ operation: op, result, status: 'success' }] *)
Record SuccessRecord := mkSuccess {
  sr_operation : FileOperation;
  sr_result : ExecResult;
  sr_status : string
}.

(** [{ operation: op, error: message, status: 'failed' }] *)
Record ErrorInfo := mkErrorInfo {
  ei_operation : FileOperation;
  ei_error : string;
  ei_status : string
}.

Record BatchSummary := mkSummary {
  total : Z;
  successful : Z;
  failed : Z;
  results : list SuccessRecord;
  errors : list ErrorInfo
}.

(** The values as [JSON.stringify] walks them. *)

Definition optProp (k : string) (v : option string) : list (string * Json) :=
  match v with
  | Some s => [(k, JStr s)]
  | None => []
  end.

Definition operationProps (op : FileOperation) : list (string * Json) :=
  [("type", JStr (OpType_name (type op))); ("path", JStr (path op))]
  ++ optProp "content" (content op)
  ++ optProp "destination" (destination op)
  ++ [("encoding", JStr (Encoding_name (encoding op)))].

Definition jsonOfOperation (op : FileOperation) : Json :=
  JObj (operationProps op).

(** Assignment to a property: in place when the object owns it. *)
Fixpoint setProp (k : string) (v : Json) (o : list (string * Json))
  : list (string * Json) :=
  match o with
  | [] => [(k, v)]
  | (k', v') :: o' =>
      if String.eqb k k' then (k', v) :: o' else (k', v') :: setProp k v o'
  end.

Definition jsonOfExecResult (r : ExecResult) : Json :=
  match r with
  | Completed ty p timestamp attempt =>
      JObj [("type", JStr (OpType_name ty)); ("path", JStr p);
            ("timestamp", JStr timestamp); ("success", JBool true);
            ("attempt", JNum attempt)]
  | ReadResult op c =>
      (* { ...operation, content } *)
      JObj (setProp "content" (JStr c) (operationProps op))
  end.

Definition jsonOfSuccess (r : SuccessRecord) : Json :=
  JObj [("operation", jsonOfOperation (sr_operation r));
        ("result", jsonOfExecResult (sr_result r));
        ("status", JStr (sr_status r))].

Definition jsonOfErrorInfo (e : ErrorInfo) : Json :=
  JObj [("operation", jsonOfOperation (ei_operation e));
        ("error", JStr (ei_error e));
        ("status", JStr (ei_status e))].

Definition jsonOfSummary (s : BatchSummary) : Json :=
  JObj [("total", JNum (total s));
        ("successful", JNum (successful s));
        ("failed", JNum (failed s));
        ("results", JArr (map jsonOfSuccess (results s)));
        ("errors", JArr (map jsonOfErrorInfo (errors s)))].

(* ================================================================== *)
(** ** Batch coordinator (lines 197-264) *)

(** A call of [executeFileOperation] in progress: its loop variables. *)
Record Task := mkTask {
  task_op : FileOperation;
  task_attempt : Z;
  task_lastError : option JsThrown
}.

(** Where [handleBatchFileOperations] stands: suspended at
    [await Promise.all(promises)], resumed by a rejection and about to run
    the [catch] block, or returned. *)
Inductive Phase :=
| Awaiting
| Rejected
| Done (summary : BatchSummary).

Definition removeAt {A} (i : nat) (l : list A) : list A :=
  firstn i l ++ skipn (S i) l.

Definition replaceAt {A} (i : nat) (x : A) (l : list A) : list A :=
  firstn i l ++ x :: skipn (S i) l.

(** What the scheduler may do next: let the limiter start the task at the
    head of its queue, let the [i]-th running task make one pass through
    its loop, or resume the coordinator. *)
Inductive Choice :=
| Dequeue
| Advance (i : nat)
| Resume.

Section Coordinator.
Context {World : Type} {fs : Fs World}.

(** The run in flight.  [st_remaining] are the groups the [for ... of]
    loop has not reached; [st_queue] and [st_active] are the limiter's
    waiting and running functions; [st_results] and [st_errors] are the
    two arrays; [st_log] records what was executed. *)
Record Coord := mkCoord {
  st_world : World;
  st_remaining : list (list FileOperation);
  st_queue : list FileOperation;
  st_active : list Task;
  st_results : list SuccessRecord;
  st_errors : list ErrorInfo;
  st_phase : Phase;
  st_log : list Event
}.

Variable operations0 : list FileOperation.
Variable opts : BatchOptions.

(** [const summary = { total: operations.length, ... }] *)
Definition summarize (st : Coord) : BatchSummary :=
  mkSummary (Z.of_nat (List.length operations0))
            (Z.of_nat (List.length (st_results st)))
            (Z.of_nat (List.length (st_errors st)))
            (st_results st) (st_errors st).

(** The head of the [for (const group of grouped)] loop: leave the loop
    and build the summary, or submit every operation of the next group
    to the limiter and suspend at [await Promise.all(promises)]. *)
Definition enterLoop (st : Coord) : Coord :=
  match st_remaining st with
  | [] =>
      mkCoord (st_world st) [] (st_queue st) (st_active st)
              (st_results st) (st_errors st) (Done (summarize st))
              (st_log st)
  | group :: rest =>
      mkCoord (st_world st) rest (st_queue st ++ group) (st_active st)
              (st_results st) (st_errors st) Awaiting (st_log st)
  end.

(** [break]: the summary is built with the groups left unreached. *)
Definition breakLoop (st : Coord) : Coord :=
  mkCoord (st_world st) (st_remaining st) (st_queue st) (st_active st)
          (st_results st) (st_errors st) (Done (summarize st))
          (st_log st).

(** The limiter starts the function at the head of its queue when
    [activeCount < concurrency]. *)
Definition dequeue (st : Coord) : option Coord :=
  match st_queue st with
  | op :: q =>
      if Z.of_nat (List.length (st_active st)) <? ceil (maxConcurrent opts)
      then Some (mkCoord (st_world st) (st_remaining st) q
                         (st_active st ++ [mkTask op 0 None])
                         (st_results st) (st_errors st) (st_phase st)
                         (st_log st ++ [EvStart op]))
      else None
  | [] => None
  end.

(** The rejection of a limited function reaches [Promise.all] only while
    the coordinator awaits it. *)
Definition rejectAll (ph : Phase) : Phase :=
  match ph with
  | Awaiting => Rejected
  | _ => ph
  end.

(** The [i]-th running task [t] makes one pass through the retry loop;
    when the executor settles, the wrapper of lines 215-234 pushes the
    outcome and the limiter's slot is freed. *)
Definition advance (i : nat) (t : Task) (st : Coord) : Coord :=
  match loopIter (task_op t) (retryAttempts opts) (task_attempt t)
                 (task_lastError t) (st_world st) with
  | (w1, evs, Continue attempt1 lastError1) =>
      mkCoord w1 (st_remaining st) (st_queue st)
              (replaceAt i (mkTask (task_op t) attempt1 lastError1)
                         (st_active st))
              (st_results st) (st_errors st) (st_phase st)
              (st_log st ++ evs)
  | (w1, evs, Settled (inl result)) =>
      mkCoord w1 (st_remaining st) (st_queue st)
              (removeAt i (st_active st))
              (st_results st ++ [mkSuccess (task_op t) result "success"])
              (st_errors st) (st_phase st) (st_log st ++ evs)
  | (w1, evs, Settled (inr error)) =>
      mkCoord w1 (st_remaining st) (st_queue st)
              (removeAt i (st_active st))
              (st_results st)
              (st_errors st
                 ++ [mkErrorInfo (task_op t) (errorText error) "failed"])
              (if stopOnError opts then rejectAll (st_phase st)
               else st_phase st)
              (st_log st ++ evs)
  end.

(** The coordinator resumes: after [Promise.all] fulfilled (every
    function of the group has settled) it goes round the loop; after a
    rejection it runs the [catch] block. *)
Definition resume (st : Coord) : option Coord :=
  match st_phase st with
  | Awaiting =>
      match st_queue st, st_active st with
      | [], [] => Some (enterLoop st)
      | _, _ => None
      end
  | Rejected =>
      Some (if stopOnError opts then breakLoop st else enterLoop st)
  | Done _ => None
  end.

Definition step (c : Choice) (st : Coord) : option Coord :=
  match c with
  | Dequeue => dequeue st
  | Advance i =>
      match nth_error (st_active st) i with
      | Some t => Some (advance i t st)
      | None => None
      end
  | Resume => resume st
  end.

Fixpoint run (sched : list Choice) (st : Coord) : option Coord :=
  match sched with
  | [] => Some st
  | c :: sched' =>
      match step c st with
      | Some st1 => run sched' st1
      | None => None
      end
  end.

(** The call up to its first suspension. *)
Definition start (w : World) : Coord :=
  enterLoop (mkCoord w (grouped opts operations0) [] [] [] [] Awaiting []).

(** A first-come-first-served scheduler: start whatever the limiter
    admits, otherwise let the oldest running task proceed, otherwise
    resume the coordinator; nothing is scheduled after the return. *)
Definition pick (st : Coord) : option Choice :=
  match st_phase st with
  | Done _ => None
  | Rejected => Some Resume
  | Awaiting =>
      match st_queue st, st_active st with
      | [], [] => Some Resume
      | [], _ :: _ => Some (Advance 0)
      | _ :: _, _ =>
          if Z.of_nat (List.length (st_active st)) <? ceil (maxConcurrent opts)
          then Some Dequeue else Some (Advance 0)
      end
  end.

Fixpoint fifo (fuel : nat) (st : Coord) : list Choice :=
  match fuel with
  | O => []
  | S fuel' =>
      match pick st with
      | Some c =>
          match step c st with
          | Some st1 => c :: fifo fuel' st1
          | None => []
          end
      | None => []
      end
  end.

(** An upper bound on the steps left in any schedule. *)
Definition taskWeight (attempt : Z) : nat :=
  Z.to_nat (floor (retryAttempts opts) + 1 - attempt) + 1.

Definition opWeight : nat := taskWeight 0 + 1.

Definition phaseWeight (ph : Phase) : nat :=
  match ph with
  | Done _ => 0
  | _ => 1
  end.

Definition measure (st : Coord) : nat :=
  (phaseWeight (st_phase st)
   + list_sum (map (fun g => 1 + List.length g * opWeight) (st_remaining st))
   + List.length (st_queue st) * opWeight
   + list_sum (map (fun t => taskWeight (task_attempt t)) (st_active st)))%nat.

(** Operations whose execution was started. *)
Definition started (st : Coord) : list FileOperation :=
  flat_map (fun e => match e with EvStart op => [op] | _ => [] end)
           (st_log st).


(** Invariants of a run. *)

(** Every operation started is running or has its outcome recorded. *)
Definition accounted (st : Coord) : Prop :=
  (List.length (st_results st) + List.length (st_errors st)
   + List.length (st_active st))%nat
  = List.length (started st).

(** The groups are those submitted so far followed by those not reached;
    the operations of the groups submitted went to the limiter in order. *)
Definition positioned (st : Coord) : Prop :=
  exists submitted,
    grouped opts operations0 = submitted ++ st_remaining st
    /\ started st ++ st_queue st = List.concat submitted.

(** A summary counts the two arrays as they were when it was built. *)
Definition reported (st : Coord) : Prop :=
  forall s, st_phase st = Done s ->
    total s = Z.of_nat (List.length operations0)
    /\ successful s = Z.of_nat (List.length (results s))
    /\ failed s = Z.of_nat (List.length (errors s))
    /\ (exists later, st_results st = results s ++ later)
    /\ (exists later, st_errors st = errors s ++ later).

(** Without [stopOnError] the coordinator is never rejected, and it
    returns only when everything has been submitted and has settled. *)
Definition drained (st : Coord) : Prop :=
  st_phase st <> Rejected
  /\ forall s, st_phase st = Done s ->
       st_queue st = [] /\ st_active st = [] /\ st_remaining st = []
       /\ results s = st_results st /\ errors s = st_errors st.

(** With [stopOnError] the coordinator keeps awaiting only while no
    failure has been recorded. *)
Definition unfailed (st : Coord) : Prop :=
  st_phase st = Awaiting -> st_errors st = [].


(** [operation] throws [e] whenever it is tried. *)
Definition alwaysThrows (operation : FileOperation) (e : JsThrown) : Prop :=
  forall a (w : World), exists w1, tryBody operation a w = (w1, inr e).

(** Such an operation is never recorded as a success, and its failure
    record carries that error. *)
Definition condemned (operation : FileOperation) (e : JsThrown)
    (st : Coord) : Prop :=
  (forall t, In t (st_active st) -> task_op t = operation ->
     task_attempt t = 0 \/ task_lastError t = Some e)
  /\ (forall r, In r (st_results st) -> sr_operation r <> operation)
  /\ (forall i, In i (st_errors st) -> ei_operation i = operation ->
        ei_error i = errorText e /\ ei_status i = "failed").

(** Nothing has happened and nothing is left to do. *)
Definition idle (w : World) (st : Coord) : Prop :=
  st_world st = w /\ st_queue st = [] /\ st_active st = []
  /\ st_results st = [] /\ st_errors st = [] /\ st_log st = []
  /\ Forall (fun g => g = []) (st_remaining st).

(** Whatever runs or was tried had been started by the limiter. *)
Definition grounded (st : Coord) : Prop :=
  (forall t, In t (st_active st) -> In (task_op t) (started st))
  /\ (forall op a, In (EvAttempt op a) (st_log st) -> In op (started st)).

(** The limiter never runs more functions than its capacity. *)
Definition bounded (st : Coord) : Prop :=
  st_active st = []
  \/ Z.of_nat (List.length (st_active st)) <= ceil (maxConcurrent opts).
End Coordinator.

(* ================================================================== *)
(** ** The limiter's constructor *)

Definition concurrencyError : JsThrown :=
  JsError "Expected `concurrency` to be a number from 1 and up".

(** [pLimit(concurrency)] throws a [TypeError] unless [concurrency] is an
    integer from 1 up; the limiter it returns holds that integer. *)
Definition pLimit (concurrency : Num) : Z + JsThrown :=
  match concurrency with
  | Int n => if 1 <=? n then inl n else inr concurrencyError
  | Frac _ _ => inr concurrencyError
  end.

(* ================================================================== *)
(** ** The tool boundary (lines 169-194) *)

Section Boundary.
Context {World : Type} {fs : Fs World} {host : Host}.

(** The summary of a validated request under a schedule: [None] while
    the call has not returned. *)
Definition batchSummary (request : BatchRequest) (sched : list Choice)
    (w : World) : option BatchSummary :=
  let opts := resolveOptions request in
  match run (operations request) opts sched
            (start (operations request) opts w) with
  | Some st =>
      match st_phase st with
      | Done summary => Some summary
      | _ => None
      end
  | None => None
  end.

(** [handleBatchFileOperations(args)] under a schedule: [None] while the
    call has not returned, [inr] when it throws.  The limiter is made
    (line 209) before the loop over the groups is entered. *)
Definition handleBatchFileOperations (args : option Json)
    (sched : list Choice) (w : World) : option (ToolResult + JsThrown) :=
  match BatchRequestSchema args with
  | Invalid issues => Some (inr (JsError (zodMessage issues)))
  | Valid request =>
      match pLimit (maxConcurrent (resolveOptions request)) with
      | inr error => Some (inr error)
      | inl _ =>
          match batchSummary request sched w with
          | Some summary =>
              Some (inl (TextContent (stringify (jsonOfSummary summary))))
          | None => None
          end
      end
  end.

(** The [catch] of the call-tool handler. *)
Definition toolBoundary (r : ToolResult + JsThrown) : ToolResult :=
  match r with
  | inl response => response
  | inr error => TextContent ("Error: " ++ errorText error)%string
  end.

Definition callTool (name : string) (args : option Json)
    (sched : list Choice) (w : World) : option ToolResult :=
  if String.eqb name "batch_file_operations" then
    option_map toolBoundary (handleBatchFileOperations args sched w)
  else if String.eqb name "batch_code_analysis"
          || String.eqb name "batch_transform" then
    Some (toolBoundary (otherTool name args))
  else
    Some (toolBoundary (inr (JsError ("Unknown tool: " ++ name)%string))).
End Boundary.

(* ================================================================== *)
(** ** A small environment to run the model on *)

Module Mem.
(** An in-memory file system: the files and their contents. *)
Definition World := list (string * string).

Fixpoint lookup (p : string) (w : World) : option string :=
  match w with
  | [] => None
  | (p', c) :: w' => if String.eqb p p' then Some c else lookup p w'
  end.

Fixpoint remove (p : string) (w : World) : World :=
  match w with
  | [] => []
  | (p', c) :: w' =>
      if String.eqb p p' then remove p w' else (p', c) :: remove p w'
  end.

Definition store (p c : string) (w : World) : World :=
  remove p w ++ [(p, c)].

Definition enoent (p : string) : JsThrown :=
  JsError ("ENOENT: no such file or directory, " ++ p)%string.

#[global] Instance fs : Fs World := {|
  mkdir := fun _ w => (w, inl tt);
  writeFile := fun p c _ w => (store p c w, inl tt);
  readFile := fun p _ w =>
    match lookup p w with
    | Some c => (w, inl c)
    | None => (w, inr (enoent p))
    end;
  appendFile := fun p c _ w =>
    match lookup p w with
    | Some old => (store p (old ++ c)%string w, inl tt)
    | None => (store p c w, inl tt)
    end;
  unlink := fun p w =>
    match lookup p w with
    | Some _ => (remove p w, inl tt)
    | None => (w, inr (enoent p))
    end;
  copyFile := fun p d w =>
    match lookup p w with
    | Some c => (store d c w, inl tt)
    | None => (w, inr (enoent p))
    end;
  rename := fun p d w =>
    match lookup p w with
    | Some c => (store d c (remove p w), inl tt)
    | None => (w, inr (enoent p))
    end;
  dirname := fun p => p;
  isoNow := fun _ => "2024-01-01T00:00:00.000Z";
  sleep := fun _ w => w
|}.

Definition quote (s : string) : string :=
  (String (ascii_of_nat 34) s ++ String (ascii_of_nat 34) EmptyString)%string.

Definition digits (n : Z) : string :=
  NilZero.string_of_int (Z.to_int n).

(** The fraction that [part] spells, as a numerator and a power of two. *)
Fixpoint fraction (part : positive) : Z * Z :=
  match part with
  | xH => (1, 2)
  | xO p => let (n, d) := fraction p in (n, 2 * d)
  | xI p => let (n, d) := fraction p in (n + d, 2 * d)
  end.

(** The decimal digits of [num / den], at most [k] of them. *)
Fixpoint decimals (k : nat) (num den : Z) : string :=
  match k with
  | O => EmptyString
  | S k' =>
      if num =? 0 then EmptyString
      else String (ascii_of_nat (48 + Z.to_nat (10 * num / den)))
                  (decimals k' ((10 * num) mod den) den)
  end.

(** A number in decimal, the fraction written out in full. *)
Definition number (x : Num) : string :=
  match x with
  | Int n => digits n
  | Frac below part =>
      let (n, d) := fraction part in
      if 0 <=? below
      then (digits below ++ "." ++ decimals (Pos.size_nat part) n d)%string
      else ("-" ++ digits (- below - 1) ++ "."
            ++ decimals (Pos.size_nat part) (d - n) d)%string
  end.

(** A compact printer standing for [JSON.stringify]. *)
Fixpoint print (j : Json) : string :=
  match j with
  | JNull => "null"
  | JBool true => "true"
  | JBool false => "false"
  | JNum (Finite n) => number n
  | JNum (Infinity _) => "null"
  | JStr s => quote s
  | JArr items =>
      ("[" ++ (fix go (l : list Json) : string :=
                 match l with
                 | [] => EmptyString
                 | x :: l' =>
                     print x ++ match l' with [] => EmptyString | _ => "," end
                     ++ go l'
                 end) items ++ "]")%string
  | JObj fields =>
      ("{" ++ (fix go (l : list (string * Json)) : string :=
                 match l with
                 | [] => EmptyString
                 | (k, x) :: l' =>
                     quote k ++ ":" ++ print x
                     ++ match l' with [] => EmptyString | _ => "," end
                     ++ go l'
                 end) fields ++ "}")%string
  end.

#[global] Instance host : Host := {|
  stringify := print;
  zodMessage := fun issues =>
    String.concat "; " (map issue_code issues);
  otherTool := fun _ _ => inl (TextContent "{}")
|}.

Definition op (ty : OpType) (p : string) : FileOperation :=
  mkOp ty p None None utf8.

Definition withContent (c : string) (o : FileOperation) : FileOperation :=
  mkOp (type o) (path o) (Some c) (destination o) (encoding o).

(** The scenario of a create that succeeds and a delete of a file that
    does not exist. *)
Definition createA : FileOperation :=
  withContent "hi" (op create "/tmp/a.txt").

Definition deleteMissing : FileOperation := op delete "/tmp/missing.txt".

Definition deleteOther : FileOperation := op delete "/tmp/other.txt".

(** The defaults with [stopOnError] set. *)
Definition stopping : BatchOptions := mkOptions 10 30000 true 1 true.

(** No retry, no grouping, [stopOnError] set. *)
Definition stoppingFlat : BatchOptions := mkOptions 10 30000 true 0 false.

(** The same with one operation at a time. *)
Definition stoppingSerial : BatchOptions := mkOptions 1 30000 true 0 false.
End Mem.
Module Flaky.
(** A file system whose next [n] calls fail and whose later calls
    succeed on empty files. *)
Definition World := nat.

Definition busy : JsThrown := JsError "EBUSY: resource busy or locked".

Definition call {A} (a : A) (w : World) : World * (A + JsThrown) :=
  match w with
  | O => (O, inl a)
  | S n => (n, inr busy)
  end.

#[global] Instance fs : Fs World := {|
  mkdir := fun _ => call tt;
  writeFile := fun _ _ _ => call tt;
  readFile := fun _ _ => call EmptyString;
  appendFile := fun _ _ _ => call tt;
  unlink := fun _ => call tt;
  copyFile := fun _ _ => call tt;
  rename := fun _ _ => call tt;
  dirname := fun p => p;
  isoNow := fun _ => "2024-01-01T00:00:00.000Z";
  sleep := fun _ w => w
|}.
End Flaky.

(* ================================================================== *)
(** ** Further notions for the executor and the coordinator *)

(** The backoff waits of a trace, in order. *)
Definition waitsIn (trace : list Event) : list Z :=
  flat_map (fun e => match e with EvWait ms => [ms] | _ => [] end) trace.

(** The waits of a linear backoff after each of [n] failed attempts:
    1000, 2000, ... *)
Definition linearBackoff (n : nat) : list Z :=
  map (fun i => 1000 * Z.of_nat (S i)) (seq 0 n).

Section Budget.
Context {World : Type}.
Variable opts : BatchOptions.

(** Attempts an operation may make: [retryAttempts + 1]. *)
Definition attemptBudget : nat := Z.to_nat (floor (retryAttempts opts) + 1).

(** The attempts made so far and those the running tasks may still make
    fit in the budget of the operations started. *)
Definition budgeted (st : @Coord World) : Prop :=
  (attemptsIn (st_log st)
   + list_sum (map (fun t => Z.to_nat (floor (retryAttempts opts) + 1
                                      - task_attempt t))
                   (st_active st))
   <= List.length (started st) * attemptBudget)%nat.
End Budget.

(** The options as a caller writes them, every member given. *)
Definition jsonOfOptions (o : BatchOptions) : Json :=
  JObj [("maxConcurrent", JNum (maxConcurrent o));
        ("timeoutMs", JNum (timeoutMs o));
        ("stopOnError", JBool (stopOnError o));
        ("retryAttempts", JNum (retryAttempts o));
        ("groupByType", JBool (groupByType o))].

(** A request as a caller writes it. *)
Definition jsonOfRequest (request : BatchRequest) : Json :=
  JObj (("operations", JArr (map jsonOfOperation (operations request)))
        :: match options request with
           | Some o => [("options", jsonOfOptions o)]
           | None => []
           end).

Section Sequential.
Context {World : Type} {fs : Fs World}.
Variable opts : BatchOptions.

(** What the wrapper of lines 215-234 does with the executor's outcome. *)
Definition recordOutcome (op : FileOperation) (out : ExecResult + JsThrown)
    (results : list SuccessRecord) (errors : list ErrorInfo)
  : list SuccessRecord * list ErrorInfo :=
  match out with
  | inl res => (results ++ [mkSuccess op res "success"], errors)
  | inr e => (results, errors ++ [mkErrorInfo op (errorText e) "failed"])
  end.

(** The operations executed one after the other, each one to its end
    before the next one starts. *)
Fixpoint runSequential (l : list FileOperation) (w : World)
    (results : list SuccessRecord) (errors : list ErrorInfo)
  : World * (list SuccessRecord * list ErrorInfo) :=
  match l with
  | [] => (w, (results, errors))
  | op :: l' =>
      match executeFileOperation op opts w with
      | Some (w1, _, out) =>
          let (results1, errors1) := recordOutcome op out results errors in
          runSequential l' w1 results1 errors1
      | None => (w, (results, errors))
      end
  end.

(** Where a run ends when the task that runs, if any, goes on to its end
    and the operations waiting and those of the groups not reached follow
    one after the other. *)
Definition finish (st : Coord) : World * (list SuccessRecord * list ErrorInfo) :=
  let rest := st_queue st ++ List.concat (st_remaining st) in
  match st_active st with
  | [] => runSequential rest (st_world st) (st_results st) (st_errors st)
  | t :: _ =>
      match retryLoop (Z.to_nat (floor (retryAttempts opts) + 1
                                 - task_attempt t) + 1)
                      (task_op t) (retryAttempts opts) (task_attempt t)
                      (task_lastError t) (st_world st) [] with
      | Some (w1, _, out) =>
          let (results1, errors1) :=
            recordOutcome (task_op t) out (st_results st) (st_errors st) in
          runSequential rest w1 results1 errors1
      | None => (st_world st, (st_results st, st_errors st))
      end
  end.

(** A run with one operation at a time that is heading for [target]. *)
Definition serial (target : World * (list SuccessRecord * list ErrorInfo))
    (st : Coord) : Prop :=
  finish st = target
  /\ (List.length (st_active st) <= 1)%nat
  /\ st_phase st <> Rejected.
End Sequential.

(* ================================================================== *)
(** ** Code analysis (lines 337-399) *)

(** The strings of the analysis are read as the UTF-8 bytes of the
    JavaScript string: the search for an ASCII marker, the split at the
    line feed and the white space of [trim] are the same on these bytes
    as on the code units. *)

(** [s.includes(marker)] *)
Fixpoint includes (marker s : string) : bool :=
  String.prefix marker s
  || match s with
     | EmptyString => false
     | String _ s' => includes marker s'
     end.

Definition lineFeed : ascii := ascii_of_nat 10.

(** [content.split('\n')] *)
Fixpoint splitLines (content : string) : list string :=
  match content with
  | EmptyString => [EmptyString]
  | String c rest =>
      if Ascii.eqb c lineFeed then EmptyString :: splitLines rest
      else match splitLines rest with
           | line :: lines => String c line :: lines
           | [] => [String c EmptyString]
           end
  end.

(** The white space and line terminators that [trim] removes, by their
    UTF-8 bytes: U+0009 to U+000D and U+0020; U+00A0; U+1680, U+2000 to
    U+200A, U+2028, U+2029, U+202F, U+205F, U+3000 and U+FEFF. *)
Definition space1 (a : ascii) : bool :=
  let a := N_of_ascii a in
  ((9 <=? a) && (a <=? 13) || (a =? 32))%N.

Definition space2 (a b : ascii) : bool :=
  ((N_of_ascii a =? 194) && (N_of_ascii b =? 160))%N.

Definition space3 (a b c : ascii) : bool :=
  let a := N_of_ascii a in
  let b := N_of_ascii b in
  let c := N_of_ascii c in
  ((a =? 225) && (b =? 154) && (c =? 128)
   || (a =? 226) && (b =? 128)
      && ((128 <=? c) && (c <=? 138) || (c =? 168) || (c =? 169)
          || (c =? 175))
   || (a =? 226) && (b =? 129) && (c =? 159)
   || (a =? 227) && (b =? 128) && (c =? 128)
   || (a =? 239) && (b =? 187) && (c =? 191))%N.

(** [trimStart] on the bytes. *)
Fixpoint dropSpaces (s : list ascii) : list ascii :=
  match s with
  | a :: s1 =>
      if space1 a then dropSpaces s1
      else match s1 with
           | b :: s2 =>
               if space2 a b then dropSpaces s2
               else match s2 with
                    | c :: s3 => if space3 a b c then dropSpaces s3 else s
                    | [] => s
                    end
           | [] => s
           end
  | [] => s
  end.

(** [trimEnd] on the bytes read from the last to the first. *)
Fixpoint dropSpacesBack (s : list ascii) : list ascii :=
  match s with
  | c :: s1 =>
      if space1 c then dropSpacesBack s1
      else match s1 with
           | b :: s2 =>
               if space2 b c then dropSpacesBack s2
               else match s2 with
                    | a :: s3 =>
                        if space3 a b c then dropSpacesBack s3 else s
                    | [] => s
                    end
           | [] => s
           end
  | [] => s
  end.

(** [line.trim()] *)
Definition trim (line : string) : string :=
  string_of_list_ascii
    (rev (dropSpacesBack (rev (dropSpaces (list_ascii_of_string line))))).

Definition complexityMarkers : list string :=
  ["if"; "for"; "while"; "switch"; "catch"].

(** The two loops of lines 372-377. *)
Definition countComplexity (lines : list string) : Z :=
  fold_left
    (fun complexity line =>
       fold_left
         (fun complexity marker =>
            if includes marker line then complexity + 1 else complexity)
         complexityMarkers complexity)
    lines 1.

(** The markers a line includes. *)
Definition markersIn (line : string) : nat :=
  List.length (filter (fun marker => includes marker line) complexityMarkers).

Definition namesDependency (line : string) : bool :=
  includes "import" line || includes "require" line.

(** What [analyzeCode] resolves to. *)
Inductive Analysis :=
| Complexity (complexity lines : Z)
| Dependencies (imports : list string) (count : Z)
| Placeholder (message : string)
| AnalysisError (message : string).

Definition jsonOfAnalysis (a : Analysis) : Json :=
  match a with
  | Complexity complexity lines =>
      JObj [("complexity", JNum complexity); ("lines", JNum lines)]
  | Dependencies imports count =>
      JObj [("imports", JArr (map JStr imports)); ("count", JNum count)]
  | Placeholder message =>
      JObj [("placeholder", JBool true); ("message", JStr message)]
  | AnalysisError message =>
      JObj [("error", JBool true); ("message", JStr message)]
  end.

(** The [switch] of lines 368-392 on the lines of a file. *)
Definition analyzeLines (analysisType : string) (lines : list string)
  : Analysis :=
  if String.eqb analysisType "complexity" then
    Complexity (countComplexity lines) (Z.of_nat (List.length lines))
  else if String.eqb analysisType "dependencies" then
    let imports := map trim (filter namesDependency lines) in
    Dependencies imports (Z.of_nat (List.length imports))
  else
    Placeholder ("Analysis type " ++ analysisType
                 ++ " not yet implemented")%string.

(** [analyzeCode(file, analysisType, options)]: whatever the [try] block
    throws is caught and returned. *)
Definition analyzeCode {World : Type} {fs : Fs World}
    (file analysisType : string) (w : World) : World * Analysis :=
  match readFile file utf8 w with
  | (w1, inl content) => (w1, analyzeLines analysisType (splitLines content))
  | (w1, inr error) => (w1, AnalysisError (errorText error))
  end.

(** The concurrency of a limiter. *)
Inductive Limit :=
| AtMost (n : Z)
| Unlimited.

(** [activeCount < concurrency] *)
Definition room (limit : Limit) (activeCount : nat) : bool :=
  match limit with
  | AtMost n => Z.of_nat activeCount <? n
  | Unlimited => true
  end.

(** [activeCount <= concurrency] *)
Definition within (limit : Limit) (activeCount : nat) : Prop :=
  match limit with
  | AtMost n => Z.of_nat activeCount <= n
  | Unlimited => True
  end.

(** What the analysis handler leaves to the JavaScript engine and to
    Node, whose texts the source does not fix: the message of the
    [TypeError] thrown for an expression that cannot be evaluated, given
    the value found there; what [readFile] makes of a path that is not a
    string, a path of its own or an error; and the text of a value in a
    template literal. *)
Class Engine := {
  typeErrorMessage : string -> option Json -> string;
  pathOf : Json -> string + JsThrown;
  toText : Json -> string
}.

Section AnyValue.
Context {World : Type} {fs : Fs World} {engine : Engine}.

(** The path that [readFile] is called with. *)
Definition pathArgument (file : Json) : string + JsThrown :=
  match file with
  | JStr path => inl path
  | _ => pathOf file
  end.

(** [analyzeCode] on the values the handler passes, which nothing has
    validated: [readFile] rejects what is not a path, inside the [try]
    block; a type that is not a string matches no [case]. *)
Definition analyzeAny (file analysisType : Json) (w : World)
  : World * Analysis :=
  match pathArgument file with
  | inl path =>
      match analysisType with
      | JStr name => analyzeCode path name w
      | _ =>
          match readFile path utf8 w with
          | (w1, inl _) =>
              (w1, Placeholder ("Analysis type " ++ toText analysisType
                                ++ " not yet implemented")%string)
          | (w1, inr error) => (w1, AnalysisError (errorText error))
          end
      end
  | inr error => (w, AnalysisError (errorText error))
  end.

(** [const { files, analyses, options = {} } = args]: [undefined] and
    [null] cannot be destructured; any other value gives the members it
    owns, and [options] takes its default only when absent. *)
Definition analysisArguments (args : option Json)
  : (option Json * option Json * Json) + JsThrown :=
  match args with
  | None | Some JNull => inr (JsError (typeErrorMessage "args" args))
  | Some v =>
      inl (jsonProp "files" v, jsonProp "analyses" v,
           match jsonProp "options" v with
           | Some options => options
           | None => JObj []
           end)
  end.

(** The values that count as false in [||]. *)
Definition falsy (v : Json) : bool :=
  match v with
  | JNull => true
  | JBool b => negb b
  | JNum (Finite (Int 0)) => true
  | JStr EmptyString => true
  | _ => false
  end.

(** [options.maxConcurrent || 5]: [null] has no members to read. *)
Definition concurrencyOf (options : Json) : Json + JsThrown :=
  match options with
  | JNull =>
      inr (JsError (typeErrorMessage "options.maxConcurrent" (Some JNull)))
  | _ =>
      match jsonProp "maxConcurrent" options with
      | Some v => inl (if falsy v then JNum 5 else v)
      | None => inl (JNum 5)
      end
  end.

(** [pLimit(value)] for a value that nothing has validated: an integer
    from 1 up and [Infinity] are accepted. *)
Definition pLimitOf (v : Json) : Limit + JsThrown :=
  match v with
  | JNum (Finite concurrency) =>
      match pLimit concurrency with
      | inl n => inl (AtMost n)
      | inr error => inr error
      end
  | JNum (Infinity false) => inl Unlimited
  | _ => inr concurrencyError
  end.

(** [files.flatMap(file => analyses.map(analysis => ...))]: [files] must
    be an array, and so must [analyses] once there is a file to map it
    for. *)
Definition analysisPairs (files analyses : option Json)
  : list (Json * Json) + JsThrown :=
  match files with
  | Some (JArr []) => inl []
  | Some (JArr fileList) =>
      match analyses with
      | Some (JArr analysisList) =>
          inl (flat_map (fun file =>
                           map (fun analysis => (file, analysis))
                               analysisList)
                        fileList)
      | _ => inr (JsError (typeErrorMessage "analyses.map" analyses))
      end
  | _ => inr (JsError (typeErrorMessage "files.flatMap" files))
  end.

(** What [handleBatchCodeAnalysis] does before it awaits: the limiter's
    concurrency and the files and analyses of the functions handed to
    the limiter, or what it throws. *)
Definition analysisPlan (args : option Json)
  : (Limit * list (Json * Json)) + JsThrown :=
  match analysisArguments args with
  | inr error => inr error
  | inl (files, analyses, options) =>
      match concurrencyOf options with
      | inr error => inr error
      | inl v =>
          match pLimitOf v with
          | inr error => inr error
          | inl limit =>
              match analysisPairs files analyses with
              | inr error => inr error
              | inl pairs => inl (limit, pairs)
              end
          end
      end
  end.
End AnyValue.

(** One limited function and the position of its promise in the array
    given to [Promise.all]. *)
Record Job := mkJob {
  job_slot : nat;
  job_file : Json;
  job_analysis : Json
}.

(** [{ file, analysis, result }] *)
Record AnalysisEntry := mkEntry {
  en_file : Json;
  en_analysis : Json;
  en_result : Analysis
}.

Definition jsonOfEntry (e : AnalysisEntry) : Json :=
  JObj [("file", en_file e); ("analysis", en_analysis e);
        ("result", jsonOfAnalysis (en_result e))].

Fixpoint jobsFrom (slot : nat) (pairs : list (Json * Json)) : list Job :=
  match pairs with
  | [] => []
  | (file, analysis) :: pairs' =>
      mkJob slot file analysis :: jobsFrom (S slot) pairs'
  end.

(** The texts of the engine for running the model. *)
Fixpoint textOf (j : Json) : string :=
  match j with
  | JNull => "null"
  | JBool true => "true"
  | JBool false => "false"
  | JNum (Finite n) => Mem.number n
  | JNum (Infinity negative) => if negative then "-Infinity" else "Infinity"
  | JStr s => s
  | JArr items =>
      (fix go (l : list Json) : string :=
         match l with
         | [] => EmptyString
         | x :: l' =>
             (match x with JNull => EmptyString | _ => textOf x end
              ++ match l' with [] => EmptyString | _ => "," end
              ++ go l')%string
         end) items
  | JObj _ => "[object Object]"
  end.

#[global] Instance plainEngine : Engine := {|
  typeErrorMessage := fun expression value =>
    match value with
    | Some v => (expression ++ " cannot be evaluated on " ++ textOf v)%string
    | None => (expression ++ " cannot be evaluated on undefined")%string
    end;
  pathOf := fun _ => inr (JsError "The path argument must be of type string");
  toText := textOf
|}.

(** The values of the array when every promise has fulfilled. *)
Fixpoint allSettled {A} (slots : list (option A)) : option (list A) :=
  match slots with
  | [] => Some []
  | Some a :: slots' => option_map (cons a) (allSettled slots')
  | None :: _ => None
  end.

Section Analyser.
Context {World : Type} {fs : Fs World} {engine : Engine}.
Variable limit : Limit.

(** The state of [handleBatchCodeAnalysis] while it awaits
    [Promise.all]: the limiter's queue, the functions in flight, the
    promises by position, and the results once the [await] is over. *)
Record Analyser := mkAnalyser {
  az_world : World;
  az_queue : list Job;
  az_active : list Job;
  az_slots : list (option AnalysisEntry);
  az_results : option (list AnalysisEntry)
}.

Definition analysisStart (pairs : list (Json * Json)) (w : World)
  : Analyser :=
  mkAnalyser w (jobsFrom 0 pairs) [] (map (fun _ => None) pairs) None.

(** One step of the analysis: the limiter starts the function at the head
    of its queue; a function in flight reads its file and fulfils its
    promise; or the handler resumes with the values of all promises. *)
Definition analysisStep (c : Choice) (st : Analyser) : option Analyser :=
  match c with
  | Dequeue =>
      match az_queue st with
      | job :: q =>
          if room limit (List.length (az_active st))
          then Some (mkAnalyser (az_world st) q (az_active st ++ [job])
                                (az_slots st) (az_results st))
          else None
      | [] => None
      end
  | Advance i =>
      match nth_error (az_active st) i with
      | Some job =>
          let (w1, result) :=
            analyzeAny (job_file job) (job_analysis job) (az_world st) in
          Some (mkAnalyser w1 (az_queue st) (removeAt i (az_active st))
                  (replaceAt (job_slot job)
                     (Some (mkEntry (job_file job) (job_analysis job) result))
                     (az_slots st))
                  (az_results st))
      | None => None
      end
  | Resume =>
      match az_results st, allSettled (az_slots st) with
      | None, Some results =>
          Some (mkAnalyser (az_world st) (az_queue st) (az_active st)
                           (az_slots st) (Some results))
      | _, _ => None
      end
  end.

Fixpoint analysisRun (sched : list Choice) (st : Analyser)
  : option Analyser :=
  match sched with
  | [] => Some st
  | c :: sched' =>
      match analysisStep c st with
      | Some st' => analysisRun sched' st'
      | None => None
      end
  end.

(** The jobs run one by one. *)
Fixpoint oneByOne (n : nat) : list Choice :=
  match n with
  | O => [Resume]
  | S n' => Dequeue :: Advance 0 :: oneByOne n'
  end.

(** Every function not yet through waits for a promise of its own, at
    the position of its file and analysis; every promise not fulfilled
    has such a function; every fulfilled promise holds the entry of the
    file and analysis at its position; and the handler resumes only with
    the values of all promises. *)
Definition slotted (pairs : list (Json * Json)) (st : Analyser) : Prop :=
  List.length (az_slots st) = List.length pairs
  /\ NoDup (map job_slot (az_queue st ++ az_active st))
  /\ (forall job, In job (az_queue st ++ az_active st) ->
        nth_error pairs (job_slot job)
        = Some (job_file job, job_analysis job)
        /\ nth_error (az_slots st) (job_slot job) = Some None)
  /\ (forall k, nth_error (az_slots st) k = Some None ->
        exists job, In job (az_queue st ++ az_active st) /\ job_slot job = k)
  /\ (forall k e, nth_error (az_slots st) k = Some (Some e) ->
        nth_error pairs k = Some (en_file e, en_analysis e))
  /\ (forall results, az_results st = Some results ->
        allSettled (az_slots st) = Some results).

End Analyser.

(** [handleBatchCodeAnalysis(args)] under a schedule: [None] while the
    call has not returned, [inr] when it throws. *)
Definition handleBatchCodeAnalysis {World : Type} {fs : Fs World}
    {host : Host} {engine : Engine} (args : option Json)
    (sched : list Choice) (w : World)
  : option (ToolResult + JsThrown) :=
  match analysisPlan args with
  | inr error => Some (inr error)
  | inl (limit, pairs) =>
      match analysisRun limit sched (analysisStart pairs w) with
      | Some st =>
          match az_results st with
          | Some results =>
              Some (inl (TextContent
                           (stringify
                              (JObj [("analyses",
                                      JArr (map jsonOfEntry results))]))))
          | None => None
          end
      | None => None
      end
  end.

(** The line feeds of a text. *)
Fixpoint lineFeeds (content : string) : nat :=
  match content with
  | EmptyString => 0
  | String c rest =>
      ((if Ascii.eqb c lineFeed then 1 else 0) + lineFeeds rest)%nat
  end.

(** The bytes that occur in white space: those of the ASCII white space
    and every byte of a longer sequence. *)
Definition spaceByte (a : ascii) : bool :=
  space1 a || (128 <=? N_of_ascii a)%N.

Section Order.
Context {World : Type}.
Variable operations0 : list FileOperation.
Variable opts : BatchOptions.

(** The operations whose outcome has been recorded. *)
Definition settledOps (st : @Coord World) : list FileOperation :=
  map sr_operation (st_results st) ++ map ei_operation (st_errors st).

(** Every operation started is in flight or has its outcome recorded,
    once each. *)
Definition recorded (st : @Coord World) : Prop :=
  Permutation (settledOps st ++ map task_op (st_active st)) (started st).

(** Groups run one after the other.  Unless there is no group at all,
    the groups are some [earlier] ones, the current group [g] and those
    not reached; the outcomes recorded are those of every operation of
    the earlier groups and of some operations [done] of the current one,
    whose other operations are in flight or wait in the limiter; and
    under [stopOnError] every failure recorded is of an operation of the
    current group. *)
Definition sequenced (st : @Coord World) : Prop :=
  (grouped opts operations0 = []
   /\ st_remaining st = [] /\ st_queue st = [] /\ st_active st = []
   /\ st_results st = [] /\ st_errors st = [])
  \/ exists earlier g done,
       grouped opts operations0 = earlier ++ g :: st_remaining st
       /\ Permutation (settledOps st) (List.concat earlier ++ done)
       /\ Permutation (done ++ map task_op (st_active st) ++ st_queue st) g
       /\ (stopOnError opts = true ->
           forall e, In e (st_errors st) -> In (ei_operation e) done).
End Order.

(* ================================================================== *)
(** * Properties *)

(** ** Operation types *)

Lemma OpType_eqb_spec a b : reflect (a = b) (OpType_eqb a b).
Proof. destruct a, b; constructor; congruence. Qed.

Lemma OpType_eqb_refl a : OpType_eqb a a = true.
Proof. now destruct a. Qed.

Lemma OpType_eqb_eq a b : OpType_eqb a b = true <-> a = b.
Proof. destruct (OpType_eqb_spec a b); split; congruence. Qed.

Lemma OpType_eqb_neq a b : OpType_eqb a b = false <-> a <> b.
Proof. destruct (OpType_eqb_spec a b); split; congruence. Qed.


Lemma hasType_true t op : hasType t op = true <-> type op = t.
Proof. apply OpType_eqb_eq. Qed.

Lemma memType_In t l : memType t l = true <-> In t l.
Proof.
  unfold memType. rewrite existsb_exists. split.
  - intros (u & Hu & E). apply OpType_eqb_eq in E. now subst.
  - intros H. exists t. split; [assumption | apply OpType_eqb_refl].
Qed.

Lemma memType_notIn t l : memType t l = false <-> ~ In t l.
Proof.
  rewrite <- memType_In. destruct (memType t l); split; congruence.
Qed.

(** ** First-occurrence order *)

Lemma firstSeen_In t l : In t (firstSeen l) <-> In t l.
Proof.
  induction l as [|a l IH]; simpl; [tauto|].
  rewrite filter_In, IH, negb_true_iff, OpType_eqb_neq.
  destruct (OpType_eqb_spec a t); intuition congruence.
Qed.

Lemma firstSeen_NoDup l : NoDup (firstSeen l).
Proof.
  induction l as [|a l IH]; simpl; constructor.
  - rewrite filter_In, negb_true_iff, OpType_eqb_neq. tauto.
  - now apply NoDup_filter.
Qed.

Lemma firstSeen_snoc l t :
  firstSeen (l ++ [t]) = if memType t l then firstSeen l else firstSeen l ++ [t].
Proof.
  induction l as [|a l IH]; simpl; [reflexivity|].
  rewrite IH. destruct (OpType_eqb_spec t a) as [->|Hne]; simpl.
  - destruct (memType a l); [reflexivity|].
    rewrite filter_app. simpl. rewrite OpType_eqb_refl. simpl.
    now rewrite app_nil_r.
  - destruct (memType t l); [reflexivity|].
    rewrite filter_app. simpl.
    apply OpType_eqb_neq in Hne. now rewrite Hne.
Qed.

Lemma filter_filter_and {A} (f g : A -> bool) l :
  filter f (filter g l) = filter (fun x => g x && f x) l.
Proof.
  induction l as [|a l IH]; simpl; [reflexivity|].
  destruct (g a); simpl; [destruct (f a)|]; now rewrite IH.
Qed.

Lemma memType_snoc u l a :
  negb (memType u (l ++ [a])) = negb (OpType_eqb u a) && negb (memType u l).
Proof.
  unfold memType. rewrite existsb_app. simpl.
  rewrite orb_false_r, negb_orb. apply andb_comm.
Qed.

(** The distinct elements of a prefix come first, in their own order. *)
Lemma firstSeen_app l1 l2 :
  firstSeen (l1 ++ l2)
  = firstSeen l1 ++ filter (fun u => negb (memType u l1)) (firstSeen l2).
Proof.
  revert l1. induction l2 as [|a l2 IH]; intros l1.
  - simpl. now rewrite !app_nil_r.
  - change (l1 ++ a :: l2) with (l1 ++ [a] ++ l2).
    rewrite app_assoc, IH, firstSeen_snoc.
    rewrite (filter_ext _ _ (fun u => memType_snoc u l1 a)).
    rewrite <- filter_filter_and. simpl.
    destruct (memType a l1); simpl; [reflexivity|].
    now rewrite <- app_assoc.
Qed.

Lemma memType_firstSeen t l : memType t (firstSeen l) = memType t l.
Proof.
  destruct (memType t l) eqn:E.
  - apply memType_In, firstSeen_In, memType_In, E.
  - apply memType_notIn. rewrite firstSeen_In. now apply memType_notIn.
Qed.

(** ** The ordered map *)

Section JsMapFacts.
Variable V : Type.
Implicit Types (m : JsMap.t V) (k : OpType) (v : V).

Lemma has_keys k m : JsMap.has k m = memType k (JsMap.keys m).
Proof.
  induction m as [|[k' v'] m IH]; simpl; [reflexivity|].
  now destruct (OpType_eqb k k').
Qed.

Lemma set_fresh k v m :
  JsMap.has k m = false -> JsMap.set k v m = m ++ [(k, v)].
Proof.
  induction m as [|[k' v'] m IH]; simpl; [reflexivity|].
  destruct (OpType_eqb k k'); [discriminate|].
  intros H. now rewrite IH.
Qed.

Lemma get_snoc_fresh k v m :
  JsMap.has k m = false -> JsMap.get k (m ++ [(k, v)]) = Some v.
Proof.
  induction m as [|[k' v'] m IH]; simpl.
  - now rewrite OpType_eqb_refl.
  - destruct (OpType_eqb k k'); [discriminate | exact IH].
Qed.

Lemma set_snoc_fresh k v v' m :
  JsMap.has k m = false ->
  JsMap.set k v' (m ++ [(k, v)]) = m ++ [(k, v')].
Proof.
  induction m as [|[k' w] m IH]; simpl.
  - now rewrite OpType_eqb_refl.
  - destruct (OpType_eqb k k'); [discriminate|].
    intros H. now rewrite IH.
Qed.

Lemma get_tabulate (f : OpType -> V) k ks :
  In k ks -> JsMap.get k (map (fun t => (t, f t)) ks) = Some (f k).
Proof.
  induction ks as [|a ks IH]; simpl; [tauto|].
  destruct (OpType_eqb_spec k a) as [->|Hne]; [reflexivity|].
  intros [E|H]; [congruence | now apply IH].
Qed.

Lemma set_tabulate (f : OpType -> V) k v ks :
  NoDup ks -> In k ks ->
  JsMap.set k v (map (fun t => (t, f t)) ks)
  = map (fun t => (t, if OpType_eqb t k then v else f t)) ks.
Proof.
  induction ks as [|a ks IH]; simpl; [tauto|].
  intros Hnd Hin. inversion Hnd as [|? ? Ha Hks]; subst.
  destruct (OpType_eqb_spec k a) as [->|Hne].
  - rewrite OpType_eqb_refl. f_equal.
    apply map_ext_in. intros t Ht.
    destruct (OpType_eqb_spec t a); [congruence | reflexivity].
  - destruct (OpType_eqb_spec a k); [congruence|].
    f_equal. apply IH; [assumption|]. destruct Hin; congruence.
Qed.

Lemma keys_tabulate (f : OpType -> V) ks :
  JsMap.keys (map (fun t => (t, f t)) ks) = ks.
Proof.
  unfold JsMap.keys. rewrite map_map. simpl. apply map_id.
Qed.
End JsMapFacts.

(** ** Grouping policy *)

Lemma filter_hasType_none t ops :
  ~ In t (map type ops) -> filter (hasType t) ops = [].
Proof.
  induction ops as [|x ops IH]; simpl; [reflexivity|].
  intros H. unfold hasType at 1.
  destruct (OpType_eqb_spec (type x) t); [tauto|]. apply IH. tauto.
Qed.

Lemma filter_hasType_snoc t l x :
  filter (hasType t) (l ++ [x])
  = filter (hasType t) l ++ (if OpType_eqb (type x) t then [x] else []).
Proof. rewrite filter_app. reflexivity. Qed.

(** One pass of the loop extends the groups of the prefix read so far. *)
Lemma groupStep_firstSeen l x :
  groupStep (groupsByFirstSeen l) x = groupsByFirstSeen (l ++ [x]).
Proof.
  unfold groupsByFirstSeen, groupStep.
  rewrite map_app. change (map type [x]) with [type x].
  rewrite firstSeen_snoc, has_keys, keys_tabulate, memType_firstSeen.
  simpl. destruct (memType (type x) (map type l)) eqn:Hmem; simpl.
  - assert (Hin : In (type x) (firstSeen (map type l)))
      by now apply firstSeen_In, memType_In.
    rewrite get_tabulate by assumption.
    rewrite set_tabulate by (auto using firstSeen_NoDup).
    apply map_ext. intros t. f_equal. rewrite filter_hasType_snoc.
    destruct (OpType_eqb_spec t (type x)) as [->|Hne].
    + now rewrite OpType_eqb_refl.
    + destruct (OpType_eqb_spec (type x) t); [congruence|].
      now rewrite app_nil_r.
  - assert (Hfresh : JsMap.has (type x)
              (map (fun t => (t, filter (hasType t) l))
                   (firstSeen (map type l))) = false)
      by now rewrite has_keys, keys_tabulate, memType_firstSeen.
    rewrite set_fresh by assumption.
    rewrite get_snoc_fresh by assumption.
    rewrite set_snoc_fresh by assumption.
    rewrite map_app. simpl. f_equal.
    + apply map_ext_in. intros t Ht. f_equal. rewrite filter_hasType_snoc.
      destruct (OpType_eqb_spec (type x) t) as [E|].
      * rewrite firstSeen_In in Ht. apply memType_notIn in Hmem.
        rewrite E in Hmem. contradiction.
      * now rewrite app_nil_r.
    + rewrite filter_hasType_snoc, OpType_eqb_refl.
      rewrite filter_hasType_none by now apply memType_notIn.
      reflexivity.
Qed.

(** The loop builds exactly the groups by first occurrence. *)
Lemma groupOperationsByType_firstSeen ops :
  fold_left groupStep ops [] = groupsByFirstSeen ops.
Proof.
  induction ops as [|x l IH] using rev_ind; [reflexivity|].
  now rewrite fold_left_app, IH, <- groupStep_firstSeen.
Qed.

Lemma groupOperationsByType_eq ops :
  groupOperationsByType ops
  = map (fun t => filter (hasType t) ops) (firstSeen (map type ops)).
Proof.
  unfold groupOperationsByType.
  rewrite groupOperationsByType_firstSeen.
  unfold groupsByFirstSeen, JsMap.values. now rewrite map_map.
Qed.

Lemma filter_split_perm {A} (f : A -> bool) l :
  Permutation (filter f l ++ filter (fun x => negb (f x)) l) l.
Proof.
  induction l as [|a l IH]; simpl; [constructor|].
  destruct (f a); simpl.
  - now constructor.
  - rewrite <- Permutation_middle. now constructor.
Qed.

Lemma filter_hasType_twice t k ops :
  filter (hasType t) (filter (hasType k) ops)
  = if OpType_eqb t k then filter (hasType t) ops else [].
Proof.
  rewrite filter_filter_and.
  destruct (OpType_eqb_spec t k) as [->|Hne].
  - apply filter_ext. intros x. now destruct (hasType k x).
  - induction ops as [|x ops IH]; simpl; [reflexivity|].
    unfold hasType at 1 2.
    destruct (OpType_eqb_spec (type x) k) as [<-|]; simpl; [|exact IH].
    destruct (OpType_eqb_spec (type x) t); [congruence | exact IH].
Qed.

Lemma filter_hasType_rest t k ops :
  t <> k ->
  filter (hasType t) (filter (fun x => negb (hasType k x)) ops)
  = filter (hasType t) ops.
Proof.
  intros Hne. rewrite filter_filter_and. apply filter_ext. intros x.
  unfold hasType. destruct (OpType_eqb_spec (type x) k) as [E|]; simpl;
    [|reflexivity].
  destruct (OpType_eqb_spec (type x) t); congruence.
Qed.

(** Groups taken for pairwise distinct types that cover the input
    rearrange the input. *)
Lemma groups_perm ks : forall ops,
  NoDup ks -> (forall op, In op ops -> In (type op) ks) ->
  Permutation (List.concat (map (fun t => filter (hasType t) ops) ks)) ops.
Proof.
  induction ks as [|k ks IH]; intros ops Hnd Hcov; simpl.
  - destruct ops as [|x ops]; [constructor|].
    destruct (Hcov x (or_introl eq_refl)).
  - inversion Hnd as [|? ? Hk Hks]; subst.
    rewrite <- (filter_split_perm (hasType k) ops) at 2.
    apply Permutation_app_head.
    rewrite <- (IH (filter (fun x => negb (hasType k x)) ops)); trivial.
    + assert (E : map (fun t => filter (hasType t) ops) ks
                 = map (fun t => filter (hasType t)
                          (filter (fun x => negb (hasType k x)) ops)) ks).
      { apply map_ext_in. intros t Ht. symmetry.
        apply filter_hasType_rest. congruence. }
      rewrite E. reflexivity.
    + intros op Hop. apply filter_In in Hop as [Hin Hnk].
      destruct (Hcov op Hin) as [E|]; [|assumption].
      unfold hasType in Hnk. rewrite E, OpType_eqb_refl in Hnk.
      discriminate.
Qed.

(** Filtering the flattened groups by a type gives that type's group. *)
Lemma groups_filter t ops ks :
  NoDup ks ->
  filter (hasType t) (List.concat (map (fun u => filter (hasType u) ops) ks))
  = if memType t ks then filter (hasType t) ops else [].
Proof.
  induction ks as [|k ks IH]; intros Hnd; simpl; [reflexivity|].
  inversion Hnd as [|? ? Hk Hks]; subst.
  rewrite filter_app, filter_hasType_twice, IH by assumption.
  destruct (OpType_eqb_spec t k) as [->|Hne]; simpl; [|reflexivity].
  apply memType_notIn in Hk. rewrite Hk. apply app_nil_r.
Qed.

Lemma group_of_seen_type t ops :
  In t (firstSeen (map type ops)) ->
  exists op, In op ops /\ In op (filter (hasType t) ops).
Proof.
  rewrite firstSeen_In, in_map_iff. intros (op & E & Hin).
  exists op. split; [assumption|].
  apply filter_In. split; [assumption | now apply hasType_true].
Qed.

(** C3. With [groupByType] set, the groups are, in the order in which the
    types first occur in the input, the sub-sequences of the operations of
    each type: flattened they are a permutation of the input that keeps
    the relative order within every type, every group is non-empty and of
    one type, and the [i]-th group has the [i]-th type seen.  With
    [groupByType] unset there is the single group of all operations in
    their original order. *)
Theorem grouping_policy_contract
    (ops : list FileOperation) (mc tm ra : Z) (soe : bool) :
  let byType := grouped (mkOptions mc tm soe ra true) ops in
  Permutation (List.concat byType) ops
  /\ (forall t, filter (hasType t) (List.concat byType) = filter (hasType t) ops)
  /\ Forall2 (fun t g => g <> [] /\ Forall (fun op => type op = t) g
                         /\ g = filter (hasType t) ops)
             (firstSeen (map type ops)) byType
  /\ NoDup (firstSeen (map type ops))
  /\ grouped (mkOptions mc tm soe ra false) ops = [ops].
Proof.
  unfold grouped; simpl. rewrite groupOperationsByType_eq.
  repeat split.
  - apply groups_perm; [apply firstSeen_NoDup|].
    intros op Hin. apply firstSeen_In, in_map, Hin.
  - intros t. rewrite groups_filter by apply firstSeen_NoDup.
    rewrite memType_firstSeen.
    destruct (memType t (map type ops)) eqn:E; [reflexivity|].
    symmetry. apply filter_hasType_none. now apply memType_notIn.
  - assert (H : forall ks, incl ks (firstSeen (map type ops)) ->
        Forall2 (fun t g => g <> [] /\ Forall (fun op => type op = t) g
                            /\ g = filter (hasType t) ops)
                ks (map (fun t => filter (hasType t) ops) ks)).
    { induction ks as [|k ks IH]; intros Hincl; simpl; constructor.
      - repeat split.
        + destruct (group_of_seen_type k ops) as (op & _ & Hin).
          { apply Hincl. now left. }
          intros E. rewrite E in Hin. destruct Hin.
        + apply Forall_forall. intros op Hin.
          apply filter_In in Hin as [_ Hin]. now apply hasType_true.
      - apply IH. intros t Ht. apply Hincl. now right. }
    apply H, incl_refl.
  - apply firstSeen_NoDup.
Qed.

(** C9. Every group built by the grouping policy holds an operation of
    the input: a type has a group only when it occurs. *)
Theorem groups_are_nonempty (ops : list FileOperation) :
  Forall (fun g => g <> [] /\ exists op, In op g /\ In op ops)
         (groupOperationsByType ops).
Proof.
  rewrite groupOperationsByType_eq.
  apply Forall_forall. intros g Hg.
  apply in_map_iff in Hg as (t & <- & Ht).
  destruct (group_of_seen_type t ops Ht) as (op & Hin & Hg).
  split.
  - intros E. rewrite E in Hg. destruct Hg.
  - now exists op.
Qed.

(** ** Operation executor *)

Section ExecutorFacts.
Context {World : Type} {fs : Fs World}.
Implicit Types (operation : FileOperation) (w : World).

Lemma attemptsIn_app tr1 tr2 :
  attemptsIn (tr1 ++ tr2) = (attemptsIn tr1 + attemptsIn tr2)%nat.
Proof. unfold attemptsIn. now rewrite filter_app, length_app. Qed.

(** A pass that ends in the [catch] block is a failed attempt within
    the retry bound; it records the error and moves to the next
    attempt. *)
Lemma loopIter_continue operation r a last w w1 evs a1 last1 :
  loopIter operation r a last w = (w1, evs, Continue a1 last1) ->
  a <= floor r /\ a1 = a + 1 /\ attemptsIn evs = 1%nat
  /\ exists w0 e, tryBody operation a w = (w0, inr e) /\ last1 = Some e.
Proof.
  unfold loopIter. destruct (Z.leb_spec a (floor r)); [|discriminate].
  destruct (tryBody operation a w) as [w0 [res|e]]; [discriminate|].
  destruct (a <? ceil r); intros E; inversion E; subst;
    (repeat split; [assumption | eauto]).
Qed.

Lemma loopIter_success operation r a last w w1 res :
  a <= floor r -> tryBody operation a w = (w1, inl res) ->
  loopIter operation r a last w
  = (w1, [EvAttempt operation a], Settled (inl res)).
Proof.
  intros Ha E. unfold loopIter.
  destruct (Z.leb_spec a (floor r)); [|lia]. now rewrite E.
Qed.

(** A failed attempt within the bound: the wait of line 329 when the
    attempt is below [maxRetries], and the next attempt. *)
Lemma loopIter_failure operation r a last w w1 e :
  a <= floor r -> tryBody operation a w = (w1, inr e) ->
  loopIter operation r a last w
  = (if a <? ceil r then sleep (1000 * (a + 1)) w1 else w1,
     if a <? ceil r
     then [EvAttempt operation a; EvWait (1000 * (a + 1))]
     else [EvAttempt operation a],
     Continue (a + 1) (Some e)).
Proof.
  intros Ha E. unfold loopIter.
  destruct (Z.leb_spec a (floor r)); [|lia]. rewrite E.
  now destruct (a <? ceil r).
Qed.

Lemma loopIter_exit operation r a last w :
  floor r < a ->
  loopIter operation r a last w = (w, [], Settled (inr (thrownOf last))).
Proof.
  intros Ha. unfold loopIter.
  destruct (Z.leb_spec a (floor r)); [lia|reflexivity].
Qed.

(** A pass that settles returned from the [try] block or left the loop
    with the recorded error. *)
Lemma loopIter_settled operation r a last w w1 evs out :
  loopIter operation r a last w = (w1, evs, Settled out) ->
  (a <= floor r /\ exists res, out = inl res
                              /\ tryBody operation a w = (w1, inl res))
  \/ (floor r < a /\ out = inr (thrownOf last) /\ w1 = w).
Proof.
  unfold loopIter. destruct (Z.leb_spec a (floor r)).
  - destruct (tryBody operation a w) as [w0 [res|e]].
    + intros [= <- <- <-]. left. eauto.
    + destruct (a <? ceil r); discriminate.
  - intros [= <- <- <-]. now right.
Qed.

(** The loop goes through [k] failing attempts within the bound and
    stands where they leave the world. *)
Lemma retryLoop_after_failing k :
  forall fuel operation r a last w tr wk lastk,
  a + Z.of_nat k <= floor r + 1 ->
  failing k operation r a last w = Some (wk, lastk) ->
  exists tr',
    retryLoop (k + fuel) operation r a last w tr
    = retryLoop fuel operation r (a + Z.of_nat k) lastk wk (tr ++ tr')
    /\ attemptsIn tr' = k.
Proof.
  induction k as [|k IH]; intros fuel operation r a last w tr wk lastk Hk;
    cbn [failing].
  - intros [= <- <-]. exists []. rewrite app_nil_r, Z.add_0_r. now split.
  - destruct (tryBody operation a w) as [w1 [res|e]] eqn:Htry;
      [discriminate|].
    intros H. cbn [Nat.add retryLoop].
    rewrite (@loopIter_failure operation r a last w w1 e ltac:(lia) Htry).
    destruct (IH fuel operation r (a + 1) (Some e) _
                 (tr ++ (if a <? ceil r
                         then [EvAttempt operation a; EvWait (1000 * (a + 1))]
                         else [EvAttempt operation a]))
                 wk lastk ltac:(lia) H) as (tr' & -> & Hn).
    exists ((if a <? ceil r
             then [EvAttempt operation a; EvWait (1000 * (a + 1))]
             else [EvAttempt operation a]) ++ tr').
    rewrite app_assoc.
    replace (a + 1 + Z.of_nat k) with (a + Z.of_nat (S k)) by lia.
    split; [reflexivity|].
    rewrite attemptsIn_app, Hn. now destruct (a <? ceil r).
Qed.

(** The [attempt] member of a completion record is the 1-based number
    of the attempt; a [read] returns the augmented operation instead. *)
Lemma tryBody_result operation a w w1 res :
  tryBody operation a w = (w1, inl res) ->
  (type operation <> read ->
     res = Completed (type operation) (path operation) (isoNow w1) (a + 1))
  /\ (type operation = read -> exists c, res = ReadResult operation c).
Proof.
  unfold tryBody, bind, completion, ret, throw.
  destruct (type operation) eqn:Ety;
    repeat match goal with
      | |- context [match ?x with _ => _ end] =>
          match x with
          | context [match _ with _ => _ end] => fail 1
          | _ => destruct x as [? [?|?]] eqn:?
          end
      | |- context [match truthy ?d with _ => _ end] => destruct (truthy d)
      end;
    intros E; inversion E; subst.
    all: split; [intros Hty; try reflexivity; try congruence
            | intros; try discriminate; eauto].
Qed.

(** The loop always comes to an end within its fuel. *)
Lemma retryLoop_total fuel : forall operation r a last w tr,
  (Z.to_nat (floor r + 1 - a) + 1 <= fuel)%nat ->
  exists w1 tr1 out,
    retryLoop fuel operation r a last w tr = Some (w1, tr1, out).
Proof.
  induction fuel as [|fuel IH]; intros operation r a last w tr Hf; [lia|].
  simpl.
  destruct (loopIter operation r a last w) as [[w1 evs] [a1 last1|o]] eqn:E;
    [|eauto].
  apply loopIter_continue in E as (Ha & -> & _).
  apply IH. lia.
Qed.

Lemma executeFileOperation_total operation opts w :
  exists w1 trace out,
    executeFileOperation operation opts w = Some (w1, trace, out).
Proof. apply retryLoop_total. unfold loopFuel. lia. Qed.

(** A [copy] or [move] whose destination is missing throws before any
    file-system call. *)
Lemma tryBody_no_destination operation a w :
  needsDestination operation = true ->
  destination operation = None ->
  tryBody operation a w
  = (w, inr (JsError (destinationRequired (type operation)))).
Proof.
  unfold needsDestination, tryBody. intros Hty Hd. rewrite Hd.
  destruct (type operation); try discriminate; reflexivity.
Qed.

(** When every attempt throws the same error, so does the loop. *)
Lemma retryLoop_always_fails operation e r :
  (forall a w, exists w1, tryBody operation a w = (w1, inr e)) ->
  forall fuel a last w tr,
    a <= floor r + 1 -> (a = floor r + 1 -> last = Some e) ->
    (Z.to_nat (floor r + 1 - a) + 1 <= fuel)%nat ->
    exists w1 tr1,
      retryLoop fuel operation r a last w tr = Some (w1, tr1, inr e).
Proof.
  intros Hfail.
  induction fuel as [|fuel IH]; intros a last w tr Ha Hlast Hf; [lia|].
  cbn [retryLoop].
  destruct (Z.le_gt_cases a (floor r)) as [Hle|Hgt].
  - destruct (Hfail a w) as [w1 Htry].
    rewrite (@loopIter_failure operation r a last w w1 e Hle Htry).
    apply IH; [lia | reflexivity | lia].
  - rewrite loopIter_exit by lia. rewrite (Hlast ltac:(lia)).
    cbn [thrownOf]. eauto.
Qed.
End ExecutorFacts.

(** C4, as the executor has it.  When the first [k <= retryAttempts]
    attempts fail: if the next attempt succeeds, the executor returns its
    value after [k + 1] attempts, which for every operation but a [read]
    is the completion record with [attempt = k + 1] and for a [read] is
    the operation augmented with the content; if [k = retryAttempts] and
    the next attempt fails too, the executor has made exactly
    [retryAttempts + 1] attempts and throws the error of that last
    attempt, leaving the world as that attempt left it.  ([retryAttempts]
    is an integer in the claim; for a number between two integers the
    attempts are [floor retryAttempts + 1].) *)
Theorem executor_retry {World : Type} {fs : Fs World}
    (operation : FileOperation) (opts : BatchOptions) (w : World)
    (k : nat) (wk : World) (lastk : option JsThrown) :
  Z.of_nat k <= floor (retryAttempts opts) ->
  failing k operation (retryAttempts opts) 0 None w = Some (wk, lastk) ->
  (forall w1 res,
     tryBody operation (Z.of_nat k) wk = (w1, inl res) ->
     exists trace,
       executeFileOperation operation opts w = Some (w1, trace, inl res)
       /\ attemptsIn trace = S k
       /\ (type operation <> read -> attemptOf res = Some (Z.of_nat k + 1))
       /\ (type operation = read -> exists c, res = ReadResult operation c))
  /\ (forall w1 e,
     Z.of_nat k = floor (retryAttempts opts) ->
     tryBody operation (Z.of_nat k) wk = (w1, inr e) ->
     exists wend trace,
       executeFileOperation operation opts w = Some (wend, trace, inr e)
       /\ Z.of_nat (attemptsIn trace) = floor (retryAttempts opts) + 1
       /\ (isInteger (retryAttempts opts) = true -> wend = w1)).
Proof.
  intros Hk Hfail.
  unfold executeFileOperation, loopFuel.
  set (r := retryAttempts opts) in *.
  replace (Z.to_nat (floor r + 1) + 1)%nat
    with (k + S (S (Z.to_nat (floor r) - k)))%nat by lia.
  destruct (@retryLoop_after_failing _ _ k (S (S (Z.to_nat (floor r) - k)))
              operation r 0 None w [] wk lastk ltac:(lia) Hfail)
    as (tr' & -> & Htr').
  cbn [app Z.add]. split.
  - intros w1 res Hres. exists (tr' ++ [EvAttempt operation (Z.of_nat k)]).
    cbn [retryLoop].
    rewrite loopIter_success with (w1 := w1) (res := res) by assumption.
    split; [reflexivity|]. split.
    + rewrite attemptsIn_app, Htr'. unfold attemptsIn. simpl. lia.
    + destruct (tryBody_result _ _ _ Hres) as [Hc Hr]. split.
      * intros Hty. now rewrite (Hc Hty).
      * exact Hr.
  - intros w1 e Hkr Hres. cbn [retryLoop].
    rewrite (@loopIter_failure _ _ operation r (Z.of_nat k) lastk wk w1 e
               Hk Hres).
    rewrite loopIter_exit by lia. cbn [thrownOf].
    do 2 eexists. split; [reflexivity|]. split.
    + rewrite app_nil_r, attemptsIn_app, Htr'.
      destruct (Z.of_nat k <? ceil r); unfold attemptsIn; simpl; lia.
    + intros Hint. destruct r as [n|below part]; [|discriminate].
      cbn [floor ceil] in *.
      now destruct (Z.ltb_spec (Z.of_nat k) n); [lia|].
Qed.

(** A delete that fails once and then succeeds returns [attempt = 2]. *)
Lemma executor_retry_witness :
  exists trace,
    executeFileOperation (Mem.op delete "/tmp/f") defaultOptions
                         (1%nat : Flaky.World)
    = Some (0%nat, trace,
            inl (Completed delete "/tmp/f" "2024-01-01T00:00:00.000Z" 2))
    /\ attemptsIn trace = 2%nat.
Proof.
  destruct (@executor_retry Flaky.World Flaky.fs (Mem.op delete "/tmp/f")
              defaultOptions 1%nat 1%nat 0%nat (Some Flaky.busy))
    as [Hs _].
  - simpl. lia.
  - reflexivity.
  - destruct (Hs 0%nat _ eq_refl) as (trace & E & N & _).
    exists trace. split; assumption.
Defined.

(** C4 as stated fails for [read]: its first attempt succeeds and the
    value returned has no [attempt] member. *)
Lemma executor_read_has_no_attempt :
  exists trace res,
    executeFileOperation (Mem.op read "/tmp/a.txt") defaultOptions
                         ([("/tmp/a.txt", "hi")] : Mem.World)
    = Some ([("/tmp/a.txt", "hi")], trace, inl res)
    /\ attemptsIn trace = 1%nat
    /\ attemptOf res <> Some 1
    /\ jsonProp "attempt" (jsonOfExecResult res) = None.
Proof.
  eexists. eexists. split; [reflexivity|].
  split; [reflexivity|]. split; [discriminate | reflexivity].
Qed.

(** ** Batch coordinator *)

Lemma removeAt_length {A} i (l : list A) t :
  nth_error l i = Some t -> S (List.length (removeAt i l)) = List.length l.
Proof.
  intros H. unfold removeAt.
  assert (Hi : (i < List.length l)%nat)
    by (apply nth_error_Some; congruence).
  rewrite length_app, length_firstn, length_skipn. lia.
Qed.

Lemma replaceAt_length {A} i (l : list A) t x :
  nth_error l i = Some t -> List.length (replaceAt i x l) = List.length l.
Proof.
  intros H. unfold replaceAt.
  assert (Hi : (i < List.length l)%nat)
    by (apply nth_error_Some; congruence).
  rewrite length_app, length_firstn. cbn [List.length].
  rewrite length_skipn. lia.
Qed.

Lemma nth_error_decompose {A} i (l : list A) t :
  nth_error l i = Some t -> l = firstn i l ++ t :: skipn (S i) l.
Proof.
  revert l. induction i as [|i IH]; intros [|a l]; simpl; try discriminate.
  - now intros [= ->].
  - intros H. f_equal. now apply IH.
Qed.

(** Case analysis of a step [H : step ops opts c st = Some st']. *)
Ltac invert_step H :=
  match type of H with
  | step _ _ ?c ?st = Some ?st' =>
      destruct c as [|i|]; cbn [step] in H;
      [ unfold dequeue in H;
        destruct (st_queue st) as [|op q] eqn:Hqueue; [discriminate|];
        match type of H with
        | context [?a <? ?b] =>
            destruct (Z.ltb_spec a b) as [Hroom|Hroom]; [|discriminate]
        end;
        injection H as <-
      | destruct (nth_error (st_active st) i) as [t|] eqn:Hnth;
          [|discriminate];
        injection H as <-; unfold advance;
        match goal with
        | |- context [loopIter ?o ?r ?a ?l ?w] =>
            destruct (loopIter o r a l w)
              as [[w1 evs] [a1 last1|[res|err]]] eqn:Hiter
        end
      | unfold resume in H;
        destruct (st_phase st) as [| |s0] eqn:Hphase;
        [ destruct (st_queue st) eqn:Hqueue; [|discriminate];
          destruct (st_active st) eqn:Hactive; [|discriminate];
          injection H as <-; unfold enterLoop;
          destruct (st_remaining st) as [|group rest] eqn:Hrem;
          rewrite ?Hqueue, ?Hactive
        | injection H as <-;
          match goal with
          | |- context [stopOnError ?o] =>
              destruct (stopOnError o) eqn:Hstop
          end;
          [ unfold breakLoop
          | unfold enterLoop;
            destruct (st_remaining st) as [|group rest] eqn:Hrem ]
        | discriminate ] ]
  end.

Section CoordinatorFacts.
Context {World : Type} {fs : Fs World}.
Variable ops : list FileOperation.
Variable opts : BatchOptions.
Implicit Types (st : @Coord World) (sched : list Choice) (c : Choice).

Lemma run_app sched1 sched2 st :
  run ops opts (sched1 ++ sched2) st
  = match run ops opts sched1 st with
    | Some st1 => run ops opts sched2 st1
    | None => None
    end.
Proof.
  revert st. induction sched1 as [|c sched1 IH]; intros st; simpl;
    [reflexivity|].
  destruct (step ops opts c st); [apply IH | reflexivity].
Qed.

(** A property kept by every step holds along every schedule. *)
Lemma run_invariant (P : @Coord World -> Prop) :
  (forall c st st', P st -> step ops opts c st = Some st' -> P st') ->
  forall sched st st', P st -> run ops opts sched st = Some st' -> P st'.
Proof.
  intros Hstep. induction sched as [|c sched IH]; intros st st' HP; simpl.
  - now intros [= <-].
  - destruct (step ops opts c st) as [st1|] eqn:E; [|discriminate].
    apply IH. eapply Hstep; eassumption.
Qed.

(** The executor's own events start nothing. *)
Lemma loopIter_starts operation r a last w w1 evs next :
  loopIter operation r a last w = (w1, evs, next) ->
  flat_map (fun e => match e with EvStart op => [op] | _ => [] end) evs = [].
Proof.
  unfold loopIter. destruct (a <=? floor r).
  - destruct (tryBody operation a w) as [w0 [res|e]].
    + now intros [= <- <- <-].
    + destruct (a <? ceil r); now intros [= <- <- <-].
  - now intros [= <- <- <-].
Qed.

Lemma accounted_step c st st' :
  accounted st -> step ops opts c st = Some st' -> accounted st'.
Proof.
  unfold accounted, started. intros Hacc H. invert_step H;
    cbn [st_results st_errors st_active st_log]; try assumption;
    rewrite ?flat_map_app, ?length_app, ?(loopIter_starts _ _ _ _ _ Hiter);
    simpl; try lia.
  - rewrite (replaceAt_length _ _ _ Hnth). lia.
  - pose proof (removeAt_length _ _ Hnth). lia.
  - pose proof (removeAt_length _ _ Hnth). lia.
Qed.

Lemma accounted_start (w : World) : accounted (start ops opts w).
Proof.
  unfold start, enterLoop. cbn [st_remaining].
  destruct (grouped opts ops); reflexivity.
Qed.

Lemma positioned_step c st st' :
  positioned ops opts st -> step ops opts c st = Some st' ->
  positioned ops opts st'.
Proof.
  unfold positioned, started. intros (pre & Hg & Hs) H. invert_step H;
    cbn [st_remaining st_queue st_log];
    rewrite ?flat_map_app, ?(loopIter_starts _ _ _ _ _ Hiter);
    rewrite ?app_nil_r in *;
    try (exists pre; rewrite ?app_nil_r; split; assumption).
  - exists pre. split; [assumption|]. simpl. now rewrite <- app_assoc.
  - exists (pre ++ [group]). split.
    + now rewrite <- app_assoc.
    + rewrite concat_app. simpl. now rewrite app_nil_r, <- Hs.
  - exists (pre ++ [group]). split.
    + now rewrite <- app_assoc.
    + rewrite concat_app, app_assoc, Hs. simpl. now rewrite app_nil_r.
Qed.

Lemma positioned_start (w : World) : positioned ops opts (start ops opts w).
Proof.
  unfold positioned, start, enterLoop, started. cbn [st_remaining].
  destruct (grouped opts ops) as [|group rest] eqn:E;
    cbn [st_remaining st_queue st_log flat_map].
  - now exists [].
  - exists [group]. simpl. now rewrite app_nil_r.
Qed.

Lemma reported_step c st st' :
  reported ops st -> step ops opts c st = Some st' -> reported ops st'.
Proof.
  unfold reported. intros Hrep H. invert_step H;
    cbn [st_phase st_results st_errors]; intros s Hs;
    try (destruct (Hrep s Hs) as (Ht & Hn & Hf & [r Hr] & [e He]);
         repeat split; trivial;
         rewrite ?Hr, ?He, <- ?app_assoc; eauto);
    try congruence;
    try (injection Hs as <-; unfold summarize; cbn;
         repeat split; trivial; exists []; now rewrite app_nil_r).
  - destruct (stopOnError opts); [unfold rejectAll in Hs|];
      destruct (st_phase st) eqn:Hph; try discriminate;
      destruct (Hrep s Hs) as (Ht & Hn & Hf & [r Hr] & [e He]);
      repeat split; trivial; rewrite ?Hr, ?He, <- ?app_assoc; eauto.
Qed.

Lemma reported_start (w : World) : reported ops (start ops opts w).
Proof.
  unfold reported, start, enterLoop. cbn [st_remaining].
  destruct (grouped opts ops); cbn [st_phase]; intros s Hs;
    [|discriminate].
  injection Hs as <-. unfold summarize. cbn.
  repeat split; trivial; now exists [].
Qed.

Lemma drained_step c st st' :
  stopOnError opts = false ->
  drained st -> step ops opts c st = Some st' -> drained st'.
Proof.
  unfold drained. intros Hoff [Hrej Hdone] H. invert_step H;
    cbn [st_phase st_queue st_active st_remaining st_results st_errors];
    rewrite ?Hoff; try congruence;
    (split; [congruence|]); intros s Hs; try congruence;
    try (destruct (Hdone s Hs) as (Hq & Ha & _); congruence);
    try (destruct (Hdone s Hs) as (Hq & Ha & _); rewrite Ha in Hnth;
         destruct i; discriminate).
  injection Hs as <-. now cbn.
Qed.

Lemma drained_start (w : World) : drained (start ops opts w).
Proof.
  unfold drained, start, enterLoop. cbn [st_remaining].
  destruct (grouped opts ops); cbn; (split; [discriminate|]);
    intros s Hs; [|discriminate].
  now injection Hs as <-.
Qed.

Lemma unfailed_step c st st' :
  stopOnError opts = true ->
  unfailed st -> step ops opts c st = Some st' -> unfailed st'.
Proof.
  unfold unfailed. intros Hon Hun H. invert_step H;
    cbn [st_phase st_errors]; rewrite ?Hon; try congruence; auto.
  - destruct (st_phase st); discriminate.
Qed.

Lemma unfailed_start (w : World) : unfailed (start ops opts w).
Proof.
  unfold unfailed, start, enterLoop. cbn [st_remaining].
  now destruct (grouped opts ops).
Qed.

(** A rejection only happens under [stopOnError]: the [else] side of the
    [catch] block is dead. *)
Lemma rejected_step c st st' :
  (st_phase st = Rejected -> stopOnError opts = true) ->
  step ops opts c st = Some st' ->
  st_phase st' = Rejected -> stopOnError opts = true.
Proof.
  intros Hrej H. invert_step H; cbn [st_phase]; try assumption;
    try discriminate.
  destruct (stopOnError opts); [reflexivity | assumption].
Qed.

(** A summary, once built, stays; the arrays only grow. *)
Lemma step_monotone c st st' :
  step ops opts c st = Some st' ->
  (forall s, st_phase st = Done s -> st_phase st' = Done s)
  /\ (exists later, st_results st' = st_results st ++ later)
  /\ (exists later, st_errors st' = st_errors st ++ later)
  /\ (forall s, st_phase st' = Done s ->
        st_phase st = Done s
        \/ (results s = st_results st /\ errors s = st_errors st)).
Proof.
  intros H. invert_step H; cbn [st_phase st_results st_errors];
    repeat split; try congruence;
    try (exists []; now rewrite app_nil_r); eauto;
    try (intros s Hs; injection Hs as <-; now right).
  - intros s Hs. destruct (stopOnError opts); [|assumption].
    now rewrite Hs.
  - intros s Hs. left. destruct (stopOnError opts); [|assumption].
    destruct (st_phase st); try discriminate. assumption.
Qed.

Lemma run_monotone sched : forall st st',
  run ops opts sched st = Some st' ->
  (forall s, st_phase st = Done s -> st_phase st' = Done s)
  /\ (exists later, st_results st' = st_results st ++ later)
  /\ (exists later, st_errors st' = st_errors st ++ later).
Proof.
  induction sched as [|c sched IH]; intros st st'; simpl.
  - intros [= <-]. repeat split; trivial; exists []; now rewrite app_nil_r.
  - destruct (step ops opts c st) as [st1|] eqn:E; [|discriminate].
    intros H. destruct (IH _ _ H) as (Hd & [r Hr] & [e He]).
    destruct (step_monotone _ _ E) as (Hd1 & [r1 Hr1] & [e1 He1] & _).
    repeat split.
    + auto.
    + exists (r1 ++ r). now rewrite Hr, Hr1, app_assoc.
    + exists (e1 ++ e). now rewrite He, He1, app_assoc.
Qed.

(** Outcomes recorded before the call returns are part of the summary. *)
Lemma run_retains sched : forall st st' s,
  run ops opts sched st = Some st' ->
  (forall s0, st_phase st <> Done s0) ->
  st_phase st' = Done s ->
  (exists later, results s = st_results st ++ later)
  /\ (exists later, errors s = st_errors st ++ later).
Proof.
  induction sched as [|c sched IH]; intros st st' s; simpl.
  - intros [= <-] Hnd Hs. now destruct (Hnd s).
  - destruct (step ops opts c st) as [st1|] eqn:E; [|discriminate].
    intros H Hnd Hs.
    destruct (step_monotone _ _ E) as (_ & [r1 Hr1] & [e1 He1] & Hnew).
    destruct (st_phase st1) as [| |s1] eqn:Hph1.
    + destruct (IH st1 st' s H) as ([r Hr] & [e He]);
        [congruence | assumption |].
      split; [exists (r1 ++ r) | exists (e1 ++ e)];
        now rewrite ?Hr, ?He, ?Hr1, ?He1, app_assoc.
    + destruct (IH st1 st' s H) as ([r Hr] & [e He]);
        [congruence | assumption |].
      split; [exists (r1 ++ r) | exists (e1 ++ e)];
        now rewrite ?Hr, ?He, ?Hr1, ?He1, app_assoc.
    + destruct (run_monotone _ _ H) as (Hkeep & _).
      rewrite (Hkeep _ Hph1) in Hs. injection Hs as <-.
      destruct (Hnew s1 eq_refl) as [Hold | [-> ->]];
        [now destruct (Hnd s1)|].
      split; exists []; now rewrite app_nil_r.
Qed.

Lemma In_removeAt {A} i (l : list A) x : In x (removeAt i l) -> In x l.
Proof.
  unfold removeAt. rewrite in_app_iff. intros [H|H].
  - rewrite <- (firstn_skipn i l). apply in_or_app. now left.
  - rewrite <- (firstn_skipn (S i) l). apply in_or_app. now right.
Qed.

Lemma In_replaceAt {A} i (l : list A) x y :
  In x (replaceAt i y l) -> x = y \/ In x l.
Proof.
  unfold replaceAt. rewrite in_app_iff. simpl. intros [H|[H|H]].
  - right. rewrite <- (firstn_skipn i l). apply in_or_app. now left.
  - now left.
  - right. rewrite <- (firstn_skipn (S i) l). apply in_or_app. now right.
Qed.



Lemma condemned_step operation e c st st' :
  0 <= floor (retryAttempts opts) -> alwaysThrows operation e ->
  condemned operation e st -> step ops opts c st = Some st' ->
  condemned operation e st'.
Proof.
  unfold condemned. intros Hr Hthrow (Hact & Hres & Herr) H.
  invert_step H; cbn [st_active st_results st_errors];
    try (split; [|split]; assumption).
  - (* a new task *)
    split; [|split; assumption]. intros t Hin Ht.
    apply in_app_iff in Hin as [Hin|[<-|[]]]; [now apply Hact | now left].
  - (* a failed attempt *)
    split; [|split; assumption]. intros t' Hin Ht'.
    apply In_replaceAt in Hin as [->|Hin]; [|now apply Hact].
    cbn in Ht' |- *. right.
    apply loopIter_continue in Hiter as (_ & _ & _ & w0 & e' & Htry & ->).
    destruct (Hthrow (task_attempt t) (st_world st)) as [w2 Hw2].
    rewrite Ht' in Htry. congruence.
  - (* a success *)
    split; [intros t' Hin; apply Hact; eapply In_removeAt; eassumption|].
    split; [|assumption]. intros r Hin.
    apply in_app_iff in Hin as [Hin|[<-|[]]]; [now apply Hres|].
    cbn. intros Ht.
    destruct (loopIter_settled _ _ _ _ _ Hiter)
      as [(_ & res' & _ & Htry) | (_ & Hout & _)]; [|discriminate].
    destruct (Hthrow (task_attempt t) (st_world st)) as [w2 Hw2].
    rewrite Ht in Htry. congruence.
  - (* the loop is left *)
    split; [intros t' Hin; apply Hact; eapply In_removeAt; eassumption|].
    split; [assumption|]. intros i0 Hin.
    apply in_app_iff in Hin as [Hin|[<-|[]]]; [now apply Herr|].
    cbn. intros Ht. split; [|reflexivity].
    destruct (loopIter_settled _ _ _ _ _ Hiter)
      as [(_ & res' & Hout & _) | (Hlt & [= ->] & _)]; [discriminate|].
    destruct (Hact t (nth_error_In _ _ Hnth) Ht) as [H0 | ->];
      [lia | reflexivity].
Qed.

Lemma condemned_start operation e (w : World) :
  condemned operation e (start ops opts w).
Proof.
  unfold condemned, start, enterLoop. cbn [st_remaining].
  destruct (grouped opts ops); cbn; repeat split; intros; contradiction.
Qed.

Lemma bounded_step c st st' :
  bounded opts st -> step ops opts c st = Some st' -> bounded opts st'.
Proof.
  unfold bounded. intros Hb H. invert_step H; cbn [st_active];
    try assumption; try (now left).
  - right. rewrite length_app. simpl. lia.
  - destruct Hb as [Hb|Hb]; [rewrite Hb in Hnth; destruct i; discriminate|].
    right. now rewrite (replaceAt_length _ _ _ Hnth).
  - destruct Hb as [Hb|Hb]; [rewrite Hb in Hnth; destruct i; discriminate|].
    right. pose proof (removeAt_length _ _ Hnth). lia.
  - destruct Hb as [Hb|Hb]; [rewrite Hb in Hnth; destruct i; discriminate|].
    right. pose proof (removeAt_length _ _ Hnth). lia.
Qed.

Lemma bounded_start (w : World) : bounded opts (start ops opts w).
Proof.
  unfold bounded, start, enterLoop. cbn [st_remaining].
  destruct (grouped opts ops); now left.
Qed.

(** A task that runs with nothing interleaved goes through the executor's
    loop: the coordinator records what [retryLoop] computes. *)
Lemma solo_task fuel : forall op a last st w1 tr out,
  st_active st = [mkTask op a last] ->
  retryLoop fuel op (retryAttempts opts) a last (st_world st) (st_log st)
  = Some (w1, tr, out) ->
  exists k st',
    run ops opts (repeat (Advance 0) k) st = Some st'
    /\ st_world st' = w1 /\ st_active st' = [] /\ st_log st' = tr
    /\ match out with
       | inl res =>
           st_results st' = st_results st ++ [mkSuccess op res "success"]
           /\ st_errors st' = st_errors st
       | inr e =>
           st_results st' = st_results st
           /\ st_errors st'
              = st_errors st ++ [mkErrorInfo op (errorText e) "failed"]
       end.
Proof.
  induction fuel as [|fuel IH]; intros op a last st w1 tr out Hact;
    [discriminate|].
  cbn [retryLoop].
  destruct (loopIter op (retryAttempts opts) a last (st_world st))
    as [[w2 evs] [a1 last1|[res|err]]] eqn:Hiter.
  - intros H.
    destruct (IH op a1 last1
                (mkCoord w2 (st_remaining st) (st_queue st)
                         [mkTask op a1 last1] (st_results st)
                         (st_errors st) (st_phase st) (st_log st ++ evs))
                w1 tr out eq_refl H) as (k & st' & Hrun & Hrest).
    exists (S k), st'. split; [|exact Hrest].
    cbn [repeat run step]. rewrite Hact. cbn [nth_error].
    unfold advance. cbn [task_op task_attempt task_lastError].
    rewrite Hiter, Hact. exact Hrun.
  - intros [= <- <- <-]. exists 1%nat. eexists. split.
    + cbn [repeat run step]. rewrite Hact. cbn [nth_error].
      unfold advance. cbn [task_op task_attempt task_lastError].
      rewrite Hiter. reflexivity.
    + cbn. rewrite Hact. repeat split.
  - intros [= <- <- <-]. exists 1%nat. eexists. split.
    + cbn [repeat run step]. rewrite Hact. cbn [nth_error].
      unfold advance. cbn [task_op task_attempt task_lastError].
      rewrite Hiter. reflexivity.
    + cbn. rewrite Hact. repeat split.
Qed.
End CoordinatorFacts.

(** The groups always rearrange the input. *)
Lemma grouped_perm opts ops : Permutation (List.concat (grouped opts ops)) ops.
Proof.
  unfold grouped. destruct (groupByType opts).
  - rewrite groupOperationsByType_eq.
    apply groups_perm; [apply firstSeen_NoDup|].
    intros op Hin. apply firstSeen_In, in_map, Hin.
  - simpl. now rewrite app_nil_r.
Qed.

Section Reachable.
Context {World : Type} {fs : Fs World}.
Variable ops : list FileOperation.
Variable opts : BatchOptions.
Variable w : World.

(** The invariants hold in every state a schedule reaches. *)
Lemma reachable_accounted sched st :
  run ops opts sched (start ops opts w) = Some st -> accounted st.
Proof.
  apply run_invariant with (P := @accounted World);
    [apply accounted_step | apply accounted_start].
Qed.

Lemma reachable_positioned sched st :
  run ops opts sched (start ops opts w) = Some st -> positioned ops opts st.
Proof.
  apply run_invariant with (P := positioned ops opts);
    [apply positioned_step | apply positioned_start].
Qed.

Lemma reachable_reported sched st :
  run ops opts sched (start ops opts w) = Some st -> reported ops st.
Proof.
  apply run_invariant with (P := reported ops);
    [apply reported_step | apply reported_start].
Qed.

Lemma reachable_drained sched st :
  stopOnError opts = false ->
  run ops opts sched (start ops opts w) = Some st -> drained st.
Proof.
  intros Hoff. apply run_invariant with (P := @drained World);
    [intros c s1 s2; now apply drained_step | apply drained_start].
Qed.

Lemma reachable_unfailed sched st :
  stopOnError opts = true ->
  run ops opts sched (start ops opts w) = Some st -> unfailed st.
Proof.
  intros Hon. apply run_invariant with (P := @unfailed World);
    [intros c s1 s2; now apply unfailed_step | apply unfailed_start].
Qed.

(** No more operations are started than the request holds. *)
Lemma started_bound sched st :
  run ops opts sched (start ops opts w) = Some st ->
  (List.length (started st) + List.length (st_queue st)
   + List.length (List.concat (st_remaining st)))%nat = List.length ops.
Proof.
  intros H. destruct (reachable_positioned _ H) as (pre & Hg & Hs).
  rewrite <- (Permutation_length (grouped_perm opts ops)), Hg.
  rewrite concat_app, length_app, <- Hs, length_app. lia.
Qed.
End Reachable.








(** ** Validation of operations *)

(** An operation printed as JSON parses back to itself: the schema asks
    for nothing beyond the members it declares. *)
Lemma FileOperationSchema_accepts operation :
  FileOperationSchema (Some (jsonOfOperation operation)) = Valid operation.
Proof.
  destruct operation as [ty p c d enc].
  destruct ty, c, d, enc; reflexivity.
Qed.

Lemma BatchRequestSchema_accepts operation :
  BatchRequestSchema
    (Some (JObj [("operations", JArr [jsonOfOperation operation])]))
  = Valid (mkRequest [operation] None).
Proof.
  destruct operation as [ty p c d enc].
  destruct ty, c, d, enc; reflexivity.
Qed.

Lemma reachable_condemned {World : Type} {fs : Fs World}
    ops opts (w : World) operation e sched st :
  0 <= floor (retryAttempts opts) -> alwaysThrows operation e ->
  run ops opts sched (start ops opts w) = Some st ->
  condemned operation e st.
Proof.
  intros Hr Hthrow.
  apply run_invariant with (P := @condemned World operation e);
    [intros c s1 s2; now apply condemned_step | apply condemned_start].
Qed.

(** ** Termination of a batch run *)

Lemma list_sum_removeAt {A} (f : A -> nat) i (l : list A) t :
  nth_error l i = Some t ->
  list_sum (map f l) = (list_sum (map f (removeAt i l)) + f t)%nat.
Proof.
  intros H. rewrite (nth_error_decompose _ _ H) at 1. unfold removeAt.
  rewrite !map_app, !list_sum_app. simpl. lia.
Qed.

Lemma list_sum_replaceAt {A} (f : A -> nat) i (l : list A) t x :
  nth_error l i = Some t ->
  (list_sum (map f (replaceAt i x l)) + f t)%nat
  = (list_sum (map f l) + f x)%nat.
Proof.
  intros H. rewrite (nth_error_decompose _ _ H) at 2. unfold replaceAt.
  rewrite !map_app, !list_sum_app. simpl. lia.
Qed.

Section Termination.
Context {World : Type} {fs : Fs World}.
Variable ops : list FileOperation.
Variable opts : BatchOptions.

Lemma taskWeight_pos a : (1 <= taskWeight opts a)%nat.
Proof. unfold taskWeight. lia. Qed.

Lemma rejectAll_weight ph : phaseWeight (rejectAll ph) = phaseWeight ph.
Proof. now destruct ph. Qed.

(** Every step uses up some of the measure. *)
Lemma measure_step c (st st' : @Coord World) :
  step ops opts c st = Some st' ->
  (measure opts st' < measure opts st)%nat.
Proof.
  intros H. unfold measure. invert_step H;
    cbn [st_phase st_remaining st_queue st_active];
    rewrite ?Hqueue, ?Hactive; unfold opWeight;
    cbn [map List.length phaseWeight].
  - rewrite map_app, list_sum_app. unfold list_sum. simpl. lia.
  - apply loopIter_continue in Hiter as (Ha & -> & _).
    pose proof (@list_sum_replaceAt _
                  (fun t => taskWeight opts (task_attempt t)) i _ _
                  (mkTask (task_op t) (task_attempt t + 1) last1) Hnth) as E.
    cbn [task_attempt] in E. unfold taskWeight in *. lia.
  - rewrite (@list_sum_removeAt _
               (fun t => taskWeight opts (task_attempt t)) _ _ _ Hnth).
    pose proof (taskWeight_pos (task_attempt t)). lia.
  - rewrite (@list_sum_removeAt _
               (fun t => taskWeight opts (task_attempt t)) _ _ _ Hnth).
    pose proof (taskWeight_pos (task_attempt t)).
    destruct (stopOnError opts); rewrite ?rejectAll_weight; lia.
  - unfold list_sum. simpl. lia.
  - rewrite length_app. unfold list_sum. simpl. lia.
  - unfold list_sum. simpl. lia.
  - unfold list_sum. simpl. lia.
  - rewrite length_app. unfold list_sum. simpl. nia.
Qed.

(** A schedule is never longer than the measure of its first state. *)
Lemma run_length sched : forall (st st' : @Coord World),
  run ops opts sched st = Some st' ->
  (List.length sched + measure opts st' <= measure opts st)%nat.
Proof.
  induction sched as [|c sched IH]; intros st st'; simpl.
  - intros [= <-]. lia.
  - destruct (step ops opts c st) as [st1|] eqn:E; [|discriminate].
    intros H. apply IH in H. apply measure_step in E. lia.
Qed.

(** Until the call returns the scheduler has a step to take. *)
Lemma pick_enabled (st : @Coord World) :
  1 <= ceil (maxConcurrent opts) ->
  (forall s, st_phase st <> Done s) ->
  exists c st', pick opts st = Some c /\ step ops opts c st = Some st'.
Proof.
  intros Hmc Hnd. unfold pick.
  destruct (st_phase st) as [| |s] eqn:Hph; [| |now destruct (Hnd s)].
  - destruct (st_queue st) as [|op q] eqn:Hq.
    + destruct (st_active st) as [|t l] eqn:Ha.
      * exists Resume. eexists. split; [reflexivity|].
        cbn. unfold resume. now rewrite Hph, Hq, Ha.
      * exists (Advance 0). eexists. split; [reflexivity|].
        cbn. now rewrite Ha.
    + destruct (Z.ltb_spec (Z.of_nat (List.length (st_active st)))
                           (ceil (maxConcurrent opts))) as [Hlt|Hge].
      * exists Dequeue. eexists. split; [reflexivity|].
        cbn. unfold dequeue. rewrite Hq.
        destruct (Z.ltb_spec (Z.of_nat (List.length (st_active st)))
                             (ceil (maxConcurrent opts))); [reflexivity | lia].
      * destruct (st_active st) as [|t l] eqn:Ha; [simpl in Hge; lia|].
        exists (Advance 0). eexists. split; [reflexivity|].
        cbn. now rewrite Ha.
  - exists Resume. eexists. split; [reflexivity|].
    cbn. unfold resume. now rewrite Hph.
Qed.

(** The first-come-first-served schedule makes the call return. *)
Lemma fifo_returns n : forall (st : @Coord World),
  1 <= ceil (maxConcurrent opts) ->
  (measure opts st <= n)%nat ->
  exists st' s,
    run ops opts (fifo ops opts n st) st = Some st'
    /\ st_phase st' = Done s.
Proof.
  induction n as [|n IH]; intros st Hmc Hm.
  - destruct (st_phase st) as [| |s] eqn:Hph;
      try (unfold measure in Hm; rewrite Hph in Hm; simpl in Hm; lia).
    exists st, s. now split.
  - destruct (st_phase st) as [| |s] eqn:Hph.
    + destruct (pick_enabled st Hmc) as (c & st1 & Hp & Hs);
        [congruence|].
      cbn [fifo]. rewrite Hp, Hs. cbn [run]. rewrite Hs.
      apply IH; [assumption|]. apply measure_step in Hs. lia.
    + destruct (pick_enabled st Hmc) as (c & st1 & Hp & Hs);
        [congruence|].
      cbn [fifo]. rewrite Hp, Hs. cbn [run]. rewrite Hs.
      apply IH; [assumption|]. apply measure_step in Hs. lia.
    + exists st, s. cbn [fifo]. unfold pick. rewrite Hph. now split.
Qed.
End Termination.

(** ** The empty batch *)

Lemma idle_step {World : Type} {fs : Fs World} opts (w : World) c st st' :
  idle w st -> step [] opts c st = Some st' -> idle w st'.
Proof.
  unfold idle. intros (Hw & Hq & Ha & Hr & He & Hl & Hempty) H.
  invert_step H; try congruence;
    try (rewrite Ha in Hnth; destruct i; discriminate);
    cbn [st_world st_queue st_active st_results st_errors st_log
         st_remaining];
    try (inversion Hempty; subst); repeat split; trivial;
    try (constructor; trivial); rewrite ?Hq; reflexivity.
Qed.

Lemma idle_start {World : Type} {fs : Fs World} opts (w : World) :
  idle w (start [] opts w).
Proof.
  unfold idle, start, enterLoop, grouped. cbn [st_remaining].
  destruct (groupByType opts); cbn; repeat split; trivial.
Qed.

(** ** The timeout option *)

Lemma run_ignores_timeout {World : Type} {fs : Fs World}
    ops mc t1 t2 soe ra gbt sched : forall (st : @Coord World),
  run ops (mkOptions mc t1 soe ra gbt) sched st
  = run ops (mkOptions mc t2 soe ra gbt) sched st.
Proof.
  induction sched as [|c sched IH]; intros st; [reflexivity|].
  cbn [run].
  change (step ops (mkOptions mc t2 soe ra gbt) c st)
    with (step ops (mkOptions mc t1 soe ra gbt) c st).
  destruct (step ops (mkOptions mc t1 soe ra gbt) c st); [apply IH|reflexivity].
Qed.

(** C8. [timeoutMs] is validated (a number of at least 1000) and
    defaulted (to 30000) by the options schema, and nothing else reads
    it: two option sets that differ only there make the executor behave
    alike, make every schedule run alike, and give the same summary. *)
Theorem timeout_is_not_enforced {World : Type} {fs : Fs World}
    (ops : list FileOperation) (operation : FileOperation)
    (mc ra : Num) (t1 t2 : Number) (soe gbt : bool) (sched : list Choice)
    (w : World) (n : Number) :
  BatchOptionsSchema (Some (JObj [])) = Valid defaultOptions
  /\ timeoutMs defaultOptions = 30000
  /\ BatchOptionsSchema (Some (JObj [("timeoutMs", JNum n)]))
     = (if lessThan n 1000
        then Invalid [mkIssue "too_small" [Key "timeoutMs"]]
        else Valid (mkOptions 10 n false 1 true))
  /\ executeFileOperation operation (mkOptions mc t1 soe ra gbt) w
     = executeFileOperation operation (mkOptions mc t2 soe ra gbt) w
  /\ run ops (mkOptions mc t1 soe ra gbt) sched
         (start ops (mkOptions mc t1 soe ra gbt) w)
     = run ops (mkOptions mc t2 soe ra gbt) sched
           (start ops (mkOptions mc t2 soe ra gbt) w)
  /\ batchSummary (mkRequest ops (Some (mkOptions mc t1 soe ra gbt))) sched w
     = batchSummary (mkRequest ops (Some (mkOptions mc t2 soe ra gbt)))
                    sched w.
Proof.
  split; [reflexivity|]. split; [reflexivity|].
  split.
  { unfold BatchOptionsSchema, member, zDefault, zNumberMin. cbn.
    destruct (lessThan n 1000); reflexivity. }
  split; [reflexivity|].
  assert (Hrun : run ops (mkOptions mc t1 soe ra gbt) sched
                     (start ops (mkOptions mc t1 soe ra gbt) w)
                 = run ops (mkOptions mc t2 soe ra gbt) sched
                       (start ops (mkOptions mc t2 soe ra gbt) w)).
  { change (start ops (mkOptions mc t2 soe ra gbt) w)
      with (start ops (mkOptions mc t1 soe ra gbt) w).
    apply run_ignores_timeout. }
  split; [exact Hrun|].
  unfold batchSummary. cbn [operations resolveOptions options
    maxConcurrent timeoutMs stopOnError retryAttempts groupByType].
  now rewrite Hrun.
Qed.

(** ** Stopping on the first failure *)

Lemma in_group_type t ops op :
  In op (filter (hasType t) ops) -> type op = t.
Proof. intros H. apply filter_In in H as [_ H]. now apply hasType_true. Qed.

(** No operation belongs to two groups. *)
Lemma grouped_disjoint opts ops pre post op :
  grouped opts ops = pre ++ post ->
  In op (List.concat pre) -> In op (List.concat post) -> False.
Proof.
  unfold grouped. destruct (groupByType opts).
  - rewrite groupOperationsByType_eq. intros E Hpre Hpost.
    apply map_eq_app in E as (ks1 & ks2 & Hks & <- & <-).
    pose proof (firstSeen_NoDup (map type ops)) as Hnd. rewrite Hks in Hnd.
    apply in_concat in Hpre as (g1 & Hg1 & Hin1).
    apply in_concat in Hpost as (g2 & Hg2 & Hin2).
    apply in_map_iff in Hg1 as (t1 & <- & Ht1).
    apply in_map_iff in Hg2 as (t2 & <- & Ht2).
    apply in_group_type in Hin1, Hin2. subst t2.
    rewrite <- Hin1 in Ht1. clear Hin1 Hks.
    induction ks1 as [|k ks1 IH]; [destruct Ht1|].
    inversion Hnd as [|? ? Hk Hrest]; subst.
    destruct Ht1 as [->|Ht1]; [|apply IH; assumption].
    apply Hk, in_or_app. now right.
  - intros E Hpre Hpost. destruct pre as [|g pre].
    + destruct Hpre.
    + injection E as _ E. symmetry in E. apply app_eq_nil in E as [_ ->].
      destruct Hpost.
Qed.

Section Stopping.
Context {World : Type} {fs : Fs World}.
Variable ops : list FileOperation.
Variable opts : BatchOptions.

Lemma loopIter_attempts operation r a last (w w1 : World) evs next op b :
  loopIter operation r a last w = (w1, evs, next) ->
  In (EvAttempt op b) evs -> op = operation.
Proof.
  unfold loopIter. destruct (a <=? floor r).
  - destruct (tryBody operation a w) as [w0 [res|e]].
    + intros [= <- <- <-]. simpl. intuition congruence.
    + destruct (a <? ceil r); intros [= <- <- <-]; simpl; intuition congruence.
  - intros [= <- <- <-] [].
Qed.

Lemma grounded_step c (st st' : @Coord World) :
  grounded st -> step ops opts c st = Some st' -> grounded st'.
Proof.
  unfold grounded, started. intros [Hact Hlog] H. invert_step H;
    cbn [st_active st_log];
    rewrite ?flat_map_app, ?(loopIter_starts _ _ _ _ _ Hiter), ?app_nil_r;
    try (split; assumption).
  - split.
    + intros t Hin. apply in_app_iff in Hin as [Hin|[<-|[]]];
        apply in_or_app; [left; now apply Hact | right; now left].
    + intros op0 a Hin. apply in_app_iff in Hin as [Hin|[Hin|[]]];
        [|discriminate]. apply in_or_app. left. eapply Hlog; eassumption.
  - split.
    + intros t' Hin. apply In_replaceAt in Hin as [->|Hin];
        [|now apply Hact]. cbn. apply Hact. eapply nth_error_In; eassumption.
    + intros op0 a Hin. apply in_app_iff in Hin as [Hin|Hin];
        [eapply Hlog; eassumption|].
      assert (op0 = task_op t) as ->
        by (eapply loopIter_attempts; eassumption).
      apply Hact. eapply nth_error_In; eassumption.
  - split.
    + intros t' Hin. apply Hact. eapply In_removeAt; eassumption.
    + intros op0 a Hin. apply in_app_iff in Hin as [Hin|Hin];
        [eapply Hlog; eassumption|].
      assert (op0 = task_op t) as ->
        by (eapply loopIter_attempts; eassumption).
      apply Hact. eapply nth_error_In; eassumption.
  - split.
    + intros t' Hin. apply Hact. eapply In_removeAt; eassumption.
    + intros op0 a Hin. apply in_app_iff in Hin as [Hin|Hin];
        [eapply Hlog; eassumption|].
      assert (op0 = task_op t) as ->
        by (eapply loopIter_attempts; eassumption).
      apply Hact. eapply nth_error_In; eassumption.
Qed.

Lemma grounded_start (w : World) : grounded (start ops opts w).
Proof.
  unfold grounded, start, enterLoop. cbn [st_remaining].
  destruct (grouped opts ops); cbn; split; intros; contradiction.
Qed.

(** Under [stopOnError], once the coordinator has stopped awaiting it
    submits no further group. *)
Lemma stopped_step c (st st' : @Coord World) :
  stopOnError opts = true -> st_phase st <> Awaiting ->
  step ops opts c st = Some st' ->
  st_phase st' <> Awaiting /\ st_remaining st' = st_remaining st.
Proof.
  intros Hon Hph H. invert_step H; cbn [st_phase st_remaining];
    rewrite ?Hon; try congruence; try (split; [assumption|reflexivity]).
  - split; [|reflexivity]. destruct (st_phase st); discriminate.
  - split; [discriminate | reflexivity].
Qed.

Lemma stopped_run sched : forall (st st' : @Coord World),
  stopOnError opts = true -> st_phase st <> Awaiting ->
  run ops opts sched st = Some st' ->
  st_phase st' <> Awaiting /\ st_remaining st' = st_remaining st.
Proof.
  induction sched as [|c sched IH]; intros st st' Hon Hph; simpl.
  - intros [= <-]. now split.
  - destruct (step ops opts c st) as [st1|] eqn:E; [|discriminate].
    intros H. destruct (stopped_step _ _ Hon Hph E) as [Hph1 Hrem1].
    destruct (IH _ _ Hon Hph1 H) as [Hph' Hrem']. split; congruence.
Qed.
End Stopping.

Lemma reachable_grounded {World : Type} {fs : Fs World}
    ops opts (w : World) sched st :
  run ops opts sched (start ops opts w) = Some st -> grounded st.
Proof.
  apply run_invariant with (P := @grounded World);
    [apply grounded_step | apply grounded_start].
Qed.

(** Nor does the stop empty the limiter's queue: with one operation at a
    time, the create queued behind the failing delete is started, and
    writes its file, after the summary was returned. *)
Lemma stop_does_not_empty_queue :
  exists st s st',
    run [Mem.deleteMissing; Mem.createA] Mem.stoppingSerial
        [Dequeue; Advance 0; Advance 0; Resume]
        (start [Mem.deleteMissing; Mem.createA] Mem.stoppingSerial
               ([] : Mem.World)) = Some st
    /\ st_phase st = Done s
    /\ started st = [Mem.deleteMissing]
    /\ st_queue st = [Mem.createA]
    /\ run [Mem.deleteMissing; Mem.createA] Mem.stoppingSerial
           [Dequeue; Advance 0] st = Some st'
    /\ started st' = [Mem.deleteMissing; Mem.createA]
    /\ st_world st' = [("/tmp/a.txt", "hi")]
    /\ st_phase st' = Done s
    /\ successful s + failed s = 1.
Proof.
  do 3 eexists. split; [vm_compute; reflexivity|].
  split; [reflexivity|]. split; [reflexivity|]. split; [reflexivity|].
  split; [vm_compute; reflexivity|].
  repeat split.
Qed.

(** ** The tool boundary *)

Lemma pmap_valid {A B} (f : A -> B) (p : Parsed A) b :
  pmap f p = Valid b -> exists a, p = Valid a /\ b = f a.
Proof. destruct p; simpl; [intros [= <-]; eauto | discriminate]. Qed.

Lemma pap_valid {A B} (pf : Parsed (A -> B)) (pa : Parsed A) b :
  pap pf pa = Valid b -> exists f a, pf = Valid f /\ pa = Valid a /\ b = f a.
Proof.
  destruct pf, pa; simpl; try discriminate. intros [= <-]. eauto.
Qed.

Lemma under_valid {A} e (p : Parsed A) a : under e p = Valid a -> p = Valid a.
Proof. destruct p; simpl; [trivial | discriminate]. Qed.

(** A number that passes [min] and [max], or the default. *)
Lemma zNumber_valid lo hi d v n :
  zDefault (zNumber lo hi) d v = Valid n ->
  n = d \/ (lo <= floor n /\ ceil n <= hi).
Proof.
  unfold zDefault, zNumber.
  destruct v as [[| |[m|[|]]| | |]|]; try discriminate.
  - destruct (Z.ltb_spec (floor m) lo); [discriminate|].
    destruct (Z.ltb_spec hi (ceil m)); [discriminate|]. intros [= <-].
    right. lia.
  - intros [= <-]. now left.
Qed.

(** A number that passes [min], or the default. *)
Lemma zNumberMin_valid lo d v n :
  zDefault (zNumberMin lo) d v = Valid n -> n = d \/ lessThan n lo = false.
Proof.
  unfold zDefault, zNumberMin. destruct v as [[| |m| | |]|]; try discriminate.
  - destruct (lessThan m lo) eqn:E; [discriminate|]. intros [= <-].
    now right.
  - intros [= <-]. now left.
Qed.

Lemma BatchOptionsSchema_valid v o :
  BatchOptionsSchema v = Valid o -> validOptions o.
Proof.
  unfold BatchOptionsSchema. destruct v as [[| | | | |fields]|];
    try discriminate.
  intros H.
  apply pap_valid in H as (f4 & gbt & H & _ & ->).
  apply pap_valid in H as (f3 & ra & H & Hra & ->).
  apply pap_valid in H as (f2 & soe & H & _ & ->).
  apply pap_valid in H as (f1 & tm & H & Htm & ->).
  apply pmap_valid in H as (mc & Hmc & ->).
  apply under_valid, zNumber_valid in Hmc, Hra.
  apply under_valid, zNumberMin_valid in Htm.
  unfold validOptions.
  cbn [maxConcurrent timeoutMs stopOnError retryAttempts groupByType].
  destruct Hmc as [->|Hmc], Htm as [->|Htm], Hra as [->|Hra];
    cbn [floor ceil]; repeat split; try assumption; try reflexivity; lia.
Qed.

Lemma BatchRequestSchema_valid args request :
  BatchRequestSchema args = Valid request ->
  validOptions (resolveOptions request).
Proof.
  unfold BatchRequestSchema. destruct args as [[| | | | |fields]|];
    try discriminate.
  intros H.
  apply pap_valid in H as (f & o & H & Ho & ->).
  apply pmap_valid in H as (l & _ & ->).
  unfold resolveOptions. cbn [options].
  destruct o as [o|]; [|unfold validOptions; cbn; lia].
  apply under_valid in Ho. unfold zOptional in Ho.
  destruct (prop "options" fields) as [j|]; [|discriminate].
  apply pmap_valid in Ho as (o' & Ho' & [= ->]).
  apply BatchOptionsSchema_valid in Ho'. now destruct o'.
Qed.

(** ** The order of the groups and the record of every operation *)

Section OrderFacts.
Context {World : Type} {fs : Fs World}.
Variable ops : list FileOperation.
Variable opts : BatchOptions.
Implicit Types (st : @Coord World) (c : Choice).

Lemma map_task_op_replaceAt i (l : list Task) t a last :
  nth_error l i = Some t ->
  map task_op (replaceAt i (mkTask (task_op t) a last) l) = map task_op l.
Proof.
  intros Hnth. rewrite (nth_error_decompose _ _ Hnth) at 2.
  unfold replaceAt. now rewrite !map_app.
Qed.

Lemma map_task_op_removeAt i (l : list Task) t :
  nth_error l i = Some t ->
  Permutation (map task_op l) (task_op t :: map task_op (removeAt i l)).
Proof.
  intros Hnth. rewrite (nth_error_decompose _ _ Hnth) at 1.
  unfold removeAt. rewrite !map_app. cbn [map].
  symmetry. apply Permutation_middle.
Qed.

Lemma recorded_step c st st' :
  recorded st -> step ops opts c st = Some st' -> recorded st'.
Proof.
  unfold recorded, settledOps, started. intros Hrec H. revert Hrec.
  invert_step H; cbn [st_results st_errors st_active st_log];
    rewrite ?flat_map_app, ?(loopIter_starts _ _ _ _ _ Hiter), ?app_nil_r,
      ?map_app;
    cbn [flat_map map app]; intros Hrec; try exact Hrec.
  - (* the limiter starts an operation *)
    rewrite !app_assoc. apply Permutation_app_tail. exact Hrec.
  - (* a failed attempt *)
    now rewrite (@map_task_op_replaceAt i (st_active st) t a1 last1 Hnth).
  - (* a success *)
    etransitivity; [|exact Hrec].
    rewrite (@map_task_op_removeAt i (st_active st) t Hnth).
    cbn [sr_operation]. rewrite <- !app_assoc.
    apply Permutation_app_head. cbn [app]. apply Permutation_middle.
  - (* the loop is left *)
    etransitivity; [|exact Hrec].
    rewrite (@map_task_op_removeAt i (st_active st) t Hnth).
    cbn [ei_operation]. rewrite <- !app_assoc.
    do 2 apply Permutation_app_head. reflexivity.
Qed.

Lemma sequenced_step c st st' :
  (st_phase st = Rejected -> stopOnError opts = true) ->
  (stopOnError opts = true -> unfailed st) ->
  sequenced ops opts st -> step ops opts c st = Some st' ->
  sequenced ops opts st'.
Proof.
  unfold sequenced, settledOps, unfailed. intros Hrej Hunf Hseq H.
  revert Hrej Hunf Hseq.
  invert_step H;
    cbn [st_results st_errors st_active st_queue st_remaining st_phase];
    rewrite ?Hqueue, ?Hactive, ?Hrem;
    intros Hrej Hunf
      [(Hg & Hr & Hq & Ha & Hres & Herr)
      |(earlier & g & done & Hg & Hset & Hcur & Hin)];
    try discriminate;
    try (rewrite Ha in Hnth; destruct i; discriminate);
    try (specialize (Hrej eq_refl); congruence).
  - (* the limiter starts an operation *)
    right. exists earlier, g, done. split; [exact Hg|].
    split; [exact Hset|]. split; [|exact Hin].
    rewrite <- Hcur, map_app. cbn [map task_op].
    apply Permutation_app_head. rewrite <- app_assoc.
    apply Permutation_app_head. cbn [app]. reflexivity.
  - (* a failed attempt *)
    right. exists earlier, g, done. split; [exact Hg|].
    split; [exact Hset|]. split; [|exact Hin].
    now rewrite (@map_task_op_replaceAt i (st_active st) t a1 last1 Hnth).
  - (* a success *)
    right. exists earlier, g, (done ++ [task_op t]). split; [exact Hg|].
    split; [|split].
    + rewrite map_app. cbn [map sr_operation].
      rewrite app_assoc, <- Hset, <- !app_assoc.
      apply Permutation_app_head. apply Permutation_app_comm.
    + rewrite <- Hcur,
        (@map_task_op_removeAt i (st_active st) t Hnth), <- !app_assoc.
      apply Permutation_app_head. reflexivity.
    + intros Hon e He. apply in_or_app. left. now apply Hin.
  - (* the loop is left *)
    right. exists earlier, g, (done ++ [task_op t]). split; [exact Hg|].
    split; [|split].
    + rewrite map_app. cbn [map ei_operation].
      now rewrite !app_assoc, <- Hset.
    + rewrite <- Hcur,
        (@map_task_op_removeAt i (st_active st) t Hnth), <- !app_assoc.
      apply Permutation_app_head. reflexivity.
    + intros Hon e He. apply in_app_iff in He as [He|[<-|[]]];
        apply in_or_app; [left; now apply Hin | right; now left].
  - (* no group at all *)
    left. now repeat split.
  - (* the loop of the groups ends *)
    right. exists earlier, g, done. now repeat split.
  - (* the next group is submitted *)
    right. cbn [app] in Hcur.
    exists (earlier ++ [g]), group, []. split; [|split; [|split]].
    + now rewrite <- app_assoc.
    + rewrite concat_app, app_nil_r. cbn [List.concat].
      rewrite app_nil_r, Hset. apply Permutation_app_head.
      rewrite app_nil_r in Hcur. exact Hcur.
    + reflexivity.
    + intros Hon e He. rewrite (Hunf Hon eq_refl) in He. destruct He.
  - (* the catch block *)
    left. now repeat split.
  - right. exists earlier, g, done. now repeat split.
Qed.

Lemma recorded_start (w : World) : recorded (start ops opts w).
Proof.
  unfold recorded, settledOps, started, start, enterLoop.
  cbn [st_remaining]. now destruct (grouped opts ops).
Qed.
Lemma sequenced_start (w : World) : sequenced ops opts (start ops opts w).
Proof.
  unfold sequenced, settledOps, start, enterLoop. cbn [st_remaining].
  destruct (grouped opts ops) as [|g rest];
    cbn [st_remaining st_queue st_active st_results st_errors map app];
    [left; now repeat split|].
  right. exists [], g, []. cbn [app List.concat].
  repeat split; try reflexivity. intros _ e [].
Qed.

Lemma reachable_sequenced (w : World) sched st :
  run ops opts sched (start ops opts w) = Some st -> sequenced ops opts st.
Proof.
  intros Hrun.
  assert (H : sequenced ops opts st
              /\ (st_phase st = Rejected -> stopOnError opts = true)
              /\ (stopOnError opts = true -> unfailed st)).
  { revert Hrun.
    apply run_invariant
      with (P := fun s => sequenced ops opts s
                          /\ (st_phase s = Rejected -> stopOnError opts = true)
                          /\ (stopOnError opts = true -> unfailed s)).
    - intros c s s' (Hseq & Hrej & Hunf) Hstep. split; [|split].
      + eapply sequenced_step; eassumption.
      + eapply rejected_step; eassumption.
      + intros Hon. eapply unfailed_step; eauto.
    - split; [apply sequenced_start|]. split.
      + unfold start, enterLoop. cbn [st_remaining].
        destruct (grouped opts ops); discriminate.
      + intros _. apply unfailed_start. }
  apply H.
Qed.

Lemma reachable_recorded (w : World) sched st :
  run ops opts sched (start ops opts w) = Some st -> recorded st.
Proof.
  apply run_invariant with (P := @recorded World).
  - intros c s s'. apply recorded_step.
  - apply recorded_start.
Qed.
End OrderFacts.

(** C6. A [copy] or [move] without a destination passes the request
    validator, and whatever the retry count its execution throws the
    destination-required error.  In a batch it is never recorded as a
    success; once the limiter has started it, it is in flight or its
    failure record, which carries that message, is in the errors array;
    without [stopOnError] every summary returned holds that record; and
    there is a schedule under which the call returns with it. *)
Theorem missing_destination_fails {World : Type} {fs : Fs World}
    (operation : FileOperation) (opts : BatchOptions) (w : World) :
  needsDestination operation = true ->
  destination operation = None ->
  0 <= floor (retryAttempts opts) ->
  FileOperationSchema (Some (jsonOfOperation operation)) = Valid operation
  /\ BatchRequestSchema
       (Some (JObj [("operations", JArr [jsonOfOperation operation])]))
     = Valid (mkRequest [operation] None)
  /\ (exists w1 trace,
        executeFileOperation operation opts w
        = Some (w1, trace,
                inr (JsError (destinationRequired (type operation)))))
  /\ (forall ops sched st,
        run ops opts sched (start ops opts w) = Some st ->
        (forall r, In r (st_results st) -> sr_operation r <> operation)
        /\ (forall i, In i (st_errors st) -> ei_operation i = operation ->
              ei_error i = destinationRequired (type operation)
              /\ ei_status i = "failed")
        /\ (In operation (started st) ->
            (exists t, In t (st_active st) /\ task_op t = operation)
            \/ In (mkErrorInfo operation
                               (destinationRequired (type operation))
                               "failed")
                  (st_errors st))
        /\ (stopOnError opts = false -> In operation ops ->
            forall s, st_phase st = Done s ->
              In (mkErrorInfo operation
                              (destinationRequired (type operation))
                              "failed")
                 (errors s)))
  /\ (1 <= ceil (maxConcurrent opts) -> stopOnError opts = false ->
      forall ops, In operation ops ->
        exists sched st s,
          run ops opts sched (start ops opts w) = Some st
          /\ st_phase st = Done s
          /\ In (mkErrorInfo operation
                             (destinationRequired (type operation))
                             "failed")
                (errors s)).
Proof.
  intros Hty Hd Hr.
  assert (Hthrow : alwaysThrows (World := World) operation
                     (JsError (destinationRequired (type operation)))).
  { intros a w0. exists w0. now apply tryBody_no_destination. }
  assert (Hbatch : forall ops sched st,
    run ops opts sched (start ops opts w) = Some st ->
    (forall r, In r (st_results st) -> sr_operation r <> operation)
    /\ (forall i, In i (st_errors st) -> ei_operation i = operation ->
          ei_error i = destinationRequired (type operation)
          /\ ei_status i = "failed")
    /\ (In operation (started st) ->
        (exists t, In t (st_active st) /\ task_op t = operation)
        \/ In (mkErrorInfo operation (destinationRequired (type operation))
                           "failed")
              (st_errors st))
    /\ (stopOnError opts = false -> In operation ops ->
        forall s, st_phase st = Done s ->
          In (mkErrorInfo operation (destinationRequired (type operation))
                          "failed")
             (errors s))).
  { intros ops sched st Hrun.
    destruct (@reachable_condemned _ _ ops opts w operation _ sched st
                Hr Hthrow Hrun) as (_ & Hres & Herr).
    assert (Hstarted :
      In operation (started st) ->
      (exists t, In t (st_active st) /\ task_op t = operation)
      \/ In (mkErrorInfo operation (destinationRequired (type operation))
                         "failed")
            (st_errors st)).
    { intros Hin.
      pose proof (reachable_recorded _ _ _ _ Hrun) as Hrec.
      apply (Permutation_in _ (Permutation_sym Hrec)) in Hin.
      unfold settledOps in Hin. rewrite !in_app_iff in Hin.
      destruct Hin as [[Hin|Hin]|Hin].
      - apply in_map_iff in Hin as (r & Hop & Hin).
        now destruct (Hres r Hin).
      - apply in_map_iff in Hin as (e & Hop & Hin). right.
        destruct (Herr e Hin Hop) as [Hm Hs].
        destruct e as [o m s]. cbn in *. now subst.
      - apply in_map_iff in Hin as (t & Hop & Hin). left. now exists t. }
    split; [exact Hres|]. split; [exact Herr|]. split; [exact Hstarted|].
    intros Hoff Hin s Hs.
    destruct (reachable_drained _ _ _ _ Hoff Hrun) as [_ Hdr].
    destruct (Hdr s Hs) as (Hq & Ha & Hrem & _ & ->).
    destruct (reachable_positioned _ _ _ _ Hrun) as (sub & Hg & Hpos).
    rewrite Hrem, app_nil_r in Hg. rewrite Hq, app_nil_r, <- Hg in Hpos.
    destruct Hstarted as [(t & Ht & _)|Hrec].
    - rewrite Hpos.
      now apply (Permutation_in _ (Permutation_sym (grouped_perm opts ops))).
    - now rewrite Ha in Ht.
    - exact Hrec. }
  split; [apply FileOperationSchema_accepts|].
  split; [apply BatchRequestSchema_accepts|].
  split; [|split; [exact Hbatch|]].
  - apply retryLoop_always_fails;
      [assumption | lia | intros; lia | unfold loopFuel; lia].
  - intros Hmc Hoff ops Hin.
    destruct (@fifo_returns _ _ ops opts (measure opts (start ops opts w))
                (start ops opts w) Hmc (le_n _)) as (st & s & Hrun & Hs).
    exists (fifo ops opts (measure opts (start ops opts w))
                 (start ops opts w)), st, s.
    split; [exact Hrun|]. split; [exact Hs|].
    destruct (Hbatch ops _ st Hrun) as (_ & _ & _ & Hsum).
    now apply Hsum.
Qed.

(** A batch of one copy without destination, with the defaults: the call
    returns, and the summary holds the failure record. *)
Lemma missing_destination_fails_witness :
  exists sched st s,
    run [Mem.op copy "/tmp/a.txt"] defaultOptions sched
        (start [Mem.op copy "/tmp/a.txt"] defaultOptions ([] : Mem.World))
    = Some st
    /\ st_phase st = Done s
    /\ In (mkErrorInfo (Mem.op copy "/tmp/a.txt")
                       "Destination required for copy" "failed")
          (errors s).
Proof.
  assert (Hr : 0 <= floor (retryAttempts defaultOptions)) by (simpl; lia).
  assert (Hmc : 1 <= ceil (maxConcurrent defaultOptions)) by (simpl; lia).
  destruct (@missing_destination_fails _ Mem.fs (Mem.op copy "/tmp/a.txt")
              defaultOptions [] eq_refl eq_refl Hr)
    as (_ & _ & _ & _ & Hret).
  exact (Hret Hmc eq_refl [Mem.op copy "/tmp/a.txt"] (or_introl eq_refl)).
Defined.

(** C5, as the coordinator has it.  Under [stopOnError], in every state a
    schedule reaches: (a) a task that leaves its loop with an error gets
    its failure record and the coordinator stops awaiting; (b) once a
    failure is recorded the groups are some earlier ones, whose
    operations have all succeeded, the group [g] that holds every failed
    operation, and the groups not reached; from then on the coordinator
    never awaits again, the groups after [g] stay unreached, and none of
    their operations is ever started or tried; (c) after the rejection the
    coordinator returns at once, without waiting for the rest of the
    group; (d) every outcome recorded before the return is in the summary;
    (e) the summary has [total] equal to the number of operations, counts
    at most that many outcomes, and is not altered by what settles later;
    (f) the outcomes counted can be fewer than [total]. *)
Theorem stop_on_error {World : Type} {fs : Fs World}
    (ops : list FileOperation) (opts : BatchOptions) (w : World)
    (sched : list Choice) (st : Coord) :
  stopOnError opts = true ->
  run ops opts sched (start ops opts w) = Some st ->
  (forall i t w1 evs err,
     nth_error (st_active st) i = Some t ->
     loopIter (task_op t) (retryAttempts opts) (task_attempt t)
              (task_lastError t) (st_world st)
     = (w1, evs, Settled (inr err)) ->
     exists st',
       step ops opts (Advance i) st = Some st'
       /\ st_errors st'
          = st_errors st ++ [mkErrorInfo (task_op t) (errorText err) "failed"]
       /\ st_phase st' <> Awaiting)
  /\ (st_errors st <> [] ->
      st_phase st <> Awaiting
      /\ (exists earlier g,
            grouped opts ops = earlier ++ g :: st_remaining st
            /\ (forall e, In e (st_errors st) -> In (ei_operation e) g)
            /\ (forall op, In op (List.concat earlier) ->
                  exists r, In r (st_results st) /\ sr_operation r = op))
      /\ forall sched' st',
           run ops opts sched' st = Some st' ->
           st_phase st' <> Awaiting
           /\ st_remaining st' = st_remaining st
           /\ forall op, In op (List.concat (st_remaining st)) ->
                ~ In op (started st')
                /\ forall a, ~ In (EvAttempt op a) (st_log st'))
  /\ (st_phase st = Rejected ->
      step ops opts Resume st = Some (breakLoop ops st)
      /\ st_phase (breakLoop ops st) = Done (summarize ops st))
  /\ (forall sched' st' s,
        (forall s0, st_phase st <> Done s0) ->
        run ops opts sched' st = Some st' ->
        st_phase st' = Done s ->
        (exists later, results s = st_results st ++ later)
        /\ (exists later, errors s = st_errors st ++ later))
  /\ (forall s,
        st_phase st = Done s ->
        total s = Z.of_nat (List.length ops)
        /\ successful s + failed s <= total s
        /\ forall sched' st',
             run ops opts sched' st = Some st' -> st_phase st' = Done s)
  /\ (exists st0 s0,
        run [Mem.deleteMissing; Mem.deleteOther] Mem.stopping
            [Dequeue; Dequeue; Advance 0; Advance 1; Advance 0; Advance 0;
             Resume]
            (start [Mem.deleteMissing; Mem.deleteOther] Mem.stopping
                   ([] : Mem.World)) = Some st0
        /\ st_phase st0 = Done s0
        /\ successful s0 + failed s0 < total s0).
Proof.
  intros Hon Hrun.
  split; [|split; [|split; [|split; [|split]]]].
  - intros i t w1 evs err Hnth Hiter. eexists.
    cbn [step]. rewrite Hnth. unfold advance. rewrite Hiter.
    split; [reflexivity|]. cbn [st_errors st_phase].
    split; [reflexivity|]. rewrite Hon.
    destruct (st_phase st); discriminate.
  - intros Herr.
    assert (Hph : st_phase st <> Awaiting).
    { intros Hph. apply Herr.
      exact (reachable_unfailed _ _ _ _ Hon Hrun Hph). }
    split; [assumption|]. split.
    { destruct (reachable_sequenced _ _ _ _ Hrun)
        as [(_ & _ & _ & _ & _ & He)
           |(earlier & g & done & Hg & Hset & Hcur & Hin)];
        [contradiction|].
      assert (Hdone : forall op, In op done -> In op g).
      { intros op Hop. eapply Permutation_in; [exact Hcur|].
        apply in_or_app. now left. }
      exists earlier, g. split; [exact Hg|]. split.
      - intros e He. apply Hdone. now apply Hin.
      - intros op Hop.
        assert (Hs : In op (settledOps st)).
        { eapply Permutation_in; [symmetry; exact Hset|].
          apply in_or_app. now left. }
        unfold settledOps in Hs. apply in_app_iff in Hs as [Hs|Hs].
        + apply in_map_iff in Hs as (r & <- & Hr). now exists r.
        + apply in_map_iff in Hs as (e & <- & He). exfalso.
          apply (@grouped_disjoint opts ops earlier (g :: st_remaining st)
                   (ei_operation e) Hg Hop).
          cbn [List.concat]. apply in_or_app. left.
          apply Hdone. now apply Hin. }
    intros sched' st' Hrun'.
    destruct (@stopped_run _ _ ops opts sched' st st' Hon Hph Hrun')
      as [Hph' Hrem'].
    split; [assumption|]. split; [assumption|].
    assert (Hall : run ops opts (sched ++ sched') (start ops opts w)
                   = Some st') by now rewrite run_app, Hrun.
    destruct (reachable_positioned _ _ _ _ Hall) as (pre & Hg & Hs).
    destruct (reachable_grounded _ _ _ _ Hall) as [_ Hlog].
    intros op Hop.
    assert (Hns : ~ In op (started st')).
    { intros Hin. rewrite Hrem' in Hg.
      apply (@grouped_disjoint opts ops pre (st_remaining st) op Hg);
        [|assumption].
      rewrite <- Hs. apply in_or_app. now left. }
    split; [assumption|]. intros a Hin. apply Hns. eapply Hlog; eassumption.
  - intros Hph. cbn [step]. unfold resume. rewrite Hph, Hon.
    split; reflexivity.
  - intros sched' st' s Hnd Hrun' Hs. eapply run_retains; eassumption.
  - intros s Hs.
    pose proof (reachable_reported _ _ _ _ Hrun) as Hrep.
    destruct (Hrep s Hs) as (Ht & Hn & Hf & [r Hr] & [e He]).
    pose proof (reachable_accounted _ _ _ _ Hrun) as Hacc.
    pose proof (started_bound _ _ _ _ Hrun) as Hb.
    unfold accounted in Hacc. rewrite Hr, He, !length_app in Hacc.
    split; [assumption|]. split; [lia|].
    intros sched' st' Hrun'.
    destruct (@run_monotone _ _ ops opts sched' st st' Hrun') as [Hkeep _].
    now apply Hkeep.
  - eexists. eexists. split; [vm_compute; reflexivity|].
    split; [reflexivity|]. reflexivity.
Qed.

(** A failing delete stops a run before the group of the create is
    reached: the summary counts one of two operations, and the create is
    never started. *)
Lemma stop_on_error_witness :
  exists st s,
    run [Mem.deleteMissing; Mem.createA] Mem.stopping
        [Dequeue; Advance 0; Advance 0; Advance 0; Resume]
        (start [Mem.deleteMissing; Mem.createA] Mem.stopping
               ([] : Mem.World)) = Some st
    /\ st_phase st = Done s
    /\ total s = 2
    /\ successful s + failed s <= total s
    /\ st_remaining st = [[Mem.createA]]
    /\ (exists earlier g,
          grouped Mem.stopping [Mem.deleteMissing; Mem.createA]
          = earlier ++ g :: [[Mem.createA]]
          /\ forall e, In e (st_errors st) -> In (ei_operation e) g)
    /\ forall sched' st',
         run [Mem.deleteMissing; Mem.createA] Mem.stopping sched' st
         = Some st' ->
         ~ In Mem.createA (started st').
Proof.
  eexists. eexists. split; [vm_compute; reflexivity|].
  split; [reflexivity|].
  destruct (@stop_on_error _ Mem.fs [Mem.deleteMissing; Mem.createA]
              Mem.stopping []
              [Dequeue; Advance 0; Advance 0; Advance 0; Resume] _
              eq_refl eq_refl) as (_ & Hstop & _ & _ & Hsum & _).
  destruct (Hsum _ eq_refl) as (Ht & Hle & _).
  split; [exact Ht|]. split; [exact Hle|]. split; [reflexivity|].
  destruct Hstop as (_ & (earlier & g & Hg & He & _) & Hlater);
    [discriminate|].
  split.
  - exists earlier, g. split; [exact Hg | exact He].
  - intros sched' st' Hrun'.
    destruct (Hlater sched' st' Hrun') as (_ & _ & Hnever).
    apply (Hnever Mem.createA). now left.
Defined.

(** C5 as stated fails where it has the rest of the group aborted: two
    deletes are in flight together and a create waits in the next group;
    the delete of the missing file fails and the summary is returned with
    that one failure; the other delete, still in flight, then removes its
    file, while the group of the create is never reached. *)
Lemma stop_does_not_abort_in_flight :
  exists st s st',
    run [Mem.deleteMissing; Mem.deleteOther; Mem.createA] Mem.stopping
        [Dequeue; Dequeue; Advance 0; Advance 0; Advance 0; Resume]
        (start [Mem.deleteMissing; Mem.deleteOther; Mem.createA]
               Mem.stopping
               ([("/tmp/other.txt", "x")] : Mem.World)) = Some st
    /\ grouped Mem.stopping
         [Mem.deleteMissing; Mem.deleteOther; Mem.createA]
       = [[Mem.deleteMissing; Mem.deleteOther]; [Mem.createA]]
    /\ st_phase st = Done s
    /\ map ei_operation (errors s) = [Mem.deleteMissing]
    /\ st_active st = [mkTask Mem.deleteOther 0 None]
    /\ st_world st = [("/tmp/other.txt", "x")]
    /\ ~ In (EvAttempt Mem.deleteOther 0) (st_log st)
    /\ step [Mem.deleteMissing; Mem.deleteOther; Mem.createA] Mem.stopping
            (Advance 0) st = Some st'
    /\ st_world st' = []
    /\ In (EvAttempt Mem.deleteOther 0) (st_log st')
    /\ st_phase st' = Done s
    /\ st_remaining st' = [[Mem.createA]].
Proof.
  do 3 eexists. split; [vm_compute; reflexivity|].
  split; [reflexivity|].
  split; [reflexivity|]. split; [reflexivity|]. split; [reflexivity|].
  split; [reflexivity|].
  split; [simpl; intuition discriminate|].
  split; [vm_compute; reflexivity|].
  split; [reflexivity|]. split; [simpl; auto 10|].
  split; reflexivity.
Qed.


(** The limiter accepts a validated concurrency exactly when it is an
    integer. *)
Lemma pLimit_valid (x : Num) :
  1 <= floor x ->
  pLimit x = if isInteger x then inl (floor x) else inr concurrencyError.
Proof.
  destruct x as [n|below part]; cbn [pLimit isInteger floor]; intros H;
    [|reflexivity].
  now destruct (Z.leb_spec 1 n); [|lia].
Qed.

(** C7, as the handler has it.  A call of [batch_file_operations] answers
    a text payload under every schedule: [Error: <message>] with the
    validator's message when the arguments do not fit the schema and with
    the limiter's message when it refuses the concurrency, the summary
    otherwise.  For validated arguments the handler throws nothing but
    that refusal, which happens exactly when [maxConcurrent] is not an
    integer; with an integer some schedule makes the call return.  Every
    operation that leaves its loop with an error gets a failure record;
    the failures recorded before the coordinator returns are in the
    summary; and without [stopOnError] the summary holds the outcome of
    every operation.  Whatever a handler throws, the boundary answers
    [Error: <message>]. *)
Theorem failures_do_not_propagate
    {World : Type} {fs : Fs World} {host : Host}
    (args : option Json) (w : World) :
  (forall sched,
     callTool "batch_file_operations" args sched w
     = match BatchRequestSchema args with
       | Invalid issues =>
           Some (TextContent ("Error: " ++ zodMessage issues))
       | Valid request =>
           match pLimit (maxConcurrent (resolveOptions request)) with
           | inr error => Some (TextContent ("Error: " ++ errorText error))
           | inl _ =>
               option_map
                 (fun s => TextContent (stringify (jsonOfSummary s)))
                 (batchSummary request sched w)
           end
       end)
  /\ (forall request,
        BatchRequestSchema args = Valid request ->
        (forall sched e,
           handleBatchFileOperations args sched w = Some (inr e) ->
           e = concurrencyError
           /\ isInteger (maxConcurrent (resolveOptions request)) = false)
        /\ (isInteger (maxConcurrent (resolveOptions request)) = false ->
            forall sched,
              handleBatchFileOperations args sched w
              = Some (inr concurrencyError))
        /\ (isInteger (maxConcurrent (resolveOptions request)) = true ->
            exists sched s,
              batchSummary request sched w = Some s
              /\ callTool "batch_file_operations" args sched w
                 = Some (TextContent (stringify (jsonOfSummary s))))
        /\ (forall sched st i t w1 evs err,
              run (operations request) (resolveOptions request) sched
                  (start (operations request) (resolveOptions request) w)
              = Some st ->
              nth_error (st_active st) i = Some t ->
              loopIter (task_op t) (retryAttempts (resolveOptions request))
                       (task_attempt t) (task_lastError t) (st_world st)
              = (w1, evs, Settled (inr err)) ->
              exists st',
                step (operations request) (resolveOptions request)
                     (Advance i) st = Some st'
                /\ st_errors st'
                   = st_errors st
                     ++ [mkErrorInfo (task_op t) (errorText err) "failed"])
        /\ (forall sched sched' st st' s,
              run (operations request) (resolveOptions request) sched
                  (start (operations request) (resolveOptions request) w)
              = Some st ->
              (forall s0, st_phase st <> Done s0) ->
              run (operations request) (resolveOptions request) sched' st
              = Some st' ->
              st_phase st' = Done s ->
              exists later, errors s = st_errors st ++ later)
        /\ (stopOnError (resolveOptions request) = false ->
            forall sched s,
              batchSummary request sched w = Some s ->
              Permutation (map sr_operation (results s)
                           ++ map ei_operation (errors s))
                          (operations request)
              /\ successful s + failed s = total s))
  /\ (forall e,
        toolBoundary (inr e) = TextContent ("Error: " ++ errorText e))
  /\ (forall sched,
        callTool "no_such_tool" args sched w
        = Some (TextContent "Error: Unknown tool: no_such_tool")).
Proof.
  split; [|split; [|split]].
  - intros sched. unfold callTool, handleBatchFileOperations.
    cbn [String.eqb Ascii.eqb Bool.eqb].
    destruct (BatchRequestSchema args) as [request|issues]; [|reflexivity].
    destruct (pLimit (maxConcurrent (resolveOptions request)));
      [|reflexivity].
    now destruct (batchSummary request sched w).
  - intros request Hvalid.
    destruct (BatchRequestSchema_valid _ Hvalid) as (Hmc & _).
    pose proof (pLimit_valid _ Hmc) as Hlim.
    set (o := resolveOptions request) in *.
    set (l := operations request).
    split; [|split; [|split; [|split; [|split]]]].
    + intros sched e. unfold handleBatchFileOperations.
      rewrite Hvalid. fold o. rewrite Hlim.
      destruct (isInteger (maxConcurrent o)).
      * now destruct (batchSummary request sched w).
      * now intros [= <-].
    + intros Hint sched. unfold handleBatchFileOperations.
      rewrite Hvalid. fold o. now rewrite Hlim, Hint.
    + intros Hint.
      assert (Hc : 1 <= ceil (maxConcurrent o))
        by (destruct (maxConcurrent o); cbn [floor ceil] in *; lia).
      destruct (@fifo_returns _ _ l o (measure o (start l o w))
                  (start l o w) Hc (le_n _)) as (st & s & Hrun & Hs).
      exists (fifo l o (measure o (start l o w)) (start l o w)), s.
      assert (Hsum : batchSummary request
                (fifo l o (measure o (start l o w)) (start l o w)) w = Some s).
      { unfold batchSummary. fold o. fold l. now rewrite Hrun, Hs. }
      split; [exact Hsum|].
      unfold callTool, handleBatchFileOperations.
      cbn [String.eqb Ascii.eqb Bool.eqb]. rewrite Hvalid. fold o.
      now rewrite Hlim, Hint, Hsum.
    + intros sched st i t w1 evs err _ Hnth Hiter. eexists.
      cbn [step]. rewrite Hnth. unfold advance. fold o. rewrite Hiter.
      split; reflexivity.
    + intros sched sched' st st' s _ Hnd Hrun' Hs.
      eapply run_retains; eassumption.
    + intros Hoff sched s. unfold batchSummary. fold o. fold l.
      destruct (run l o sched (start l o w)) as [st|] eqn:Hrun;
        [|discriminate].
      destruct (st_phase st) as [| |s0] eqn:Hph; try discriminate.
      intros [= ->].
      destruct (reachable_drained _ _ _ _ Hoff Hrun) as [_ Hd].
      destruct (Hd s Hph) as (Hq & Ha & Hrem & Hres & Herr).
      pose proof (reachable_recorded _ _ _ _ Hrun) as Hrec.
      destruct (reachable_positioned _ _ _ _ Hrun) as (sub & Hg & Hpos).
      unfold recorded, settledOps in Hrec.
      rewrite Ha in Hrec. cbn [map] in Hrec. rewrite app_nil_r in Hrec.
      rewrite Hrem, app_nil_r in Hg. rewrite Hq, app_nil_r, <- Hg in Hpos.
      rewrite Hres, Herr. split.
      * rewrite Hrec, Hpos. apply grouped_perm.
      * destruct (reachable_reported _ _ _ _ Hrun Hph)
          as (Ht & Hn & Hf & _).
        rewrite Ht, Hn, Hf, Hres, Herr.
        apply Permutation_length in Hrec.
        rewrite Hpos, (Permutation_length (grouped_perm o l)) in Hrec.
        rewrite length_app, !length_map in Hrec. fold l. lia.
  - reflexivity.
  - reflexivity.
Qed.

(** C7 as stated fails where it has every failure recovered into the
    summary: under [stopOnError] two deletes of missing files are in
    flight together; the first fails and the summary is returned with
    that one failure; the second then fails too, its failure is recorded,
    and no summary holds it. *)
Lemma late_failure_is_in_no_summary :
  exists st s,
    run [Mem.deleteMissing; Mem.deleteOther] Mem.stoppingFlat
        [Dequeue; Dequeue; Advance 0; Advance 0; Resume; Advance 0;
         Advance 0]
        (start [Mem.deleteMissing; Mem.deleteOther] Mem.stoppingFlat
               ([] : Mem.World)) = Some st
    /\ st_phase st = Done s
    /\ map ei_operation (st_errors st) = [Mem.deleteMissing; Mem.deleteOther]
    /\ map ei_operation (errors s) = [Mem.deleteMissing]
    /\ failed s = 1
    /\ st_queue st = [] /\ st_active st = [] /\ st_remaining st = []
    /\ batchSummary
         (mkRequest [Mem.deleteMissing; Mem.deleteOther]
                    (Some Mem.stoppingFlat))
         [Dequeue; Dequeue; Advance 0; Advance 0; Resume; Advance 0;
          Advance 0] ([] : Mem.World) = Some s.
Proof.
  do 2 eexists. split; [vm_compute; reflexivity|].
  repeat split.
Qed.

(** C10, as the handler has it.  A request without operations executes
    nothing: under every schedule the log stays empty and the world
    untouched, and a summary that is built is [{ total: 0, successful: 0,
    failed: 0, results: [], errors: [] }].  When [maxConcurrent] is an
    integer the call answers nothing but that summary and there is a
    schedule under which it returns; when it is not, the limiter refuses
    it and the call throws before the loop over the groups. *)
Theorem empty_batch {World : Type} {fs : Fs World} {host : Host}
    (args : option Json) (request : BatchRequest) (w : World) :
  BatchRequestSchema args = Valid request ->
  operations request = [] ->
  (forall opts sched st,
     run [] opts sched (start [] opts w) = Some st ->
     st_log st = [] /\ st_world st = w
     /\ forall s, st_phase st = Done s -> s = mkSummary 0 0 0 [] [])
  /\ (isInteger (maxConcurrent (resolveOptions request)) = true ->
      (forall sched r,
         handleBatchFileOperations args sched w = Some r ->
         r = inl (TextContent
                    (stringify (jsonOfSummary (mkSummary 0 0 0 [] [])))))
      /\ exists sched,
           handleBatchFileOperations args sched w
           = Some (inl (TextContent
                          (stringify
                             (jsonOfSummary (mkSummary 0 0 0 [] []))))))
  /\ (isInteger (maxConcurrent (resolveOptions request)) = false ->
      forall sched,
        handleBatchFileOperations args sched w = Some (inr concurrencyError)).
Proof.
  intros Hvalid Hops.
  assert (Hengine : forall opts sched st,
    run [] opts sched (start [] opts w) = Some st ->
    st_log st = [] /\ st_world st = w
    /\ forall s, st_phase st = Done s -> s = mkSummary 0 0 0 [] []).
  { intros opts sched st Hrun.
    assert (Hidle : idle w st).
    { revert Hrun. apply run_invariant with (P := idle w);
        [apply idle_step | apply idle_start]. }
    destruct Hidle as (Hw & _ & _ & Hr & He & Hl & _).
    split; [assumption|]. split; [assumption|]. intros s Hs.
    pose proof (reachable_reported _ _ _ _ Hrun) as Hrep.
    destruct (Hrep s Hs) as (Ht & Hn & Hf & [r Hres] & [e Herr]).
    rewrite Hr in Hres. rewrite He in Herr.
    symmetry in Hres, Herr.
    apply app_eq_nil in Hres as [Hres _].
    apply app_eq_nil in Herr as [Herr _].
    destruct s as [t n f rs es]. cbn in *. subst. reflexivity. }
  destruct (BatchRequestSchema_valid _ Hvalid) as (Hmc & _).
  pose proof (pLimit_valid _ Hmc) as Hlim.
  split; [exact Hengine|]. split.
  - intros Hint. split.
    + intros sched r. unfold handleBatchFileOperations, batchSummary.
      rewrite Hvalid, Hlim, Hint, Hops.
      destruct (run [] (resolveOptions request) sched
                    (start [] (resolveOptions request) w)) as [st|] eqn:Hrun;
        [|discriminate].
      destruct (st_phase st) as [| |s] eqn:Hph; try discriminate.
      destruct (Hengine _ _ _ Hrun) as (_ & _ & Hs).
      rewrite (Hs s Hph). now intros [= <-].
    + assert (Hret : exists sched st,
                run [] (resolveOptions request) sched
                    (start [] (resolveOptions request) w) = Some st
                /\ st_phase st = Done (mkSummary 0 0 0 [] [])).
      { unfold start, enterLoop, grouped. cbn [st_remaining].
        destruct (groupByType (resolveOptions request)).
        - exists [], (mkCoord w [] [] [] [] []
                              (Done (mkSummary 0 0 0 [] [])) []).
          split; reflexivity.
        - exists [Resume], (mkCoord w [] [] [] [] []
                                    (Done (mkSummary 0 0 0 [] [])) []).
          split; reflexivity. }
      destruct Hret as (sched & st & Hrun & Hph). exists sched.
      unfold handleBatchFileOperations, batchSummary.
      now rewrite Hvalid, Hlim, Hint, Hops, Hrun, Hph.
  - intros Hint sched. unfold handleBatchFileOperations.
    now rewrite Hvalid, Hlim, Hint.
Qed.

(** No operations and no options. *)
Lemma empty_batch_witness :
  exists sched,
    @handleBatchFileOperations _ Mem.fs Mem.host
      (Some (JObj [("operations", JArr [])])) sched ([] : Mem.World)
    = Some (inl (TextContent
                   (stringify (jsonOfSummary (mkSummary 0 0 0 [] []))))).
Proof.
  destruct (@empty_batch _ Mem.fs Mem.host
              (Some (JObj [("operations", JArr [])]))
              (mkRequest [] None) [] eq_refl eq_refl)
    as (_ & Hint & _).
  exact (proj2 (Hint eq_refl)).
Defined.

(** C10 as stated fails for a [maxConcurrent] that is not an integer:
    the request with no operations and [maxConcurrent] 1.5 passes the
    schema, and the call throws the limiter's refusal instead of
    returning the summary; the tool answers the error text. *)
Lemma empty_batch_refused_by_the_limiter :
  BatchRequestSchema
    (Some (JObj [("operations", JArr []);
                 ("options",
                  JObj [("maxConcurrent", JNum (Frac 1 1%positive))])]))
  = Valid (mkRequest []
             (Some (mkOptions (Frac 1 1%positive) 30000 false 1 true)))
  /\ (forall sched,
        @handleBatchFileOperations _ Mem.fs Mem.host
          (Some (JObj [("operations", JArr []);
                       ("options",
                        JObj [("maxConcurrent",
                               JNum (Frac 1 1%positive))])]))
          sched ([] : Mem.World)
        = Some (inr concurrencyError))
  /\ (forall sched,
        @callTool _ Mem.fs Mem.host "batch_file_operations"
          (Some (JObj [("operations", JArr []);
                       ("options",
                        JObj [("maxConcurrent",
                               JNum (Frac 1 1%positive))])]))
          sched ([] : Mem.World)
        = Some (TextContent
                  "Error: Expected `concurrency` to be a number from 1 and up")).
Proof. repeat split. Qed.

(** * Further properties of the engine *)

(** ** The limiter and the order of execution *)

(** X1. The limiter never runs more operations at once than
    [maxConcurrent], under any schedule. *)
Theorem limiter_never_exceeds_capacity {World : Type} {fs : Fs World}
    (ops : list FileOperation) (opts : BatchOptions) (w : World)
    (sched : list Choice) (st : Coord) :
  0 <= ceil (maxConcurrent opts) ->
  run ops opts sched (start ops opts w) = Some st ->
  Z.of_nat (List.length (st_active st)) <= ceil (maxConcurrent opts).
Proof.
  intros Hmc Hrun.
  assert (Hb : bounded opts st).
  { revert Hrun. apply run_invariant with (P := bounded opts);
      [apply bounded_step | apply bounded_start]. }
  destruct Hb as [Hb|Hb]; [|exact Hb].
  rewrite Hb. simpl. lia.
Qed.

(** Three deletes with room for two: two run, the third waits. *)
Lemma limiter_never_exceeds_capacity_witness :
  exists st,
    run [Mem.deleteMissing; Mem.deleteOther; Mem.deleteMissing]
        (mkOptions 2 30000 false 1 true) [Dequeue; Dequeue]
        (start [Mem.deleteMissing; Mem.deleteOther; Mem.deleteMissing]
               (mkOptions 2 30000 false 1 true) ([] : Mem.World)) = Some st
    /\ Z.of_nat (List.length (st_active st)) <= 2
    /\ step [Mem.deleteMissing; Mem.deleteOther; Mem.deleteMissing]
            (mkOptions 2 30000 false 1 true) Dequeue st = None.
Proof.
  eexists. split; [vm_compute; reflexivity|]. split; [|reflexivity].
  apply (@limiter_never_exceeds_capacity _ Mem.fs
           [Mem.deleteMissing; Mem.deleteOther; Mem.deleteMissing]
           (mkOptions 2 30000 false 1 true) [] [Dequeue; Dequeue]).
  - simpl. lia.
  - reflexivity.
Defined.

(** X2. Operations are started in the order of the flattened groups: at
    every moment the operations started so far, followed by those waiting
    in the limiter and those of the groups not reached, are the groups
    flattened. *)
Theorem operations_start_in_group_order {World : Type} {fs : Fs World}
    (ops : list FileOperation) (opts : BatchOptions) (w : World)
    (sched : list Choice) (st : Coord) :
  run ops opts sched (start ops opts w) = Some st ->
  started st ++ st_queue st ++ List.concat (st_remaining st)
  = List.concat (grouped opts ops).
Proof.
  intros Hrun.
  destruct (reachable_positioned _ _ _ _ Hrun) as (pre & Hg & Hs).
  now rewrite Hg, concat_app, <- Hs, app_assoc.
Qed.

(** Read, create, read: the two reads go first. *)
Lemma operations_start_in_group_order_witness :
  exists st,
    run [Mem.op read "/a"; Mem.createA; Mem.op read "/b"] defaultOptions
        [Dequeue; Dequeue]
        (start [Mem.op read "/a"; Mem.createA; Mem.op read "/b"]
               defaultOptions ([] : Mem.World)) = Some st
    /\ started st = [Mem.op read "/a"; Mem.op read "/b"]
    /\ started st ++ st_queue st ++ List.concat (st_remaining st)
       = [Mem.op read "/a"; Mem.op read "/b"; Mem.createA].
Proof.
  eexists. split; [vm_compute; reflexivity|]. split; [reflexivity|].
  apply (@operations_start_in_group_order _ Mem.fs
           [Mem.op read "/a"; Mem.createA; Mem.op read "/b"]
           defaultOptions [] [Dequeue; Dequeue]).
  reflexivity.
Defined.

Lemma reachable_rejected {World : Type} {fs : Fs World}
    ops opts (w : World) sched st :
  run ops opts sched (start ops opts w) = Some st ->
  st_phase st = Rejected -> stopOnError opts = true.
Proof.
  intros Hrun.
  eapply (@run_invariant _ _ ops opts
            (fun s => st_phase s = Rejected -> stopOnError opts = true));
    [ | | exact Hrun].
  - intros c s1 s2. apply rejected_step.
  - unfold start, enterLoop. cbn [st_remaining].
    destruct (grouped opts ops); discriminate.
Qed.

(** X3. Groups run one after another.  At every moment of a run, unless
    there is no group at all, the groups are some earlier ones, the
    current group and those not reached; the outcomes recorded are those
    of every operation of the earlier groups and of some operations of
    the current one; and the operations in flight and those waiting in
    the limiter are the other operations of the current group.  So no
    operation of a group starts before every operation of the groups
    before it has settled.  A step that reaches a new group is a
    resumption of the coordinator taken when the limiter neither runs
    nor holds anything. *)
Theorem next_group_waits_for_the_current {World : Type} {fs : Fs World}
    (ops : list FileOperation) (opts : BatchOptions) (w : World)
    (sched : list Choice) (st : Coord) :
  run ops opts sched (start ops opts w) = Some st ->
  ((grouped opts ops = [] /\ started st = [])
   \/ exists earlier g done,
        grouped opts ops = earlier ++ g :: st_remaining st
        /\ Permutation (settledOps st) (List.concat earlier ++ done)
        /\ Permutation (done ++ map task_op (st_active st) ++ st_queue st) g)
  /\ forall c st',
       step ops opts c st = Some st' ->
       st_remaining st' <> st_remaining st ->
       c = Resume
       /\ st_queue st = [] /\ st_active st = []
       /\ (List.length (st_results st) + List.length (st_errors st))%nat
          = List.length (started st)
       /\ st_remaining st = st_queue st' :: st_remaining st'.
Proof.
  intros Hrun. split.
  - destruct (reachable_sequenced _ _ _ _ Hrun)
      as [(Hg & Hr & Hq & Ha & Hres & Herr)
         |(earlier & g & done & Hg & Hset & Hcur & _)].
    + left. split; [exact Hg|].
      pose proof (reachable_recorded _ _ _ _ Hrun) as Hrec.
      unfold recorded, settledOps in Hrec.
      rewrite Hres, Herr, Ha in Hrec. cbn in Hrec.
      now apply Permutation_nil in Hrec.
    + right. now exists earlier, g, done.
  - intros c st' Hstep Hneq.
    pose proof (reachable_accounted _ _ _ _ Hrun) as Hacc.
    pose proof (reachable_rejected _ _ _ _ Hrun) as Hrej.
    unfold accounted in Hacc.
    revert Hneq. invert_step Hstep; cbn [st_remaining st_queue];
      intros Hneq; try (now destruct Hneq).
    + simpl in Hacc. repeat split; trivial. lia.
    + specialize (Hrej eq_refl). congruence.
Qed.

(** Two deletes, then a create: while the second delete is in flight the
    first one has settled, the create still waits for its group, and the
    create is submitted only when both deletes are done. *)
Lemma next_group_waits_for_the_current_witness :
  exists st earlier g done,
    run [Mem.deleteMissing; Mem.createA; Mem.deleteOther]
        (mkOptions 10 30000 false 0 true)
        [Dequeue; Dequeue; Advance 0; Advance 0]
        (start [Mem.deleteMissing; Mem.createA; Mem.deleteOther]
               (mkOptions 10 30000 false 0 true) ([] : Mem.World))
    = Some st
    /\ st_remaining st = [[Mem.createA]]
    /\ grouped (mkOptions 10 30000 false 0 true)
               [Mem.deleteMissing; Mem.createA; Mem.deleteOther]
       = earlier ++ g :: [[Mem.createA]]
    /\ Permutation (settledOps st) (List.concat earlier ++ done)
    /\ Permutation (done ++ map task_op (st_active st) ++ st_queue st) g.
Proof.
  destruct (@next_group_waits_for_the_current _ Mem.fs
              [Mem.deleteMissing; Mem.createA; Mem.deleteOther]
              (mkOptions 10 30000 false 0 true) []
              [Dequeue; Dequeue; Advance 0; Advance 0] _ eq_refl)
    as [[[Hg _]|(earlier & g & done & Hg & Hset & Hcur)] _];
    [discriminate|].
  eexists. exists earlier, g, done.
  split; [reflexivity|]. split; [reflexivity|].
  split; [exact Hg|]. split; [exact Hset | exact Hcur].
Defined.

(** ** Termination and the attempt budget *)

Lemma list_sum_groups (W : nat) (gs : list (list FileOperation)) :
  list_sum (map (fun g => 1 + List.length g * W) gs)%nat
  = (List.length gs + List.length (List.concat gs) * W)%nat.
Proof.
  induction gs as [|g gs IH]; [reflexivity|].
  cbn [map List.concat List.length]. rewrite length_app.
  change (list_sum (?a :: ?l)) with (a + list_sum l)%nat.
  rewrite IH. lia.
Qed.

Lemma measure_start {World : Type} {fs : Fs World} ops opts (w : World) :
  (measure opts (start ops opts w)
   <= 1 + List.length (grouped opts ops)
      + List.length ops * (Z.to_nat (floor (retryAttempts opts) + 1) + 2))%nat.
Proof.
  pose proof (Permutation_length (grouped_perm opts ops)) as Hlen.
  unfold start, enterLoop, measure. cbn [st_remaining].
  destruct (grouped opts ops) as [|g gs];
    cbn [st_phase st_remaining st_queue st_active phaseWeight map
         List.length]; [unfold list_sum; simpl; lia|].
  rewrite list_sum_groups. cbn [List.concat] in Hlen.
  rewrite length_app in Hlen. unfold opWeight, taskWeight, list_sum.
  simpl fold_right.
  replace (floor (retryAttempts opts) + 1 - 0)
    with (floor (retryAttempts opts) + 1) by lia.
  cbn [app]. rewrite <- Hlen. nia.
Qed.

(** X4. A batch run cannot go on for ever and cannot get stuck: a
    schedule has at most [1 + groups + operations * (retryAttempts + 3)]
    steps ([retryAttempts] rounded down when it is not an integer), and
    as long as the call has not returned some step is possible (given
    room for at least one operation in the limiter). *)
Theorem batch_run_terminates {World : Type} {fs : Fs World}
    (ops : list FileOperation) (opts : BatchOptions) (w : World)
    (sched : list Choice) (st : Coord) :
  1 <= ceil (maxConcurrent opts) ->
  run ops opts sched (start ops opts w) = Some st ->
  (List.length sched
   <= 1 + List.length (grouped opts ops)
      + List.length ops * (Z.to_nat (floor (retryAttempts opts) + 1) + 2))%nat
  /\ ((forall s, st_phase st <> Done s) ->
      exists c st', step ops opts c st = Some st')
  /\ exists more st' s,
       run ops opts (sched ++ more) (start ops opts w) = Some st'
       /\ st_phase st' = Done s.
Proof.
  intros Hmc Hrun. split; [|split].
  - pose proof (@run_length _ _ ops opts sched _ _ Hrun) as Hlen.
    pose proof (measure_start ops opts w). lia.
  - intros Hnd.
    destruct (@pick_enabled _ _ ops opts st Hmc Hnd) as (c & st' & _ & H).
    eauto.
  - destruct (@fifo_returns _ _ ops opts (measure opts st) st Hmc (le_n _))
      as (st' & s & Hfifo & Hs).
    exists (fifo ops opts (measure opts st) st), st', s.
    split; [|exact Hs]. now rewrite run_app, Hrun.
Qed.

(** Two steps into the create-and-delete batch. *)
Lemma batch_run_terminates_witness :
  (2 <= 1 + 2 + 2 * 4)%nat
  /\ exists more st' s,
       run [Mem.createA; Mem.deleteMissing] defaultOptions
           ([Dequeue; Advance 0] ++ more)
           (start [Mem.createA; Mem.deleteMissing] defaultOptions
                  ([] : Mem.World)) = Some st'
       /\ st_phase st' = Done s.
Proof.
  assert (Hmc : 1 <= ceil (maxConcurrent defaultOptions)) by (simpl; lia).
  destruct (@batch_run_terminates _ Mem.fs
              [Mem.createA; Mem.deleteMissing] defaultOptions []
              [Dequeue; Advance 0] _ Hmc eq_refl) as (Hlen & _ & Hret).
  split; [exact Hlen | exact Hret].
Defined.

Lemma loopIter_attempt_count {World : Type} {fs : Fs World}
    operation r a last (w w1 : World) evs next :
  loopIter operation r a last w = (w1, evs, next) ->
  attemptsIn evs = if a <=? floor r then 1%nat else 0%nat.
Proof.
  unfold loopIter. destruct (a <=? floor r).
  - destruct (tryBody operation a w) as [w0 [res|e]].
    + now intros [= <- <- <-].
    + destruct (a <? ceil r); now intros [= <- <- <-].
  - now intros [= <- <- <-].
Qed.

Lemma budgeted_step {World : Type} {fs : Fs World} ops opts c
    (st st' : @Coord World) :
  budgeted opts st -> step ops opts c st = Some st' -> budgeted opts st'.
Proof.
  unfold budgeted, started, attemptBudget. intros Hb H. invert_step H;
    cbn [st_log st_active];
    rewrite ?flat_map_app, ?attemptsIn_app, ?length_app,
            ?(loopIter_starts _ _ _ _ _ Hiter),
            ?(loopIter_attempt_count _ _ _ _ _ Hiter);
    try assumption.
  - rewrite map_app, list_sum_app. unfold attemptsIn, list_sum. simpl.
    replace (floor (retryAttempts opts) + 1 - 0) with (floor (retryAttempts opts) + 1) by lia.
    unfold attemptsIn, list_sum in Hb. nia.
  - apply loopIter_continue in Hiter as (Ha & -> & _).
    pose proof (@list_sum_replaceAt _
                  (fun t => Z.to_nat (floor (retryAttempts opts) + 1 - task_attempt t))
                  i _ _ (mkTask (task_op t) (task_attempt t + 1) last1) Hnth)
      as E.
    cbn [task_attempt] in E.
    destruct (Z.leb_spec (task_attempt t) (floor (retryAttempts opts))); [|lia].
    simpl. lia.
  - rewrite (@list_sum_removeAt _
               (fun t => Z.to_nat (floor (retryAttempts opts) + 1 - task_attempt t))
               _ _ _ Hnth) in Hb.
    destruct (loopIter_settled _ _ _ _ _ Hiter)
      as [(Ha & _) | (_ & Hout & _)]; [|discriminate].
    destruct (Z.leb_spec (task_attempt t) (floor (retryAttempts opts))); [|lia].
    simpl. lia.
  - rewrite (@list_sum_removeAt _
               (fun t => Z.to_nat (floor (retryAttempts opts) + 1 - task_attempt t))
               _ _ _ Hnth) in Hb.
    destruct (loopIter_settled _ _ _ _ _ Hiter)
      as [(_ & res & Hout & _) | (Ha & _)]; [discriminate|].
    destruct (Z.leb_spec (task_attempt t) (floor (retryAttempts opts))); [lia|].
    simpl. lia.
Qed.

(** X5. The attempts of a whole batch are bounded: under any schedule the
    passes through the [try] block number at most [retryAttempts + 1] per
    operation started, hence at most [operations * (retryAttempts + 1)]
    ([retryAttempts] rounded down when it is not an integer). *)
Theorem batch_attempts_are_bounded {World : Type} {fs : Fs World}
    (ops : list FileOperation) (opts : BatchOptions) (w : World)
    (sched : list Choice) (st : Coord) :
  run ops opts sched (start ops opts w) = Some st ->
  (attemptsIn (st_log st)
   <= List.length (started st) * Z.to_nat (floor (retryAttempts opts) + 1)
   <= List.length ops * Z.to_nat (floor (retryAttempts opts) + 1))%nat.
Proof.
  intros Hrun.
  assert (Hb : budgeted opts st).
  { revert Hrun. apply run_invariant with (P := budgeted opts).
    - intros c s1 s2. apply budgeted_step.
    - unfold budgeted, start, enterLoop. cbn [st_remaining].
      destruct (grouped opts ops); cbn; lia. }
  pose proof (started_bound _ _ _ _ Hrun) as Hs.
  unfold budgeted, attemptBudget in Hb. split; [lia | nia].
Qed.

(** The delete of a missing file is tried twice with the default retry. *)
Lemma batch_attempts_are_bounded_witness :
  exists st,
    run [Mem.deleteMissing] defaultOptions
        [Dequeue; Advance 0; Advance 0; Advance 0; Resume]
        (start [Mem.deleteMissing] defaultOptions ([] : Mem.World))
    = Some st
    /\ attemptsIn (st_log st) = 2%nat
    /\ (attemptsIn (st_log st) <= List.length (started st) * 2)%nat.
Proof.
  eexists. split; [vm_compute; reflexivity|]. split; [reflexivity|].
  destruct (@batch_attempts_are_bounded _ Mem.fs [Mem.deleteMissing]
              defaultOptions []
              [Dequeue; Advance 0; Advance 0; Advance 0; Resume] _ eq_refl)
    as [H _].
  exact H.
Defined.

(** ** Backoff of the executor *)

Lemma waitsIn_app tr1 tr2 : waitsIn (tr1 ++ tr2) = waitsIn tr1 ++ waitsIn tr2.
Proof. apply flat_map_app. Qed.

Lemma linearBackoff_S n :
  linearBackoff (S n) = linearBackoff n ++ [1000 * (Z.of_nat n + 1)].
Proof.
  unfold linearBackoff. rewrite seq_S, map_app. cbn [map Nat.add].
  f_equal. f_equal. lia.
Qed.

Lemma linearBackoff_sum n :
  fold_right Z.add 0 (linearBackoff n) = 500 * Z.of_nat n * (Z.of_nat n + 1).
Proof.
  induction n as [|n IH]; [reflexivity|].
  rewrite linearBackoff_S, fold_right_app. cbn [fold_right].
  assert (Hshift : forall l z,
             fold_right Z.add z l = fold_right Z.add 0 l + z).
  { induction l as [|x l IHl]; intros z; simpl; [lia|]. rewrite IHl. lia. }
  rewrite Hshift, IH. lia.
Qed.

Lemma trace_attempt tr o a :
  attemptsIn (tr ++ [EvAttempt o a]) = S (attemptsIn tr)
  /\ waitsIn (tr ++ [EvAttempt o a]) = waitsIn tr.
Proof.
  rewrite attemptsIn_app, waitsIn_app. unfold attemptsIn, waitsIn. simpl.
  rewrite app_nil_r. split; [lia | reflexivity].
Qed.

Lemma trace_attempt_wait tr o a ms :
  attemptsIn (tr ++ [EvAttempt o a; EvWait ms]) = S (attemptsIn tr)
  /\ waitsIn (tr ++ [EvAttempt o a; EvWait ms]) = waitsIn tr ++ [ms].
Proof.
  rewrite attemptsIn_app, waitsIn_app. unfold attemptsIn, waitsIn. simpl.
  split; [lia | reflexivity].
Qed.

Lemma floor_ceil (x : Num) :
  floor x <= ceil x <= floor x + 1
  /\ (isInteger x = true -> ceil x = floor x)
  /\ (isInteger x = false -> ceil x = floor x + 1).
Proof. destruct x; cbn [floor ceil isInteger]; repeat split; lia || discriminate. Qed.

(** The loop keeps the trace in step with its counter: [n] attempts made
    at the head of pass [n], each failed attempt below [maxRetries]
    followed by its wait. *)
Lemma retryLoop_backoff {World : Type} {fs : Fs World} fuel :
  forall operation r (n : nat) last (w : World) tr w1 tr1 out,
  0 <= floor r -> (n <= Z.to_nat (floor r) + 1)%nat ->
  attemptsIn tr = n ->
  waitsIn tr = linearBackoff (Nat.min n (Z.to_nat (ceil r))) ->
  retryLoop fuel operation r (Z.of_nat n) last w tr = Some (w1, tr1, out) ->
  (1 <= attemptsIn tr1 <= Z.to_nat (floor r) + 1)%nat
  /\ (forall res, out = inl res ->
        waitsIn tr1 = linearBackoff (attemptsIn tr1 - 1))
  /\ (forall e, out = inr e ->
        attemptsIn tr1 = (Z.to_nat (floor r) + 1)%nat
        /\ waitsIn tr1 = linearBackoff (Z.to_nat (ceil r))).
Proof.
  induction fuel as [|fuel IH];
    intros operation r n last w tr w1 tr1 out Hr Hn Hatt Hwait;
    [discriminate|].
  destruct (floor_ceil r) as (Hfc & _).
  cbn [retryLoop]. unfold loopIter.
  destruct (Z.leb_spec (Z.of_nat n) (floor r)) as [Hle|Hgt].
  - destruct (tryBody operation (Z.of_nat n) w) as [w0 [res|e]].
    + intros [= <- <- <-].
      destruct (trace_attempt tr operation (Z.of_nat n)) as [-> ->].
      rewrite Hatt, Hwait, Nat.min_l by lia.
      replace (S n - 1)%nat with n by lia.
      split; [lia|]. split; [reflexivity | discriminate].
    + destruct (Z.ltb_spec (Z.of_nat n) (ceil r)) as [Hlt|Hge].
      * replace (Z.of_nat n + 1) with (Z.of_nat (S n)) by lia.
        destruct (trace_attempt_wait tr operation (Z.of_nat n)
                    (1000 * Z.of_nat (S n))) as [Ha Hw].
        apply IH; try lia.
        rewrite Hw, Hwait, !Nat.min_l by lia. rewrite linearBackoff_S.
        do 3 f_equal. lia.
      * replace (Z.of_nat n + 1) with (Z.of_nat (S n)) by lia.
        destruct (trace_attempt tr operation (Z.of_nat n)) as [Ha Hw].
        apply IH; try lia.
        rewrite Hw, Hwait. f_equal. lia.
  - intros [= <- <- <-]. rewrite app_nil_r, Hatt, Hwait.
    assert (n = (Z.to_nat (floor r) + 1)%nat) as -> by lia.
    split; [lia|]. split; [discriminate|]. intros e _.
    split; [reflexivity | f_equal; lia].
Qed.

(** X6. The executor always comes to an end, after at least one and at
    most [floor retryAttempts + 1] attempts, and it throws only when
    these are used up.  It waits 1000 ms after the first failed attempt,
    2000 ms after the second and so on, after every failed attempt that
    is below [retryAttempts].  So a run that returns a value after
    [k + 1] attempts has waited [k] times, and so has a run that throws
    when [retryAttempts] is an integer: [500 * k * (k + 1)] ms in all;
    but when [retryAttempts] is not an integer, which the schema admits,
    a run that throws has waited after its last attempt as well. *)
Theorem executor_backoff_is_linear {World : Type} {fs : Fs World}
    (operation : FileOperation) (opts : BatchOptions) (w : World) :
  0 <= floor (retryAttempts opts) ->
  exists w1 trace out,
    executeFileOperation operation opts w = Some (w1, trace, out)
    /\ 1 <= Z.of_nat (attemptsIn trace) <= floor (retryAttempts opts) + 1
    /\ (forall e, out = inr e ->
          Z.of_nat (attemptsIn trace) = floor (retryAttempts opts) + 1)
    /\ ((isInteger (retryAttempts opts) = true \/ exists res, out = inl res) ->
        waitsIn trace = linearBackoff (attemptsIn trace - 1)
        /\ fold_right Z.add 0 (waitsIn trace)
           = 500 * (Z.of_nat (attemptsIn trace) - 1)
             * Z.of_nat (attemptsIn trace))
    /\ (isInteger (retryAttempts opts) = false ->
        forall e, out = inr e ->
          waitsIn trace = linearBackoff (attemptsIn trace)).
Proof.
  intros Hr.
  destruct (executeFileOperation_total operation opts w)
    as (w1 & trace & out & Hexec).
  exists w1, trace, out. split; [exact Hexec|].
  unfold executeFileOperation in Hexec.
  destruct (@retryLoop_backoff _ _ (loopFuel (retryAttempts opts)) operation
              (retryAttempts opts) 0%nat None w [] w1 trace out Hr)
    as (Hb & Hok & He);
    [lia | reflexivity | reflexivity | exact Hexec |].
  destruct (floor_ceil (retryAttempts opts)) as (_ & Hint & Hfrac).
  split; [lia|]. split; [|split].
  - intros e Hout. destruct (He e Hout) as [-> _]. lia.
  - intros Hcase.
    assert (Hw : waitsIn trace = linearBackoff (attemptsIn trace - 1)).
    { destruct out as [res|e]; [now apply (Hok res)|].
      destruct Hcase as [Hi|[res Hres]]; [|discriminate].
      destruct (He e eq_refl) as [-> ->]. f_equal. rewrite (Hint Hi). lia. }
    split; [exact Hw|]. rewrite Hw, linearBackoff_sum.
    replace (Z.of_nat (attemptsIn trace - 1))
      with (Z.of_nat (attemptsIn trace) - 1) by lia.
    ring.
  - intros Hi e Hout. destruct (He e Hout) as [-> ->].
    f_equal. rewrite (Hfrac Hi). lia.
Qed.

(** A delete that fails twice and then succeeds waits 1000 and 2000 ms. *)
Lemma executor_backoff_is_linear_witness :
  exists trace res,
    executeFileOperation (Mem.op delete "/tmp/f")
                         (mkOptions 10 30000 false 3 true)
                         (2%nat : Flaky.World)
    = Some (0%nat, trace, inl res)
    /\ waitsIn trace = [1000; 2000]
    /\ fold_right Z.add 0 (waitsIn trace)
       = 500 * (Z.of_nat (attemptsIn trace) - 1) * Z.of_nat (attemptsIn trace).
Proof.
  destruct (@executor_backoff_is_linear _ Flaky.fs (Mem.op delete "/tmp/f")
              (mkOptions 10 30000 false 3 true) 2%nat)
    as (w1 & trace & out & Hexec & _ & _ & Hsum & _); [simpl; lia|].
  destruct (Hsum (or_introl eq_refl)) as [_ Hs].
  assert (E : executeFileOperation (Mem.op delete "/tmp/f")
                (mkOptions 10 30000 false 3 true) (2%nat : Flaky.World)
              = Some (0%nat,
                      [EvAttempt (Mem.op delete "/tmp/f") 0; EvWait 1000;
                       EvAttempt (Mem.op delete "/tmp/f") 1; EvWait 2000;
                       EvAttempt (Mem.op delete "/tmp/f") 2],
                      inl (Completed delete "/tmp/f"
                                     "2024-01-01T00:00:00.000Z" 3)))
    by (vm_compute; reflexivity).
  rewrite E in Hexec. injection Hexec as <- <- <-.
  do 2 eexists. split; [exact E|]. split; [reflexivity | exact Hs].
Defined.

(** With [retryAttempts] one half there is one attempt, and the executor
    waits 1000 ms after it before it throws. *)
Example backoff_after_the_only_attempt :
  executeFileOperation Mem.deleteMissing
                       (mkOptions 10 30000 false (Frac 0 1) true)
                       ([] : Mem.World)
  = Some ([], [EvAttempt Mem.deleteMissing 0; EvWait 1000],
          inr (Mem.enoent "/tmp/missing.txt")).
Proof. reflexivity. Qed.

(** ** The empty destination *)

Lemma tryBody_empty_destination {World : Type} {fs : Fs World}
    operation a (w : World) :
  needsDestination operation = true ->
  destination operation = Some EmptyString ->
  tryBody operation a w
  = (w, inr (JsError (destinationRequired (type operation)))).
Proof.
  unfold needsDestination, tryBody. intros Hty Hd. rewrite Hd.
  destruct (type operation); try discriminate; reflexivity.
Qed.

(** X7. An empty destination counts as a missing one: a [copy] or [move]
    whose destination is the empty string passes the validator, and its
    execution throws the destination-required error without touching the
    world in any attempt. *)
Theorem empty_destination_is_missing {World : Type} {fs : Fs World}
    (operation : FileOperation) (opts : BatchOptions) (w : World) :
  needsDestination operation = true ->
  destination operation = Some EmptyString ->
  0 <= floor (retryAttempts opts) ->
  FileOperationSchema (Some (jsonOfOperation operation)) = Valid operation
  /\ (forall a w0,
        tryBody operation a w0
        = (w0, inr (JsError (destinationRequired (type operation)))))
  /\ exists w1 trace,
       executeFileOperation operation opts w
       = Some (w1, trace,
               inr (JsError (destinationRequired (type operation)))).
Proof.
  intros Hty Hd Hr.
  split; [apply FileOperationSchema_accepts|].
  split; [intros a w0; now apply tryBody_empty_destination|].
  apply retryLoop_always_fails; [|lia | intros; lia | unfold loopFuel; lia].
  intros a w0. exists w0. now apply tryBody_empty_destination.
Qed.

(** A move to the empty path, without retry. *)
Lemma empty_destination_is_missing_witness :
  exists trace,
    executeFileOperation
      (mkOp move "/tmp/a.txt" None (Some EmptyString) utf8)
      (mkOptions 10 30000 false 0 true) ([] : Mem.World)
    = Some ([], trace, inr (JsError "Destination required for move")).
Proof.
  destruct (@empty_destination_is_missing _ Mem.fs
              (mkOp move "/tmp/a.txt" None (Some EmptyString) utf8)
              (mkOptions 10 30000 false 0 true) [] eq_refl eq_refl)
    as (_ & _ & w1 & trace & Hexec); [simpl; lia|].
  exists trace. rewrite Hexec. vm_compute in Hexec.
  injection Hexec as <-. reflexivity.
Defined.

(** ** Request validator *)

(** Options within the ranges are accepted as written. *)
Lemma options_range_complete (o : BatchOptions) :
  (validOptions o -> BatchOptionsSchema (Some (jsonOfOptions o)) = Valid o)
  /\ (~ validOptions o ->
      exists issues,
        BatchOptionsSchema (Some (jsonOfOptions o)) = Invalid issues
        /\ issues <> []).
Proof.
  destruct o as [mc tm soe ra gbt]. unfold validOptions, jsonOfOptions.
  cbn [maxConcurrent timeoutMs stopOnError retryAttempts groupByType].
  unfold BatchOptionsSchema, member. cbn [prop String.eqb Ascii.eqb Bool.eqb].
  unfold zDefault, zNumber, zNumberMin, zBoolean.
  destruct (Z.ltb_spec (floor mc) 1), (Z.ltb_spec 100 (ceil mc)),
    (lessThan tm 1000), (Z.ltb_spec (floor ra) 0),
    (Z.ltb_spec 3 (ceil ra));
    cbn; (split; intros Hv;
          [ first [reflexivity | destruct Hv as (? & ? & ? & ? & ?);
                                 first [discriminate | lia]]
          | first [ exfalso; apply Hv; repeat split; first [reflexivity | lia]
                  | eexists; split; [reflexivity | discriminate] ] ]).
Qed.

(** X8. The options schema accepts a fully written options object exactly
    when [maxConcurrent] is in [1, 100], [timeoutMs] is at least 1000 and
    [retryAttempts] is in [0, 3], and then returns the options as
    written; otherwise it reports at least one issue. *)
Theorem options_accepted_iff_in_range (o : BatchOptions) :
  (validOptions o <-> BatchOptionsSchema (Some (jsonOfOptions o)) = Valid o)
  /\ (~ validOptions o ->
      exists issues,
        BatchOptionsSchema (Some (jsonOfOptions o)) = Invalid issues
        /\ issues <> []).
Proof.
  destruct (options_range_complete o) as [Hyes Hno].
  split; [|exact Hno].
  split; [exact Hyes | apply BatchOptionsSchema_valid].
Qed.

(** X9. Each member of a validated options object is the value written
    by the caller or, when the caller wrote none, its default: 10, 30000,
    false, 1 and true. *)
Theorem absent_options_take_defaults
    (fields : list (string * Json)) (o : BatchOptions) :
  BatchOptionsSchema (Some (JObj fields)) = Valid o ->
  (match prop "maxConcurrent" fields with
   | None => maxConcurrent o = 10
   | Some v => v = JNum (maxConcurrent o)
   end)
  /\ (match prop "timeoutMs" fields with
      | None => timeoutMs o = 30000
      | Some v => v = JNum (timeoutMs o)
      end)
  /\ (match prop "stopOnError" fields with
      | None => stopOnError o = false
      | Some v => v = JBool (stopOnError o)
      end)
  /\ (match prop "retryAttempts" fields with
      | None => retryAttempts o = 1
      | Some v => v = JNum (retryAttempts o)
      end)
  /\ (match prop "groupByType" fields with
      | None => groupByType o = true
      | Some v => v = JBool (groupByType o)
      end).
Proof.
  unfold BatchOptionsSchema. intros H.
  apply pap_valid in H as (f4 & gbt & H & Hgbt & ->).
  apply pap_valid in H as (f3 & ra & H & Hra & ->).
  apply pap_valid in H as (f2 & soe & H & Hsoe & ->).
  apply pap_valid in H as (f1 & tm & H & Htm & ->).
  apply pmap_valid in H as (mc & Hmc & ->).
  unfold member in *.
  apply under_valid in Hmc, Htm, Hsoe, Hra, Hgbt.
  cbn [maxConcurrent timeoutMs stopOnError retryAttempts groupByType].
  unfold zDefault, zNumber, zNumberMin, zBoolean, invalid in *.
  repeat split.
  - destruct (prop "maxConcurrent" fields) as [[| |[n|[|]]| | |]|];
      try discriminate; [|congruence].
    destruct (floor n <? 1); [discriminate|].
    destruct (100 <? ceil n); congruence.
  - destruct (prop "timeoutMs" fields) as [[| |n| | |]|];
      try discriminate; [|congruence].
    destruct (lessThan n 1000); congruence.
  - destruct (prop "stopOnError" fields) as [[| | | | |]|];
      try discriminate; congruence.
  - destruct (prop "retryAttempts" fields) as [[| |[n|[|]]| | |]|];
      try discriminate; [|congruence].
    destruct (floor n <? 0); [discriminate|].
    destruct (3 <? ceil n); congruence.
  - destruct (prop "groupByType" fields) as [[| | | | |]|];
      try discriminate; congruence.
Qed.

(** A caller who only asks to stop on the first error. *)
Lemma absent_options_take_defaults_witness :
  BatchOptionsSchema (Some (JObj [("stopOnError", JBool true)]))
  = Valid (mkOptions 10 30000 true 1 true)
  /\ maxConcurrent (mkOptions 10 30000 true 1 true) = 10.
Proof.
  split; [reflexivity|].
  destruct (@absent_options_take_defaults [("stopOnError", JBool true)]
              (mkOptions 10 30000 true 1 true) eq_refl) as (H & _).
  exact H.
Defined.

Lemma zArray_operations ops :
  zArray FileOperationSchema (Some (JArr (map jsonOfOperation ops)))
  = Valid ops.
Proof.
  unfold zArray. generalize 0%nat.
  induction ops as [|op ops IH]; intros n; [reflexivity|].
  cbn [map]. rewrite FileOperationSchema_accepts. cbn [under pmap].
  rewrite IH. reflexivity.
Qed.

(** X10. A request written out as JSON parses back to itself: any list of
    operations, with no options or with options within the ranges, is
    accepted by the request schema as the request it denotes, and the
    options then used are the ones written. *)
Theorem request_roundtrip (request : BatchRequest) :
  match options request with
  | Some o => validOptions o
  | None => True
  end ->
  BatchRequestSchema (Some (jsonOfRequest request)) = Valid request
  /\ resolveOptions request
     = match options request with Some o => o | None => defaultOptions end.
Proof.
  destruct request as [ops [o|]]; cbn [options]; intros Hvalid.
  - split; [|now destruct o].
    unfold BatchRequestSchema, jsonOfRequest, member.
    cbn [operations options prop String.eqb Ascii.eqb Bool.eqb].
    rewrite zArray_operations. unfold zOptional.
    rewrite (proj1 (options_range_complete o) Hvalid). reflexivity.
  - split; [|reflexivity].
    unfold BatchRequestSchema, jsonOfRequest, member.
    cbn [operations options prop String.eqb Ascii.eqb Bool.eqb].
    rewrite zArray_operations. reflexivity.
Qed.

(** Two operations with the defaults written out. *)
Lemma request_roundtrip_witness :
  BatchRequestSchema
    (Some (jsonOfRequest
             (mkRequest [Mem.createA; Mem.deleteMissing]
                        (Some defaultOptions))))
  = Valid (mkRequest [Mem.createA; Mem.deleteMissing] (Some defaultOptions)).
Proof.
  apply (@request_roundtrip
           (mkRequest [Mem.createA; Mem.deleteMissing] (Some defaultOptions))).
  unfold validOptions. simpl. lia.
Defined.

Lemma pap_invalid_right {A B} (pf : Parsed (A -> B)) issues :
  pap pf (Invalid issues) = Invalid (issuesOf pf ++ issues).
Proof. now destruct pf. Qed.

Lemma pap_invalid_left {A B} issues (pa : Parsed A) :
  pap (Invalid issues : Parsed (A -> B)) pa
  = Invalid (issues ++ issuesOf pa).
Proof. now destruct pa. Qed.

(** An item that fails its schema fails the array, under its index. *)
Lemma zArray_invalid_item {A} (s : Schema A) items i j iss :
  nth_error items i = Some j ->
  s (Some j) = Invalid iss ->
  exists issues,
    zArray s (Some (JArr items)) = Invalid issues
    /\ forall x, In x iss ->
         In (mkIssue (issue_code x) (Index i :: issue_path x)) issues.
Proof.
  unfold zArray. intros Hnth Hj.
  change (Index i) with (Index (0 + i)). generalize 0%nat.
  revert i Hnth. induction items as [|x items IH]; intros i Hnth n.
  - destruct i; discriminate.
  - destruct i as [|i]; cbn [nth_error] in Hnth.
    + injection Hnth as ->. rewrite Hj. cbn [under pmap].
      rewrite pap_invalid_left. eexists. split; [reflexivity|].
      intros y Hy. apply in_or_app. left. rewrite Nat.add_0_r.
      apply in_map_iff. now exists y.
    + destruct (IH i Hnth (S n)) as (issues & -> & Hin).
      rewrite pap_invalid_right. eexists. split; [reflexivity|].
      intros y Hy. apply in_or_app. right.
      replace (n + S i)%nat with (S n + i)%nat by lia. now apply Hin.
Qed.

(** X11. One malformed operation rejects the whole request before
    anything runs: when the item at index [i] of [operations] fails the
    operation schema, the request schema fails with every issue of that
    item reported under the path [operations, i, ...]; the handler then
    throws under every schedule, and the tool answers the error text. *)
Theorem malformed_operation_rejects_request
    {World : Type} {fs : Fs World} {host : Host}
    (fields : list (string * Json)) (items : list Json) (i : nat)
    (j : Json) (iss : list ZodIssue) :
  prop "operations" fields = Some (JArr items) ->
  nth_error items i = Some j ->
  FileOperationSchema (Some j) = Invalid iss ->
  exists issues,
    BatchRequestSchema (Some (JObj fields)) = Invalid issues
    /\ (forall x, In x iss ->
          In (mkIssue (issue_code x)
                      (Key "operations" :: Index i :: issue_path x)) issues)
    /\ forall sched (w : World),
         handleBatchFileOperations (Some (JObj fields)) sched w
         = Some (inr (JsError (zodMessage issues)))
         /\ callTool "batch_file_operations" (Some (JObj fields)) sched w
            = Some (TextContent ("Error: " ++ zodMessage issues)).
Proof.
  intros Hops Hnth Hj.
  destruct (zArray_invalid_item FileOperationSchema items i Hnth Hj)
    as (issues & Harr & Hin).
  assert (Hparse : BatchRequestSchema (Some (JObj fields))
                   = Invalid
                       (map (fun x => mkIssue (issue_code x)
                                        (Key "operations" :: issue_path x))
                            issues
                        ++ issuesOf (member "options"
                                       (zOptional BatchOptionsSchema) fields))).
  { unfold BatchRequestSchema, member at 1. rewrite Hops, Harr.
    cbn [under pmap]. apply pap_invalid_left. }
  eexists. split; [exact Hparse|]. split.
  - intros x Hx. apply in_or_app. left. apply in_map_iff.
    exists (mkIssue (issue_code x) (Index i :: issue_path x)).
    split; [reflexivity | now apply Hin].
  - intros sched w. unfold callTool, handleBatchFileOperations.
    cbn [String.eqb Ascii.eqb Bool.eqb]. rewrite Hparse. split; reflexivity.
Qed.

(** An operation of an unknown kind at index 1. *)
Lemma malformed_operation_rejects_request_witness :
  exists issues,
    BatchRequestSchema
      (Some (JObj [("operations",
                    JArr [jsonOfOperation Mem.createA;
                          JObj [("type", JStr "truncate");
                                ("path", JStr "/tmp/a.txt")]])]))
    = Invalid issues
    /\ In (mkIssue "invalid_enum_value"
                   [Key "operations"; Index 1; Key "type"]) issues.
Proof.
  destruct (@malformed_operation_rejects_request _ Mem.fs Mem.host
              [("operations",
                JArr [jsonOfOperation Mem.createA;
                      JObj [("type", JStr "truncate");
                            ("path", JStr "/tmp/a.txt")]])]
              _ 1%nat _ [mkIssue "invalid_enum_value" [Key "type"]]
              eq_refl eq_refl eq_refl) as (issues & Hparse & Hin & _).
  exists issues. split; [exact Hparse|].
  apply (Hin (mkIssue "invalid_enum_value" [Key "type"])). now left.
Defined.

(** ** Grouping, continued *)

Lemma firstSeen_block t l :
  l <> [] -> Forall (fun u => u = t) l -> firstSeen l = [t].
Proof.
  induction l as [|u l IH]; [congruence|]. intros _ Hall.
  inversion Hall as [|? ? -> Hl]; subst. cbn [firstSeen].
  destruct l as [|v l]; [reflexivity|].
  rewrite IH by (congruence || assumption). simpl.
  now rewrite OpType_eqb_refl.
Qed.

Lemma firstSeen_blocks (block : OpType -> list OpType) ks :
  NoDup ks ->
  (forall t, In t ks -> block t <> [] /\ Forall (fun u => u = t) (block t)) ->
  firstSeen (List.concat (map block ks)) = ks.
Proof.
  induction ks as [|k ks IH]; intros Hnd Hb; [reflexivity|].
  inversion Hnd as [|? ? Hk Hks]; subst. cbn [map List.concat].
  destruct (Hb k (or_introl eq_refl)) as [Hne Hall].
  rewrite firstSeen_app, (firstSeen_block Hne Hall).
  rewrite IH by (trivial; intros t Ht; apply Hb; now right).
  cbn [app]. f_equal.
  apply forallb_filter_id. apply forallb_forall. intros u Hu.
  apply negb_true_iff, memType_notIn. intros Hin.
  rewrite Forall_forall in Hall. rewrite (Hall u Hin) in Hu. contradiction.
Qed.

Lemma filter_grouped t ops :
  filter (hasType t) (List.concat (groupOperationsByType ops))
  = filter (hasType t) ops.
Proof.
  rewrite groupOperationsByType_eq, groups_filter by apply firstSeen_NoDup.
  rewrite memType_firstSeen.
  destruct (memType t (map type ops)) eqn:E; [reflexivity|].
  symmetry. apply filter_hasType_none. now apply memType_notIn.
Qed.

(** X12. Grouping is idempotent: grouping the flattened groups gives the
    same groups again. *)
Theorem grouping_is_idempotent (ops : list FileOperation) :
  groupOperationsByType (List.concat (groupOperationsByType ops))
  = groupOperationsByType ops.
Proof.
  rewrite (groupOperationsByType_eq (List.concat _)).
  assert (Hks : firstSeen (map type (List.concat (groupOperationsByType ops)))
                = firstSeen (map type ops)).
  { rewrite groupOperationsByType_eq, concat_map, map_map.
    apply firstSeen_blocks; [apply firstSeen_NoDup|].
    intros t Ht. split.
    - destruct (group_of_seen_type t ops Ht) as (op & _ & Hin).
      intros E. apply map_eq_nil in E. rewrite E in Hin. destruct Hin.
    - apply Forall_forall. intros u Hu.
      apply in_map_iff in Hu as (op & <- & Hop).
      now apply in_group_type in Hop. }
  rewrite Hks, groupOperationsByType_eq.
  apply map_ext. intros t. rewrite <- groupOperationsByType_eq.
  apply filter_grouped.
Qed.

Lemma OpType_NoDup_length (ks : list OpType) :
  NoDup ks -> (List.length ks <= 6)%nat.
Proof.
  intros Hnd.
  apply (NoDup_incl_length (l' := [create; read; update; delete; copy; move]));
    [assumption|].
  intros t _. destruct t; simpl; tauto.
Qed.

(** X13. There are never more than six groups, one per kind of
    operation; there is no group exactly when there is no operation; and
    operations that are all of one kind form the single group of all of
    them, in their order. *)
Theorem groups_are_few (ops : list FileOperation) :
  (List.length (groupOperationsByType ops) <= 6)%nat
  /\ List.length (groupOperationsByType ops)
     = List.length (firstSeen (map type ops))
  /\ (groupOperationsByType ops = [] <-> ops = [])
  /\ (forall t, ops <> [] -> Forall (fun op => type op = t) ops ->
        groupOperationsByType ops = [ops]).
Proof.
  rewrite groupOperationsByType_eq, length_map.
  split; [apply OpType_NoDup_length, firstSeen_NoDup|].
  split; [reflexivity|]. split.
  - split.
    + intros E. apply map_eq_nil in E. destruct ops as [|op ops];
        [reflexivity | discriminate].
    + now intros ->.
  - intros t Hne Hall.
    rewrite (@firstSeen_block t (map type ops)).
    + cbn [map]. f_equal. apply forallb_filter_id. apply forallb_forall.
      intros op Hop. rewrite Forall_forall in Hall.
      apply hasType_true. now apply Hall.
    + intros E. apply map_eq_nil in E. contradiction.
    + apply Forall_forall. intros u Hu.
      apply in_map_iff in Hu as (op & <- & Hop).
      rewrite Forall_forall in Hall. now apply Hall.
Qed.

(** ** Dispatch of tool calls *)

(** X14. A call of a tool the server does not have is answered with the
    text [Error: Unknown tool: <name>], whatever the arguments. *)
Theorem unknown_tool_is_reported
    {World : Type} {fs : Fs World} {host : Host}
    (name : string) (args : option Json) (sched : list Choice) (w : World) :
  name <> "batch_file_operations" ->
  name <> "batch_code_analysis" ->
  name <> "batch_transform" ->
  callTool name args sched w
  = Some (TextContent ("Error: Unknown tool: " ++ name)).
Proof.
  intros H1 H2 H3. unfold callTool.
  apply String.eqb_neq in H1, H2, H3. now rewrite H1, H2, H3.
Qed.

(** A tool name in the wrong case. *)
Lemma unknown_tool_is_reported_witness :
  callTool "Batch_Transform" None [] ([] : Mem.World)
  = Some (TextContent "Error: Unknown tool: Batch_Transform").
Proof.
  apply (@unknown_tool_is_reported _ Mem.fs Mem.host "Batch_Transform");
    discriminate.
Defined.

(** ** One operation at a time *)

(** The trace handed to the loop is only extended. *)
Lemma retryLoop_trace {World : Type} {fs : Fs World} fuel :
  forall operation r a last (w : World) tr,
  retryLoop fuel operation r a last w tr
  = match retryLoop fuel operation r a last w [] with
    | Some (w1, tr1, out) => Some (w1, tr ++ tr1, out)
    | None => None
    end.
Proof.
  induction fuel as [|fuel IH]; intros operation r a last w tr;
    [reflexivity|].
  cbn [retryLoop].
  destruct (loopIter operation r a last w) as [[w1 evs] [a1 last1|out]].
  - rewrite (IH _ _ _ _ _ (tr ++ evs)), (IH _ _ _ _ _ ([] ++ evs)).
    destruct (retryLoop fuel operation r a1 last1 w1 [])
      as [[[w2 tr2] out]|]; [|reflexivity].
    now rewrite app_assoc.
  - reflexivity.
Qed.

Section SerialFacts.
Context {World : Type} {fs : Fs World}.
Variable ops : list FileOperation.
Variable opts : BatchOptions.
Hypothesis Hserial : maxConcurrent opts = 1.
Hypothesis Hoff : stopOnError opts = false.

Lemma single_active (st : @Coord World) i t :
  (List.length (st_active st) <= 1)%nat ->
  nth_error (st_active st) i = Some t ->
  i = 0%nat /\ st_active st = [t].
Proof.
  destruct (st_active st) as [|t0 [|t1 l]]; simpl; intros Hlen Hnth.
  - destruct i; discriminate.
  - destruct i as [|i]; [injection Hnth as ->; now split|].
    destruct i; discriminate.
  - lia.
Qed.

Lemma serial_step target c (st st' : @Coord World) :
  serial opts target st -> step ops opts c st = Some st' ->
  serial opts target st'.
Proof.
  unfold serial. intros (Hfin & Hlen & Hph) H. revert Hfin.
  invert_step H; unfold finish;
    cbn [st_world st_remaining st_queue st_active st_results st_errors
         st_phase];
    rewrite ?Hoff; try congruence.
  - (* the limiter starts the next operation *)
    rewrite Hserial in Hroom.
    destruct (st_active st) as [|t0 l] eqn:Ha; [|simpl in Hroom; lia].
    cbn [app List.length task_op task_attempt task_lastError].
    intros Hfin. split; [|split; [lia | assumption]].
    rewrite <- Hfin, Hqueue. cbn [app runSequential].
    unfold executeFileOperation, loopFuel.
    now replace (floor (retryAttempts opts) + 1 - 0) with (floor (retryAttempts opts) + 1)
      by lia.
  - (* a failed attempt *)
    destruct (single_active st i Hlen Hnth) as [-> Ha]. rewrite Ha.
    cbn [replaceAt firstn skipn app List.length
         task_op task_attempt task_lastError].
    intros Hfin. split; [|split; [lia | assumption]].
    rewrite <- Hfin.
    pose proof Hiter as Hc.
    apply loopIter_continue in Hc as (Hle & -> & _).
    replace (Z.to_nat (floor (retryAttempts opts) + 1 - task_attempt t) + 1)%nat
      with (S (Z.to_nat (floor (retryAttempts opts) + 1 - (task_attempt t + 1)) + 1))
      by lia.
    cbn [retryLoop]. rewrite Hiter. cbn [app].
    rewrite (retryLoop_trace _ _ _ _ _ _ evs).
    destruct (@retryLoop_total _ _
                (Z.to_nat (floor (retryAttempts opts) + 1 - (task_attempt t + 1)) + 1)
                (task_op t) (retryAttempts opts) (task_attempt t + 1) last1
                w1 []) as (w2 & tr2 & out & ->); [lia | reflexivity].
  - (* a success *)
    destruct (single_active st i Hlen Hnth) as [-> Ha]. rewrite Ha.
    cbn [removeAt firstn skipn app List.length].
    intros Hfin. split; [|split; [lia | assumption]].
    rewrite <- Hfin.
    replace (Z.to_nat (floor (retryAttempts opts) + 1 - task_attempt t) + 1)%nat
      with (S (Z.to_nat (floor (retryAttempts opts) + 1 - task_attempt t))) by lia.
    cbn [retryLoop]. rewrite Hiter. reflexivity.
  - (* the loop is left *)
    destruct (single_active st i Hlen Hnth) as [-> Ha]. rewrite Ha.
    cbn [removeAt firstn skipn app List.length].
    intros Hfin. split; [|split; [lia | assumption]].
    rewrite <- Hfin.
    replace (Z.to_nat (floor (retryAttempts opts) + 1 - task_attempt t) + 1)%nat
      with (S (Z.to_nat (floor (retryAttempts opts) + 1 - task_attempt t))) by lia.
    cbn [retryLoop]. rewrite Hiter. reflexivity.
  - (* the loop of groups ends *)
    rewrite Hactive, Hqueue, Hrem. cbn [app List.concat List.length].
    intros Hfin. split; [assumption | split; [lia | discriminate]].
  - (* the next group is submitted *)
    rewrite Hactive, Hqueue, Hrem. cbn [app List.concat List.length].
    intros Hfin. split; [assumption | split; [lia | discriminate]].
Qed.

Lemma serial_start (w : World) :
  serial opts (runSequential opts (List.concat (grouped opts ops)) w [] [])
         (start ops opts w).
Proof.
  unfold serial, start, enterLoop, finish. cbn [st_remaining].
  destruct (grouped opts ops) as [|g gs];
    cbn [st_world st_remaining st_queue st_active st_results st_errors
         st_phase app List.concat List.length];
    (split; [reflexivity | split; [lia | discriminate]]).
Qed.
End SerialFacts.

(** X15. With one operation at a time and without [stopOnError] a batch is
    the sequential execution of its operations in the order of the
    flattened groups: whatever the schedule, the world the run ends in and
    the records of the summary are those of executing the operations one
    after the other, each to its end. *)
Theorem serial_batch_is_sequential {World : Type} {fs : Fs World}
    (ops : list FileOperation) (opts : BatchOptions) (w : World)
    (sched : list Choice) (st : Coord) (s : BatchSummary) :
  maxConcurrent opts = 1 ->
  stopOnError opts = false ->
  run ops opts sched (start ops opts w) = Some st ->
  st_phase st = Done s ->
  (st_world st, (results s, errors s))
  = runSequential opts (List.concat (grouped opts ops)) w [] [].
Proof.
  intros Hserial Hoff Hrun Hs.
  assert (Hfin : serial opts
                   (runSequential opts (List.concat (grouped opts ops)) w [] [])
                   st).
  { revert Hrun.
    apply run_invariant
      with (P := serial opts
                   (runSequential opts (List.concat (grouped opts ops))
                                  w [] [])).
    - intros c s1 s2. now apply serial_step.
    - apply serial_start. }
  destruct Hfin as (Hfin & _ & _).
  destruct (reachable_drained _ _ _ _ Hoff Hrun) as [_ Hd].
  destruct (Hd s Hs) as (Hq & Ha & Hrem & -> & ->).
  rewrite <- Hfin. unfold finish. now rewrite Hq, Ha, Hrem.
Qed.

(** Create then delete, one at a time. *)
Lemma serial_batch_is_sequential_witness :
  exists st s,
    run [Mem.createA; Mem.deleteMissing] (mkOptions 1 30000 false 0 false)
        [Dequeue; Advance 0; Dequeue; Advance 0; Advance 0; Resume]
        (start [Mem.createA; Mem.deleteMissing]
               (mkOptions 1 30000 false 0 false) ([] : Mem.World)) = Some st
    /\ st_phase st = Done s
    /\ (st_world st, (results s, errors s))
       = runSequential (mkOptions 1 30000 false 0 false)
                       [Mem.createA; Mem.deleteMissing] [] [] [].
Proof.
  do 2 eexists. split; [vm_compute; reflexivity|]. split; [reflexivity|].
  apply (@serial_batch_is_sequential _ Mem.fs
           [Mem.createA; Mem.deleteMissing]
           (mkOptions 1 30000 false 0 false) []
           [Dequeue; Advance 0; Dequeue; Advance 0; Advance 0; Resume]);
    reflexivity.
Defined.

(** * Properties of the code analysis *)

Lemma splitLines_length content :
  List.length (splitLines content) = S (lineFeeds content).
Proof.
  induction content as [|c rest IH]; [reflexivity|].
  cbn [splitLines lineFeeds]. destruct (Ascii.eqb c lineFeed).
  - cbn [List.length]. rewrite IH. reflexivity.
  - destruct (splitLines rest) as [|line lines]; [discriminate|].
    cbn [List.length] in *. rewrite IH. reflexivity.
Qed.

(** A text is split at a line feed into the lines before it and the lines
    after it. *)
Lemma splitLines_app a b :
  splitLines (a ++ String lineFeed b)%string = splitLines a ++ splitLines b.
Proof.
  induction a as [|c a IH].
  - cbn [String.append splitLines]. now rewrite Ascii.eqb_refl.
  - cbn [String.append splitLines]. rewrite IH.
    destruct (Ascii.eqb c lineFeed); [reflexivity|].
    pose proof (splitLines_length a) as Hlen.
    destruct (splitLines a) as [|line lines]; [discriminate|reflexivity].
Qed.

Lemma markers_fold line markers acc :
  fold_left (fun complexity marker =>
               if includes marker line then complexity + 1 else complexity)
            markers acc
  = acc + Z.of_nat (List.length
                      (filter (fun marker => includes marker line) markers)).
Proof.
  revert acc. induction markers as [|m markers IH]; intros acc;
    cbn [fold_left filter]; [cbn [List.length]; lia|].
  rewrite IH. destruct (includes m line); cbn [List.length]; lia.
Qed.

Lemma lines_fold lines acc :
  fold_left
    (fun complexity line =>
       fold_left
         (fun complexity marker =>
            if includes marker line then complexity + 1 else complexity)
         complexityMarkers complexity)
    lines acc
  = acc + Z.of_nat (list_sum (map markersIn lines)).
Proof.
  revert acc. induction lines as [|line lines IH]; intros acc;
    cbn [fold_left map]; [unfold list_sum; simpl; lia|].
  rewrite IH, markers_fold. fold (markersIn line).
  change (list_sum (markersIn line :: map markersIn lines))
    with (markersIn line + list_sum (map markersIn lines))%nat.
  lia.
Qed.

Lemma countComplexity_sum lines :
  countComplexity lines = 1 + Z.of_nat (list_sum (map markersIn lines)).
Proof. apply lines_fold. Qed.

Lemma markersIn_bound line : (markersIn line <= 5)%nat.
Proof.
  unfold markersIn.
  etransitivity; [apply filter_length_le|]. reflexivity.
Qed.

Lemma markers_sum_bound lines :
  (list_sum (map markersIn lines) <= 5 * List.length lines)%nat.
Proof.
  induction lines as [|line lines IH]; [reflexivity|].
  change (list_sum (map markersIn (line :: lines)))
    with (markersIn line + list_sum (map markersIn lines))%nat.
  pose proof (markersIn_bound line). cbn [List.length]. lia.
Qed.

(** X16. The complexity analysis of a readable file reports one line more
    than the text has line feeds, and a complexity of one plus, for every
    line, the number of the five markers that the line includes: each
    marker counts once per line however often it occurs, so the
    complexity lies between 1 and 1 + 5 * lines. *)
Theorem complexity_counts_markers_per_line {World : Type} {fs : Fs World}
    (file content : string) (w w1 : World) :
  readFile file utf8 w = (w1, inl content) ->
  exists complexity lines,
    analyzeCode file "complexity" w = (w1, Complexity complexity lines)
    /\ lines = 1 + Z.of_nat (lineFeeds content)
    /\ complexity
       = 1 + Z.of_nat (list_sum (map markersIn (splitLines content)))
    /\ 1 <= complexity <= 1 + 5 * lines.
Proof.
  intros Hread. unfold analyzeCode. rewrite Hread.
  do 2 eexists. split; [reflexivity|].
  pose proof (splitLines_length content) as Hlen.
  pose proof (markers_sum_bound (splitLines content)) as Hsum.
  rewrite countComplexity_sum.
  split; [lia | split; [reflexivity | lia]].
Qed.

(** Two lines, three markers, [if] twice on the first line. *)
Lemma complexity_counts_markers_per_line_witness :
  exists complexity lines,
    @analyzeCode _ Mem.fs "/a.js" "complexity"
      [("/a.js", "if (a) { if (b) for (;;) {} }" ++ String lineFeed "while (c) {}")%string]
    = ([("/a.js", "if (a) { if (b) for (;;) {} }" ++ String lineFeed "while (c) {}")%string],
       Complexity complexity lines)
    /\ lines = 1 + Z.of_nat (lineFeeds ("if (a) { if (b) for (;;) {} }" ++ String lineFeed "while (c) {}"))
    /\ complexity
       = 1 + Z.of_nat (list_sum (map markersIn
                                   (splitLines ("if (a) { if (b) for (;;) {} }" ++ String lineFeed "while (c) {}"))))
    /\ 1 <= complexity <= 1 + 5 * lines.
Proof.
  apply (@complexity_counts_markers_per_line _ Mem.fs "/a.js"). reflexivity.
Defined.

(** X17. The complexity analysis is additive over line feeds: for two
    texts joined by a line feed the lines are the lines of both, and the
    complexity is the sum of both less the start value counted twice. *)
Theorem complexity_is_additive (a b : string) :
  splitLines (a ++ String lineFeed b)%string = splitLines a ++ splitLines b
  /\ countComplexity (splitLines (a ++ String lineFeed b)%string)
     = countComplexity (splitLines a) + countComplexity (splitLines b) - 1.
Proof.
  split; [apply splitLines_app|].
  rewrite splitLines_app, !countComplexity_sum, map_app.
  assert (Happ : forall l1 l2,
             list_sum (l1 ++ l2) = (list_sum l1 + list_sum l2)%nat).
  { intros l1 l2. induction l1 as [|x l1 IH]; [reflexivity|].
    change (list_sum ((x :: l1) ++ l2)) with (x + list_sum (l1 ++ l2))%nat.
    change (list_sum (x :: l1)) with (x + list_sum l1)%nat. lia. }
  rewrite Happ. lia.
Qed.

(** X18. [analyzeCode] reads the file before it looks at the analysis
    type: a file that cannot be read is reported as
    [{ error: true, message }] for every analysis type, the unimplemented
    ones included, and a readable file analysed by a type other than
    [complexity] and [dependencies] gives the placeholder. *)
Theorem analysis_reads_before_dispatch {World : Type} {fs : Fs World}
    (file analysisType : string) (w w1 : World)
    (outcome : string + JsThrown) :
  readFile file utf8 w = (w1, outcome) ->
  match outcome with
  | inr error =>
      analyzeCode file analysisType w
      = (w1, AnalysisError (errorText error))
  | inl content =>
      analysisType <> "complexity" -> analysisType <> "dependencies" ->
      analyzeCode file analysisType w
      = (w1, Placeholder ("Analysis type " ++ analysisType
                          ++ " not yet implemented")%string)
  end.
Proof.
  intros Hread. unfold analyzeCode. rewrite Hread.
  destruct outcome as [content|error]; [|reflexivity].
  intros Hc Hd. unfold analyzeLines.
  apply String.eqb_neq in Hc, Hd. now rewrite Hc, Hd.
Qed.

(** Linting a file that does not exist. *)
Lemma analysis_reads_before_dispatch_witness :
  @analyzeCode _ Mem.fs "/missing.js" "linting" []
  = ([], AnalysisError "ENOENT: no such file or directory, /missing.js").
Proof.
  exact (@analysis_reads_before_dispatch _ Mem.fs "/missing.js" "linting"
           [] [] (inr (Mem.enoent "/missing.js")) eq_refl).
Defined.

(** ** What [trim] leaves of a line *)

Lemma space1_byte a : space1 a = true -> spaceByte a = true.
Proof. unfold spaceByte. now intros ->. Qed.

Lemma space2_bytes a b :
  space2 a b = true -> spaceByte a = true /\ spaceByte b = true.
Proof.
  unfold space2, spaceByte, space1. cbv zeta.
  repeat rewrite ?orb_true_iff, ?andb_true_iff, ?N.eqb_eq, ?N.leb_le.
  generalize (N_of_ascii a) (N_of_ascii b). intros; lia.
Qed.

Lemma space3_bytes a b c :
  space3 a b c = true ->
  spaceByte a = true /\ spaceByte b = true /\ spaceByte c = true.
Proof.
  unfold space3, spaceByte, space1. cbv zeta.
  repeat rewrite ?orb_true_iff, ?andb_true_iff, ?N.eqb_eq, ?N.leb_le.
  generalize (N_of_ascii a) (N_of_ascii b) (N_of_ascii c). intros; lia.
Qed.

(** [dropSpaces] removes bytes of white space from the front. *)
Lemma dropSpaces_front n : forall s,
  (List.length s <= n)%nat ->
  exists a, s = a ++ dropSpaces s /\ forallb spaceByte a = true.
Proof.
  induction n as [|n IH]; intros s Hlen.
  - destruct s; [|simpl in Hlen; lia]. now exists [].
  - destruct s as [|a s1]; [now exists []|]. cbn [dropSpaces].
    cbn [List.length] in Hlen.
    destruct (space1 a) eqn:E1.
    { destruct (IH s1) as (l & Hl & Hs); [lia|].
      exists (a :: l). cbn [app forallb].
      rewrite <- Hl, Hs, (space1_byte _ E1). now split. }
    destruct s1 as [|b s2]; [now exists []|].
    cbn [List.length] in Hlen.
    destruct (space2 a b) eqn:E2.
    { destruct (IH s2) as (l & Hl & Hs); [lia|].
      destruct (space2_bytes _ _ E2) as [Ha Hb].
      exists (a :: b :: l). cbn [app forallb].
      rewrite <- Hl, Hs, Ha, Hb. now split. }
    destruct s2 as [|c s3]; [now exists []|].
    cbn [List.length] in Hlen.
    destruct (space3 a b c) eqn:E3; [|now exists []].
    destruct (IH s3) as (l & Hl & Hs); [lia|].
    destruct (space3_bytes _ _ _ E3) as (Ha & Hb & Hc).
    exists (a :: b :: c :: l). cbn [app forallb].
    rewrite <- Hl, Hs, Ha, Hb, Hc. now split.
Qed.

Lemma dropSpacesBack_front n : forall s,
  (List.length s <= n)%nat ->
  exists a, s = a ++ dropSpacesBack s /\ forallb spaceByte a = true.
Proof.
  induction n as [|n IH]; intros s Hlen.
  - destruct s; [|simpl in Hlen; lia]. now exists [].
  - destruct s as [|c s1]; [now exists []|]. cbn [dropSpacesBack].
    cbn [List.length] in Hlen.
    destruct (space1 c) eqn:E1.
    { destruct (IH s1) as (l & Hl & Hs); [lia|].
      exists (c :: l). cbn [app forallb].
      rewrite <- Hl, Hs, (space1_byte _ E1). now split. }
    destruct s1 as [|b s2]; [now exists []|].
    cbn [List.length] in Hlen.
    destruct (space2 b c) eqn:E2.
    { destruct (IH s2) as (l & Hl & Hs); [lia|].
      destruct (space2_bytes _ _ E2) as [Hb Hc].
      exists (c :: b :: l). cbn [app forallb].
      rewrite <- Hl, Hs, Hb, Hc. now split. }
    destruct s2 as [|a s3]; [now exists []|].
    cbn [List.length] in Hlen.
    destruct (space3 a b c) eqn:E3; [|now exists []].
    destruct (IH s3) as (l & Hl & Hs); [lia|].
    destruct (space3_bytes _ _ _ E3) as (Ha & Hb & Hc).
    exists (c :: b :: a :: l). cbn [app forallb].
    rewrite <- Hl, Hs, Ha, Hb, Hc. now split.
Qed.

Lemma string_of_list_ascii_app l1 l2 :
  string_of_list_ascii (l1 ++ l2)
  = (string_of_list_ascii l1 ++ string_of_list_ascii l2)%string.
Proof.
  induction l1 as [|a l1 IH]; [reflexivity|].
  cbn [app string_of_list_ascii String.append]. now rewrite IH.
Qed.

(** A line is its trimmed text between two runs of bytes of white
    space. *)
Lemma trim_between line :
  exists before after,
    line = (string_of_list_ascii before ++ trim line
            ++ string_of_list_ascii after)%string
    /\ forallb spaceByte before = true
    /\ forallb spaceByte after = true.
Proof.
  unfold trim.
  destruct (@dropSpaces_front _ (list_ascii_of_string line) (le_n _))
    as (before & Hb & Hsb).
  destruct (@dropSpacesBack_front _
              (rev (dropSpaces (list_ascii_of_string line))) (le_n _))
    as (back & Ha & Hsa).
  exists before, (rev back). split; [|split; [assumption|]].
  - rewrite <- !string_of_list_ascii_app, <- rev_app_distr, <- Ha,
      rev_involutive, <- Hb.
    now rewrite string_of_list_ascii_of_string.
  - rewrite forallb_forall in *. intros x Hx. apply Hsa.
    now apply in_rev.
Qed.

(** A marker without a byte of white space is not found across the bytes
    of white space in front of a text. *)
Lemma includes_after f marker before s :
  spaceByte f = false -> forallb spaceByte before = true ->
  includes (String f marker) (string_of_list_ascii before ++ s)
  = includes (String f marker) s.
Proof.
  intros Hf. induction before as [|c before IH]; intros Hb; [reflexivity|].
  cbn [forallb] in Hb. apply andb_prop in Hb as [Hc Hb].
  cbn [string_of_list_ascii String.append includes String.prefix].
  rewrite (IH Hb).
  destruct (ascii_dec f c) as [->|_]; [congruence | reflexivity].
Qed.

Lemma prefix_before marker : forall s after,
  forallb (fun c => negb (spaceByte c)) (list_ascii_of_string marker) = true ->
  forallb spaceByte after = true ->
  String.prefix marker (s ++ string_of_list_ascii after) = String.prefix marker s.
Proof.
  induction marker as [|f marker IH]; intros s after Hm Ha;
    [now destruct s; destruct after|].
  cbn [list_ascii_of_string forallb] in Hm.
  apply andb_prop in Hm as [Hf Hm]. apply negb_true_iff in Hf.
  destruct s as [|c s]; cbn [String.append String.prefix].
  - destruct after as [|c after]; [reflexivity|].
    cbn [string_of_list_ascii String.prefix forallb] in *.
    apply andb_prop in Ha as [Hc _].
    destruct (ascii_dec f c) as [->|_]; [congruence | reflexivity].
  - destruct (ascii_dec f c); [now apply IH | reflexivity].
Qed.

Lemma includes_before f marker after : forall s,
  forallb (fun c => negb (spaceByte c))
          (list_ascii_of_string (String f marker)) = true ->
  forallb spaceByte after = true ->
  includes (String f marker) (s ++ string_of_list_ascii after)
  = includes (String f marker) s.
Proof.
  intros s Hm Ha. induction s as [|c s IH].
  - cbn [String.append]. cbn [includes String.prefix].
    pose proof Hm as Hm'. cbn [list_ascii_of_string forallb] in Hm'.
    apply andb_prop in Hm' as [Hf _]. apply negb_true_iff in Hf.
    clear Hm. induction after as [|c after IH]; [reflexivity|].
    cbn [forallb] in Ha. apply andb_prop in Ha as [Hc Ha].
    cbn [string_of_list_ascii includes String.prefix].
    rewrite (IH Ha).
    destruct (ascii_dec f c) as [->|_]; [congruence | reflexivity].
  - change ((String c s ++ string_of_list_ascii after)%string)
      with (String c (s ++ string_of_list_ascii after)%string).
    cbn [includes]. rewrite IH.
    change (String c (s ++ string_of_list_ascii after)%string)
      with ((String c s ++ string_of_list_ascii after)%string).
    now rewrite (prefix_before (String f marker) (String c s) after Hm Ha).
Qed.

(** Trimming neither hides nor brings about a marker that has no byte of
    white space. *)
Lemma includes_trim f marker line :
  forallb (fun c => negb (spaceByte c))
          (list_ascii_of_string (String f marker)) = true ->
  includes (String f marker) (trim line) = includes (String f marker) line.
Proof.
  intros Hm. destruct (trim_between line) as (before & after & Hl & Hb & Ha).
  rewrite Hl at 2.
  assert (Hf : spaceByte f = false).
  { cbn [list_ascii_of_string forallb] in Hm.
    apply andb_prop in Hm as [Hf _]. now apply negb_true_iff in Hf. }
  now rewrite includes_after, includes_before.
Qed.

Lemma namesDependency_trim line :
  namesDependency (trim line) = namesDependency line.
Proof.
  unfold namesDependency.
  now rewrite !includes_trim by reflexivity.
Qed.

(** X19. The dependency analysis of a readable file reports the trimmed
    lines that include [import] or [require], in the order of the file:
    their count is the number of such lines, at most the number of lines;
    trimming removes none of the two words, so every reported import
    still includes one; and nothing is reported exactly when no line
    includes one. *)
Theorem dependencies_name_a_dependency {World : Type} {fs : Fs World}
    (file content : string) (w w1 : World) :
  readFile file utf8 w = (w1, inl content) ->
  exists imports count,
    analyzeCode file "dependencies" w = (w1, Dependencies imports count)
    /\ count = Z.of_nat (List.length imports)
    /\ List.length imports
       = List.length (filter namesDependency (splitLines content))
    /\ count <= 1 + Z.of_nat (lineFeeds content)
    /\ Forall (fun import => namesDependency import = true) imports
    /\ (imports = [] <->
        forall line, In line (splitLines content) ->
                     namesDependency line = false).
Proof.
  intros Hread. unfold analyzeCode. rewrite Hread.
  do 2 eexists. split; [reflexivity|].
  split; [reflexivity|]. rewrite length_map.
  split; [reflexivity|].
  pose proof (filter_length_le namesDependency (splitLines content)) as Hle.
  rewrite splitLines_length in Hle.
  split; [lia|]. split.
  - apply Forall_forall. intros import Hin.
    apply in_map_iff in Hin as (line & <- & Hin).
    apply filter_In in Hin as [_ Hin]. now rewrite namesDependency_trim.
  - split.
    + intros Hnil line Hin.
      destruct (namesDependency line) eqn:E; [|reflexivity].
      assert (Hf : In line (filter namesDependency (splitLines content)))
        by (apply filter_In; now split).
      apply (in_map trim) in Hf. rewrite Hnil in Hf. destruct Hf.
    + intros Hnone.
      destruct (filter namesDependency (splitLines content))
        as [|line lines] eqn:E; [reflexivity|].
      assert (Hf : In line (filter namesDependency (splitLines content)))
        by (rewrite E; now left).
      apply filter_In in Hf as [Hin Hd]. rewrite (Hnone _ Hin) in Hd.
      discriminate.
Qed.

(** An indented import, a line of code, and a require. *)
Lemma dependencies_name_a_dependency_witness :
  exists imports count,
    @analyzeCode _ Mem.fs "/a.js" "dependencies"
      [("/a.js",
        "  import x from 'x';  " ++ String lineFeed
          ("let y = 1;" ++ String lineFeed "const z = require('z')"))%string]
    = ([("/a.js",
         "  import x from 'x';  " ++ String lineFeed
           ("let y = 1;" ++ String lineFeed "const z = require('z')"))%string],
       Dependencies imports count)
    /\ imports = ["import x from 'x';"; "const z = require('z')"]
    /\ count = 2.
Proof.
  destruct (@dependencies_name_a_dependency _ Mem.fs "/a.js"
              ("  import x from 'x';  " ++ String lineFeed
                 ("let y = 1;" ++ String lineFeed "const z = require('z')"))
              [("/a.js",
                "  import x from 'x';  " ++ String lineFeed
                  ("let y = 1;" ++ String lineFeed
                     "const z = require('z')"))%string]
              _ eq_refl)
    as (imports & count & Hrun & Hcount & _).
  exists imports, count. split; [exact Hrun|].
  vm_compute in Hrun. injection Hrun as <- <-. now split.
Defined.

(** ** The analysis handler *)

Lemma nth_error_replaceAt_same {A} i (x : A) : forall l,
  (i < List.length l)%nat -> nth_error (replaceAt i x l) i = Some x.
Proof.
  unfold replaceAt. induction i as [|i IH]; intros [|a l] Hlen;
    simpl in *; try lia; [reflexivity|]. apply IH. lia.
Qed.

Lemma nth_error_replaceAt_other {A} i (x : A) : forall l k,
  (i < List.length l)%nat -> k <> i ->
  nth_error (replaceAt i x l) k = nth_error l k.
Proof.
  unfold replaceAt. induction i as [|i IH]; intros [|a l] k Hlen Hk;
    simpl in *; try lia.
  - destruct k; [congruence | reflexivity].
  - destruct k; [reflexivity|]. simpl. apply IH; [lia | congruence].
Qed.

Lemma allSettled_map {A} (slots : list (option A)) : forall values,
  allSettled slots = Some values -> slots = map Some values.
Proof.
  induction slots as [|[a|] slots IH]; intros values; cbn [allSettled].
  - now intros [= <-].
  - destruct (allSettled slots) as [values'|]; [|discriminate].
    intros [= <-]. cbn [map]. now rewrite (IH values').
  - discriminate.
Qed.

Lemma allSettled_total {A} (slots : list (option A)) :
  (forall k, nth_error slots k <> Some None) ->
  exists values, allSettled slots = Some values.
Proof.
  induction slots as [|[a|] slots IH]; intros Hall; cbn [allSettled].
  - now exists [].
  - destruct IH as [values ->]; [intros k; apply (Hall (S k))|].
    now exists (a :: values).
  - now destruct (Hall 0%nat).
Qed.

Lemma jobsFrom_slots pairs : forall slot,
  map job_slot (jobsFrom slot pairs) = seq slot (List.length pairs).
Proof.
  induction pairs as [|[file analysis] pairs IH]; intros slot;
    [reflexivity|].
  cbn [jobsFrom map job_slot List.length seq]. now rewrite IH.
Qed.

Lemma jobsFrom_In pairs : forall slot job,
  In job (jobsFrom slot pairs) ->
  (slot <= job_slot job)%nat
  /\ nth_error pairs (job_slot job - slot)
     = Some (job_file job, job_analysis job).
Proof.
  induction pairs as [|[file analysis] pairs IH]; intros slot job;
    cbn [jobsFrom]; [intros []|].
  intros [<-|Hin]; cbn [job_slot job_file job_analysis].
  - rewrite Nat.sub_diag. now split.
  - destruct (IH _ _ Hin) as [Hle Hnth]. split; [lia|].
    replace (job_slot job - slot)%nat with (S (job_slot job - S slot))
      by lia.
    exact Hnth.
Qed.

Lemma jobsFrom_slot pairs : forall slot k,
  (k < List.length pairs)%nat ->
  exists job, In job (jobsFrom slot pairs) /\ job_slot job = (slot + k)%nat.
Proof.
  induction pairs as [|[file analysis] pairs IH]; intros slot k Hk;
    cbn [List.length] in Hk; [lia|].
  cbn [jobsFrom]. destruct k as [|k].
  - eexists. split; [now left|]. cbn [job_slot]. lia.
  - destruct (IH (S slot) k) as (job & Hin & Hs); [lia|].
    exists job. split; [now right | lia].
Qed.

Section AnalyserFacts.
Context {World : Type} {fs : Fs World} {engine : Engine}.
Variable limit : Limit.
Implicit Types (st : @Analyser World) (sched : list Choice).

Lemma analysisRun_invariant (P : @Analyser World -> Prop) :
  (forall c st st', P st -> analysisStep limit c st = Some st' -> P st') ->
  forall sched st st',
    P st -> analysisRun limit sched st = Some st' -> P st'.
Proof.
  intros Hstep. induction sched as [|c sched IH]; intros st st' HP;
    cbn [analysisRun].
  - now intros [= <-].
  - destruct (analysisStep limit c st) as [st1|] eqn:E; [|discriminate].
    apply IH. eapply Hstep; eassumption.
Qed.

Lemma slotted_start pairs (w : World) :
  slotted pairs (analysisStart pairs w).
Proof.
  unfold slotted, analysisStart.
  cbn [az_slots az_queue az_active az_results].
  rewrite app_nil_r, length_map, jobsFrom_slots.
  split; [reflexivity|]. split; [apply seq_NoDup|]. split; [|split; [|split]].
  - intros job Hin. apply jobsFrom_In in Hin as [_ Hnth].
    rewrite Nat.sub_0_r in Hnth. split; [exact Hnth|].
    now rewrite nth_error_map, Hnth.
  - intros k Hk.
    assert (Hlt : (k < List.length pairs)%nat).
    { rewrite <- (length_map (fun _ => @None AnalysisEntry)).
      apply nth_error_Some. congruence. }
    destruct (jobsFrom_slot pairs 0 Hlt) as (job & Hin & Hs).
    now exists job.
  - intros k e. rewrite nth_error_map.
    now destruct (nth_error pairs k).
  - discriminate.
Qed.

Lemma slotted_step pairs c st st' :
  slotted pairs st -> analysisStep limit c st = Some st' ->
  slotted pairs st'.
Proof.
  intros (Hlen & Hnd & Hjobs & Hnone & Hsome & Hres) Hstep.
  destruct c as [|i|]; cbn [analysisStep] in Hstep.
  - (* the limiter starts a function *)
    destruct (az_queue st) as [|job q] eqn:Hq; [discriminate|].
    destruct (room _ _); [|discriminate]. injection Hstep as <-.
    unfold slotted. cbn [az_slots az_queue az_active az_results].
    assert (Hperm : Permutation ((job :: q) ++ az_active st)
                                (q ++ az_active st ++ [job])).
    { rewrite app_assoc. apply Permutation_cons_append. }
    split; [assumption|]. split; [|split; [|split; [|split]]];
      try assumption.
    + eapply Permutation_NoDup; [|exact Hnd]. now apply Permutation_map.
    + intros job' Hin. apply Hjobs.
      eapply Permutation_in; [symmetry; exact Hperm | exact Hin].
    + intros k Hk. destruct (Hnone k Hk) as (job' & Hin & Hs).
      exists job'. split; [|assumption].
      eapply Permutation_in; [exact Hperm | exact Hin].
  - (* a function reads its file and fulfils its promise *)
    destruct (nth_error (az_active st) i) as [job|] eqn:Hnth;
      [|discriminate].
    destruct (analyzeAny (job_file job) (job_analysis job) (az_world st))
      as [w1 result]. injection Hstep as <-.
    unfold slotted, removeAt.
    cbn [az_slots az_queue az_active az_results].
    pose proof (nth_error_decompose _ _ Hnth) as Hact.
    set (l1 := firstn i (az_active st)) in *.
    set (l2 := skipn (S i) (az_active st)) in *.
    rewrite Hact in Hnd, Hjobs, Hnone.
    rewrite app_assoc, map_app in Hnd. cbn [map] in Hnd.
    apply NoDup_remove in Hnd as [Hnd Hfresh].
    rewrite <- map_app, <- app_assoc in Hnd, Hfresh.
    destruct (Hjobs job) as [Hpair Hslot];
      [apply in_or_app; right; apply in_elt|].
    assert (Hlt : (job_slot job < List.length (az_slots st))%nat)
      by (apply nth_error_Some; congruence).
    assert (Hkeep : forall job', In job' (az_queue st ++ l1 ++ l2) ->
                                 In job' (az_queue st ++ l1 ++ job :: l2)).
    { intros job'. rewrite !in_app_iff. simpl. tauto. }
    assert (Hother : forall job', In job' (az_queue st ++ l1 ++ l2) ->
                                  job_slot job' <> job_slot job).
    { intros job' Hin E. apply Hfresh. rewrite <- E. now apply in_map. }
    split; [now rewrite (replaceAt_length _ _ _ Hslot)|].
    split; [exact Hnd|]. split; [|split; [|split]].
    + intros job' Hin. destruct (Hjobs job' (Hkeep _ Hin)) as [Hp Hs].
      split; [exact Hp|].
      rewrite nth_error_replaceAt_other; [exact Hs | exact Hlt |].
      now apply Hother.
    + intros k Hk.
      destruct (Nat.eq_dec k (job_slot job)) as [->|Hne].
      { rewrite nth_error_replaceAt_same in Hk by exact Hlt. discriminate. }
      rewrite nth_error_replaceAt_other in Hk by assumption.
      destruct (Hnone k Hk) as (job' & Hin & Hs).
      exists job'. split; [|exact Hs].
      rewrite !in_app_iff in *. simpl in Hin.
      destruct Hin as [Hin|[Hin|[->|Hin]]]; try tauto. congruence.
    + intros k e Hk.
      destruct (Nat.eq_dec k (job_slot job)) as [->|Hne].
      { rewrite nth_error_replaceAt_same in Hk by exact Hlt.
        injection Hk as <-. exact Hpair. }
      rewrite nth_error_replaceAt_other in Hk by assumption.
      now apply Hsome.
    + intros results Hr. apply Hres, allSettled_map in Hr.
      rewrite Hr, nth_error_map in Hslot.
      now destruct (nth_error results (job_slot job)).
  - (* the handler resumes *)
    destruct (az_results st) as [|] eqn:Hr; [discriminate|].
    destruct (allSettled (az_slots st)) as [results|] eqn:Hall;
      [|discriminate].
    injection Hstep as <-. unfold slotted.
    cbn [az_slots az_queue az_active az_results].
    repeat (split; [assumption|]). now intros results' [= <-].
Qed.

Lemma reachable_slotted pairs (w : World) sched st :
  analysisRun limit sched (analysisStart pairs w) = Some st ->
  slotted pairs st.
Proof.
  apply analysisRun_invariant with (P := slotted pairs).
  - intros c s s'. apply slotted_step.
  - apply slotted_start.
Qed.

(** The entries of a call that returned carry the files and analyses of
    the request, position by position. *)
Lemma returned_labels pairs st results :
  slotted pairs st -> az_results st = Some results ->
  map (fun e => (en_file e, en_analysis e)) results = pairs.
Proof.
  intros (Hlen & _ & _ & _ & Hsome & Hres) Hr.
  apply Hres, allSettled_map in Hr. rewrite Hr in Hlen, Hsome.
  rewrite length_map in Hlen. clear Hr Hres.
  revert pairs Hlen Hsome. induction results as [|e results IH];
    intros [|p pairs] Hlen Hsome; try discriminate; [reflexivity|].
  cbn [map]. f_equal.
  - specialize (Hsome 0%nat e eq_refl). now injection Hsome as <-.
  - apply IH; [now injection Hlen|].
    intros k e' Hk. exact (Hsome (S k) e' Hk).
Qed.

(** With one function at a time every queued job goes through and the
    handler resumes. *)
Lemma oneByOne_returns pairs : forall n st,
  room limit 0 = true -> slotted pairs st -> az_active st = [] ->
  List.length (az_queue st) = n -> az_results st = None ->
  exists st' results,
    analysisRun limit (oneByOne n) st = Some st'
    /\ az_results st' = Some results.
Proof.
  induction n as [|n IH]; intros st Hlim Hsl Hact Hq Hr.
  - cbn [oneByOne analysisRun analysisStep]. rewrite Hr.
    destruct Hsl as (_ & _ & _ & Hnone & _).
    destruct (allSettled_total (az_slots st)) as [results Hall].
    { intros k Hk. destruct (Hnone k Hk) as (job & Hin & _).
      destruct (az_queue st); [|discriminate]. now rewrite Hact in Hin. }
    rewrite Hall. now eexists _, results.
  - destruct (az_queue st) as [|job q] eqn:Hqueue; [discriminate|].
    cbn [oneByOne analysisRun].
    destruct (analysisStep limit Dequeue st) as [st1|] eqn:E1.
    2:{ cbn [analysisStep] in E1. rewrite Hqueue, Hact in E1.
        cbn [List.length] in E1. now rewrite Hlim in E1. }
    pose proof (@slotted_step pairs _ _ _ Hsl E1) as Hsl1.
    cbn [analysisStep] in E1. rewrite Hqueue, Hact in E1.
    cbn [List.length] in E1. rewrite Hlim in E1. injection E1 as <-.
    destruct (analysisStep limit (Advance 0) _) as [st2|] eqn:E2.
    2:{ cbn [analysisStep az_active app nth_error] in E2.
        now destruct (analyzeAny _ _ _). }
    pose proof (@slotted_step pairs _ _ _ Hsl1 E2) as Hsl2.
    cbn [analysisStep az_active az_queue az_world az_slots az_results
         app nth_error] in E2.
    destruct (analyzeAny _ _ _) as [w1 result]. injection E2 as <-.
    apply IH; try assumption; cbn [az_active az_queue az_results];
      first [reflexivity | now injection Hq | exact Hr].
Qed.

(** Never more functions in flight than the limiter allows. *)
Lemma inFlight_step c st st' :
  within limit (List.length (az_active st)) ->
  analysisStep limit c st = Some st' ->
  within limit (List.length (az_active st')).
Proof.
  intros Hle Hstep. destruct c as [|i|]; cbn [analysisStep] in Hstep.
  - destruct (az_queue st); [discriminate|].
    destruct (room limit (List.length (az_active st))) eqn:Hroom;
      [|discriminate].
    injection Hstep as <-. cbn [az_active]. rewrite length_app.
    cbn [List.length]. destruct limit as [n|]; [|exact I].
    cbn [within room] in *. apply Z.ltb_lt in Hroom. lia.
  - destruct (nth_error (az_active st) i) as [job|] eqn:Hnth;
      [|discriminate].
    destruct (analyzeAny _ _ _). injection Hstep as <-. cbn [az_active].
    pose proof (removeAt_length _ _ Hnth).
    destruct limit as [n|]; [|exact I]. cbn [within] in *. lia.
  - destruct (az_results st); [discriminate|].
    destruct (allSettled _); [|discriminate]. now injection Hstep as <-.
Qed.

(** The functions waiting and in flight are never more than the files
    and analyses of the request. *)
Lemma pending_step (n : nat) c st st' :
  (List.length (az_queue st) + List.length (az_active st) <= n)%nat ->
  analysisStep limit c st = Some st' ->
  (List.length (az_queue st') + List.length (az_active st') <= n)%nat.
Proof.
  intros Hle Hstep. destruct c as [|i|]; cbn [analysisStep] in Hstep.
  - destruct (az_queue st); [discriminate|].
    destruct (room limit _); [|discriminate].
    injection Hstep as <-. cbn [az_active az_queue]. rewrite length_app.
    cbn [List.length] in *. lia.
  - destruct (nth_error (az_active st) i) as [job|] eqn:Hnth;
      [|discriminate].
    destruct (analyzeAny _ _ _). injection Hstep as <-.
    cbn [az_active az_queue].
    pose proof (removeAt_length _ _ Hnth). lia.
  - destruct (az_results st); [discriminate|].
    destruct (allSettled _); [|discriminate]. now injection Hstep as <-.
Qed.

(** Reads that leave the world alone. *)
Hypothesis Hpure : forall file (w : World), fst (readFile file utf8 w) = w.


End AnalyserFacts.

Lemma pairs_length {A B} (l1 : list A) (l2 : list B) :
  List.length (flat_map (fun a => map (fun b => (a, b)) l2) l1)
  = (List.length l1 * List.length l2)%nat.
Proof.
  induction l1 as [|a l1 IH]; [reflexivity|].
  cbn [flat_map List.length]. rewrite length_app, length_map, IH. lia.
Qed.

(** The limiter that the handler gets lets a first function start. *)
Lemma pLimitOf_positive v limit :
  pLimitOf v = inl limit -> room limit 0 = true.
Proof.
  destruct v as [| |[[n|below part]|[|]]| | |]; try discriminate;
    cbn [pLimitOf pLimit].
  - destruct (Z.leb_spec 1 n); [|discriminate]. intros [= <-].
    apply Z.ltb_lt. cbn. lia.
  - now intros [= <-].
Qed.

Lemma analysisPlan_positive {engine : Engine} args limit pairs :
  analysisPlan args = inl (limit, pairs) -> room limit 0 = true.
Proof.
  unfold analysisPlan.
  destruct (analysisArguments args) as [[[files analyses] options]|];
    [|discriminate].
  destruct (concurrencyOf options) as [v|]; [|discriminate].
  destruct (pLimitOf v) as [n|] eqn:E; [|discriminate].
  destruct (analysisPairs files analyses); [|discriminate].
  intros [= <- _]. eapply pLimitOf_positive; eassumption.
Qed.

(** X20. What the analysis handler does with arguments that nothing has
    validated.  Before it awaits it makes its plan: it throws when
    [args] or [options] is [null] or [args] is absent, when the limiter
    refuses [options.maxConcurrent || 5], when [files] is not an array,
    and when there is a file and [analyses] is not an array; nothing has
    been read then.  Otherwise it never
    throws: it answers with one entry for every file and every analysis,
    file by file and, for one file, analysis by analysis, whatever the
    files and analyses are and in whatever order the limiter let the
    functions run; and it returns when the functions run one by one.
    Arguments in the advertised shape always get such an answer. *)
Theorem analysis_results_follow_the_request {World : Type} {fs : Fs World}
    {host : Host} {engine : Engine} (args : option Json) (w : World) :
  match analysisPlan args with
  | inr error =>
      forall sched, handleBatchCodeAnalysis args sched w = Some (inr error)
  | inl (limit, pairs) =>
      (forall sched r,
         handleBatchCodeAnalysis args sched w = Some r ->
         exists results,
           r = inl (TextContent
                      (stringify
                         (JObj [("analyses",
                                 JArr (map jsonOfEntry results))])))
           /\ map (fun e => (en_file e, en_analysis e)) results = pairs)
      /\ (exists text,
            handleBatchCodeAnalysis args (oneByOne (List.length pairs)) w
            = Some (inl (TextContent text)))
      /\ (forall v fileList analysisList,
            args = Some v ->
            jsonProp "files" v = Some (JArr fileList) ->
            jsonProp "analyses" v = Some (JArr analysisList) ->
            pairs = flat_map (fun file =>
                                map (fun analysis => (file, analysis))
                                    analysisList)
                             fileList
            /\ List.length pairs
               = (List.length fileList * List.length analysisList)%nat)
  end
  /\ (forall fields fileList analysisList,
        args = Some (JObj fields) ->
        prop "files" fields = Some (JArr fileList) ->
        prop "analyses" fields = Some (JArr analysisList) ->
        (prop "options" fields = None
         \/ exists o,
              prop "options" fields = Some (JObj o)
              /\ (prop "maxConcurrent" o = None
                  \/ exists n : Z,
                       prop "maxConcurrent" o = Some (JNum n) /\ 0 <= n)) ->
        exists limit,
          1 <= limit
          /\ analysisPlan args
             = inl (AtMost limit,
                    flat_map (fun file =>
                                map (fun analysis => (file, analysis))
                                    analysisList)
                             fileList)).
Proof.
  split.
  - unfold handleBatchCodeAnalysis.
    destruct (analysisPlan args) as [[limit pairs]|error] eqn:Hplan;
      [|reflexivity].
    pose proof (analysisPlan_positive _ Hplan) as Hlim.
    split; [|split].
    + intros sched r.
      destruct (analysisRun limit sched (analysisStart pairs w))
        as [st|] eqn:Hrun; [|discriminate].
      destruct (az_results st) as [results|] eqn:Hr; [|discriminate].
      intros [= <-]. exists results. split; [reflexivity|].
      exact (returned_labels (reachable_slotted _ _ _ _ Hrun) Hr).
    + destruct (@oneByOne_returns _ _ _ limit pairs (List.length pairs)
                  (analysisStart pairs w))
        as (st & results & -> & ->); try assumption; try reflexivity.
      * apply slotted_start.
      * unfold analysisStart. cbn [az_queue].
        rewrite <- (length_map job_slot), jobsFrom_slots. apply length_seq.
      * eexists. reflexivity.
    + intros v fileList analysisList -> Hf Ha.
      unfold analysisPlan, analysisArguments in Hplan.
      assert (Hv : v <> JNull) by (intros ->; discriminate).
      destruct v; try contradiction; rewrite Hf, Ha in Hplan;
        (destruct (concurrencyOf _) as [c|]; [|discriminate];
         destruct (pLimitOf c); [|discriminate];
         cbn [analysisPairs] in Hplan;
         destruct fileList as [|file fileList];
         [injection Hplan as _ <-; now split|];
         injection Hplan as _ <-; split; [reflexivity|];
         exact (pairs_length (file :: fileList) analysisList)).
  - intros fields fileList analysisList -> Hf Ha Ho.
    unfold analysisPlan, analysisArguments. cbn [jsonProp].
    rewrite Hf, Ha.
    assert (Hc : exists limit,
               1 <= limit
               /\ match concurrencyOf
                          match prop "options" fields with
                          | Some options => options
                          | None => JObj []
                          end
                  with
                  | inl c => pLimitOf c
                  | inr e => inr e
                  end = inl (AtMost limit)).
    { destruct Ho as [->|(o & -> & Hm)]; [now exists 5|].
      unfold concurrencyOf. cbn [jsonProp].
      destruct Hm as [->|(n & -> & Hn)]; [now exists 5|].
      destruct n as [|p|p]; [now exists 5 | | lia].
      exists (Z.pos p). split; [lia|]. cbn [falsy pLimitOf pLimit].
      now destruct (Z.leb_spec 1 (Z.pos p)); [|lia]. }
    destruct Hc as (limit & Hlim & Hc).
    destruct (concurrencyOf _) as [c|]; [|discriminate].
    rewrite Hc. exists limit. split; [exact Hlim|]. cbn [analysisPairs].
    now destruct fileList.
Qed.

(** Two files and two analyses, two functions at a time, the second
    function through before the first. *)
Example analysis_of_two_files :
  @handleBatchCodeAnalysis _ Mem.fs Mem.host plainEngine
    (Some (JObj [("files", JArr [JStr "/a.js"; JStr "/b.js"]);
                 ("analyses", JArr [JStr "complexity"; JStr "linting"]);
                 ("options", JObj [("maxConcurrent", JNum 2)])]))
    [Dequeue; Dequeue; Advance 1; Dequeue; Advance 0; Advance 0; Dequeue;
     Advance 0; Resume]
    [("/a.js", "if (x) y()")]
  = Some (inl (TextContent
       (stringify
          (JObj [("analyses",
                  JArr (map jsonOfEntry
                    [mkEntry (JStr "/a.js") (JStr "complexity")
                       (Complexity 2 1);
                     mkEntry (JStr "/a.js") (JStr "linting")
                       (Placeholder
                          "Analysis type linting not yet implemented");
                     mkEntry (JStr "/b.js") (JStr "complexity")
                       (AnalysisError
                          "ENOENT: no such file or directory, /b.js");
                     mkEntry (JStr "/b.js") (JStr "linting")
                       (AnalysisError
                          "ENOENT: no such file or directory, /b.js")
                    ]))])))).
Proof. vm_compute. reflexivity. Qed.

(** Arguments out of shape: a number among the files gets an error entry,
    a concurrency of one and a half is refused, and without [files] the
    handler throws. *)
Example analysis_of_unvalidated_arguments :
  @handleBatchCodeAnalysis _ Mem.fs Mem.host plainEngine
    (Some (JObj [("files", JArr [JNum 7]);
                 ("analyses", JArr [JStr "complexity"])]))
    [Dequeue; Advance 0; Resume] ([] : Mem.World)
  = Some (inl (TextContent
       (stringify
          (JObj [("analyses",
                  JArr (map jsonOfEntry
                    [mkEntry (JNum 7) (JStr "complexity")
                       (AnalysisError
                          "The path argument must be of type string")
                    ]))]))))
  /\ (forall sched,
        @handleBatchCodeAnalysis _ Mem.fs Mem.host plainEngine
          (Some (JObj [("files", JArr []); ("analyses", JArr []);
                       ("options",
                        JObj [("maxConcurrent",
                               JNum (Frac 1 1%positive))])]))
          sched ([] : Mem.World)
        = Some (inr concurrencyError))
  /\ (forall sched,
        @handleBatchCodeAnalysis _ Mem.fs Mem.host plainEngine
          (Some (JObj [("analyses", JArr [JStr "complexity"])]))
          sched ([] : Mem.World)
        = Some (inr (JsError
                       "files.flatMap cannot be evaluated on undefined"))).
Proof. split; [vm_compute; reflexivity | split; reflexivity]. Qed.

(** Without a limit: a concurrency too large for a double reads as
    [Infinity], which the limiter accepts; the three functions are in
    flight together. *)
Example analysis_without_a_limit :
  exists st,
    @analysisPlan plainEngine
      (Some (JObj [("files",
                    JArr [JStr "/a.js"; JStr "/b.js"; JStr "/c.js"]);
                   ("analyses", JArr [JStr "complexity"]);
                   ("options",
                    JObj [("maxConcurrent", JNum (Infinity false))])]))
    = inl (Unlimited,
           [(JStr "/a.js", JStr "complexity");
            (JStr "/b.js", JStr "complexity");
            (JStr "/c.js", JStr "complexity")])
    /\ @analysisRun _ Mem.fs plainEngine Unlimited
         [Dequeue; Dequeue; Dequeue]
         (analysisStart [(JStr "/a.js", JStr "complexity");
                         (JStr "/b.js", JStr "complexity");
                         (JStr "/c.js", JStr "complexity")]
                        ([] : Mem.World))
       = Some st
    /\ List.length (az_active st) = 3%nat.
Proof. eexists. split; [reflexivity|]. split; reflexivity. Qed.



(** X22. The analysis handler never has more functions in flight than
    the concurrency of its limiter, nor than there are files and
    analyses.  The concurrency is [options.maxConcurrent], or 5 when that
    is absent or counts as false ([0], [null], [false] and the empty
    string); the limiter accepts an integer from 1 up and [Infinity], and
    refuses everything else before any file is read, whatever the
    request. *)
Theorem analysis_concurrency {World : Type} {fs : Fs World} {host : Host}
    {engine : Engine} (args : option Json) (w : World) :
  (forall limit pairs sched st,
     analysisPlan args = inl (limit, pairs) ->
     analysisRun limit sched (analysisStart pairs w) = Some st ->
     within limit (List.length (az_active st))
     /\ (List.length (az_active st) <= List.length pairs)%nat)
  /\ (forall options,
        options <> JNull ->
        jsonProp "maxConcurrent" options = None
        \/ (exists v, jsonProp "maxConcurrent" options = Some v
                      /\ falsy v = true) ->
        concurrencyOf options = inl (JNum 5)
        /\ pLimitOf (JNum 5) = inl (AtMost 5))
  /\ (forall x : Num,
        pLimitOf (JNum x)
        = if isInteger x && (1 <=? floor x) then inl (AtMost (floor x))
          else inr concurrencyError)
  /\ pLimitOf (JNum (Infinity false)) = inl Unlimited
  /\ (forall v, (forall x, v <> JNum x) -> pLimitOf v = inr concurrencyError)
  /\ (forall files analyses options v error,
        analysisArguments args = inl (files, analyses, options) ->
        concurrencyOf options = inl v ->
        pLimitOf v = inr error ->
        error = concurrencyError
        /\ forall sched,
             handleBatchCodeAnalysis args sched w
             = Some (inr concurrencyError)).
Proof.
  split; [|split; [|split; [|split; [|split]]]].
  - intros limit pairs sched st Hplan Hrun.
    assert (Hinv : within limit (List.length (az_active st))
                   /\ (List.length (az_queue st)
                       + List.length (az_active st)
                       <= List.length pairs)%nat).
    { revert Hrun.
      apply analysisRun_invariant
        with (P := fun s =>
                     within limit (List.length (az_active s))
                     /\ (List.length (az_queue s)
                         + List.length (az_active s)
                         <= List.length pairs)%nat).
      - intros c s s' [Hle Hp] Hstep. split.
        + eapply inFlight_step; eassumption.
        + eapply pending_step; eassumption.
      - unfold analysisStart. cbn [az_active az_queue List.length]. split.
        + pose proof (analysisPlan_positive _ Hplan) as Hroom.
          destruct limit as [n|]; [|exact I]. cbn [within room] in *.
          apply Z.ltb_lt in Hroom. lia.
        + rewrite <- (length_map job_slot), jobsFrom_slots, length_seq.
          lia. }
    destruct Hinv as [Hle Hp]. split; [exact Hle | lia].
  - intros options Hnull Hm. split; [|reflexivity].
    unfold concurrencyOf.
    destruct options; try contradiction;
      (destruct Hm as [->|(v & -> & ->)]; reflexivity).
  - intros [n|below part]; cbn [pLimitOf pLimit isInteger floor andb];
      [|reflexivity].
    now destruct (1 <=? n).
  - reflexivity.
  - intros v Hv. destruct v; try reflexivity. now destruct (Hv n).
  - intros files analyses options v error Hargs Hc Hp.
    assert (He : error = concurrencyError).
    { destruct v as [| |[[n|below part]|[|]]| | |];
        cbn [pLimitOf pLimit] in Hp;
        try discriminate; try (now injection Hp as <-).
      destruct (1 <=? n); [discriminate | now injection Hp as <-]. }
    split; [exact He|]. intros sched.
    unfold handleBatchCodeAnalysis, analysisPlan.
    now rewrite Hargs, Hc, Hp, He.
Qed.

(** ** Members the schemas do not name *)

Lemma prop_skip k k' v o1 o2 :
  k' <> k -> prop k' (o1 ++ (k, v) :: o2) = prop k' (o1 ++ o2).
Proof.
  intros Hne. induction o1 as [|[k1 v1] o1 IH]; cbn [app prop].
  - apply String.eqb_neq in Hne. now rewrite Hne.
  - now rewrite IH.
Qed.

(** X23. Validation strips what the schemas do not name: a member under
    any other key, wherever it stands in the object, changes neither the
    parsed operation, nor the parsed options, nor the parsed request, nor
    the issues reported. *)
Theorem unknown_members_are_ignored (k : string) (v : Json)
    (o1 o2 : list (string * Json)) :
  (~ In k ["type"; "path"; "content"; "destination"; "encoding"] ->
   FileOperationSchema (Some (JObj (o1 ++ (k, v) :: o2)))
   = FileOperationSchema (Some (JObj (o1 ++ o2))))
  /\ (~ In k ["maxConcurrent"; "timeoutMs"; "stopOnError"; "retryAttempts";
              "groupByType"] ->
      BatchOptionsSchema (Some (JObj (o1 ++ (k, v) :: o2)))
      = BatchOptionsSchema (Some (JObj (o1 ++ o2))))
  /\ (~ In k ["operations"; "options"] ->
      BatchRequestSchema (Some (JObj (o1 ++ (k, v) :: o2)))
      = BatchRequestSchema (Some (JObj (o1 ++ o2)))).
Proof.
  repeat split; intros Hk;
    unfold FileOperationSchema, BatchOptionsSchema, BatchRequestSchema,
      member;
    rewrite !(@prop_skip k _ v o1 o2);
    first [reflexivity | intros <-; apply Hk; simpl; tauto].
Qed.
